(** * The [set] builtin of the fish shell (builtin_set.cpp)

    A shallow embedding of the index-expression parser, the slice
    update and erase routines, the path validation of [my_env_set], the
    variable printer and the command driver, with the properties the
    specification states about them. *)

From Stdlib Require Import ZArith String Ascii Bool Lia DecimalString.
From Stdlib Require Import List Permutation Btauto.
Import ListNotations.

Local Open Scope string_scope.
Local Open Scope Z_scope.
Local Open Scope list_scope.

(** ** Data model *)

(** [wchar_t] and [wcstring]: wide characters are modelled by [ascii] and
    wide strings by [string]; [wcstring_list_t] is [std::vector<wcstring>]. *)
Definition wchar_t := ascii.
Definition wcstring := string.
Definition wcstring_list_t := list wcstring.

(** [std::vector<long>], the index list. *)
Definition index_vector := list Z.

(** [long] is a 64-bit signed integer and [size_t] a 64-bit unsigned one.
    Both are carried by [Z]; the one mixed signed/unsigned expression of the
    file, [var_count + l_ind + 1], has its wrap-around written out. *)
Definition LONG_MAX : Z := 2 ^ 63 - 1.
Definition LONG_MIN : Z := - 2 ^ 63.
Definition SIZE_MODULUS : Z := 2 ^ 64.

(** Conversion of a [size_t] value to [long] (two's complement). *)
Definition size_t_to_long (x : Z) : Z :=
  let m := x mod SIZE_MODULUS in
  if m <=? LONG_MAX then m else m - SIZE_MODULUS.

Definition STATUS_CMD_OK : Z := 0.
Definition STATUS_CMD_ERROR : Z := 1.
Definition STATUS_INVALID_ARGS : Z := 2.

(** ** Character classes ([iswalnum], [iswspace]) on the ASCII range *)

Definition ascii_code (c : wchar_t) : Z := Z.of_nat (nat_of_ascii c).

Definition iswdigit (c : wchar_t) : bool :=
  (48 <=? ascii_code c) && (ascii_code c <=? 57).

(** [iswalnum] on the ASCII range, where every locale agrees.  For other
    characters the C library follows the locale; the properties of words
    that may hold such characters are stated for ASCII text ([ascii_text]). *)
Definition iswalnum (c : wchar_t) : bool :=
  iswdigit c
  || ((65 <=? ascii_code c) && (ascii_code c <=? 90))
  || ((97 <=? ascii_code c) && (ascii_code c <=? 122)).

Definition iswspace (c : wchar_t) : bool :=
  ((9 <=? ascii_code c) && (ascii_code c <=? 13)) || (ascii_code c =? 32).

(** ** The error stream

    Every [streams.err.append_format] call is recorded with its format and
    its arguments, every [builtin_print_help (..., streams.err)] with the
    command it documents. *)

Inductive err_fmt : Type :=
| BUILTIN_SET_PATH_ERROR   (* "%ls: Warning: $%ls entry [%ls] is not valid (%s)\n", the entry in quotes *)
| BUILTIN_SET_PATH_HINT    (* "%ls: Did you mean 'set %ls $%ls %ls'?\n" *)
| BUILTIN_SET_ARG_COUNT    (* "%ls: The number of variable indexes does not match the number of values\n" *)
| FMT_READ_ONLY            (* "%ls: Tried to change the read-only variable '%ls'\n" *)
| FMT_WRONG_SCOPE          (* "%ls: Tried to set the special variable '%ls' with the wrong scope\n" *)
| FMT_INVALID_VALUE        (* "%ls: Tried to set the special variable '%ls' to an invalid value\n" *)
| FMT_MULTIPLE_NAMES       (* "%ls: Multiple variable names specified in single call (%ls and %.*ls)\n" *)
| FMT_INVALID_INDEX        (* "%ls: Invalid index starting at '%ls'\n" *)
| FMT_INVALID_VAR_NAME     (* "$%ls: invalid var name\n" *)
| FMT_SHOW_SLICES          (* "%ls: `set --show` does not allow slices with the var names\n" *)
| BUILTIN_ERR_COMBO        (* builtin.h *)
| BUILTIN_ERR_GLOCAL       (* builtin.h *)
| BUILTIN_ERR_EXPUNEXP     (* builtin.h *)
| BUILTIN_ERR_VARNAME      (* builtin.h *)
| FMT_ERASE_NEEDS_NAME     (* "%ls: Erase needs a variable name\n" *)
| FMT_CMD_PREFIX           (* "%ls: " *)
| ARRAY_BOUNDS_ERR         (* expand.h *)
| FMT_VALUES_WITH_ERASE    (* "%ls: Values cannot be specfied with erase\n" *)
| FMT_SHADOWED.            (* "%ls: Universal var '%ls' created but shadowed by global var of the same name.\n" *)

Inductive err_item : Type :=
| Err_format (fmt : err_fmt) (args : list wcstring)
| Err_help (cmd : wcstring)
| Err_push_back (c : wchar_t)
| Err_missing_argument (cmd word : wcstring)   (* builtin_missing_argument *)
| Err_unknown_option (cmd word : wcstring).    (* builtin_unknown_option *)

(** What a call appends to [streams.err]. *)
Definition err_stream := list err_item.



(** ** Number scanning *)

Definition EINVAL : Z := 22.
Definition ERANGE : Z := 34.

Fixpoint skip_space (s : wcstring) : wcstring :=
  match s with
  | String c t => if iswspace c then skip_space t else s
  | EmptyString => s
  end.

(** The maximal run of decimal digits at the head of [s]: its value on top of
    [acc], its length, and the text after it. *)
Fixpoint scan_digits (s : wcstring) (acc : Z) (n : nat) : Z * nat * wcstring :=
  match s with
  | String c t =>
      if iswdigit c then scan_digits t (acc * 10 + (ascii_code c - 48)) (S n)
      else (acc, n, s)
  | EmptyString => (acc, n, s)
  end.

(** The optional sign in front of the digits. *)
Definition read_sign (s : wcstring) : bool * wcstring :=
  match s with
  | String c t =>
      if Ascii.eqb c "-" then (true, t)
      else if Ascii.eqb c "+" then (false, t)
      else (false, s)
  | EmptyString => (false, s)
  end.

(** [wcstol (nptr, &endptr, 10)] of the C library, which fish_wcstol wraps:
    optional white space, an optional sign, then digits; without a digit
    nothing is converted and the end pointer is the start; a value outside
    [long] is clamped and reported with ERANGE.  The result is (value, end
    pointer, errno). *)
Definition wcstol (nptr : wcstring) : Z * wcstring * Z :=
  let '(neg, s1) := read_sign (skip_space nptr) in
  let '(mag, nd, rest) := scan_digits s1 0 0 in
  match nd with
  | O => (0, nptr, 0)
  | S _ =>
      let v := if neg then - mag else mag in
      if v >? LONG_MAX then (LONG_MAX, rest, ERANGE)
      else if v <? LONG_MIN then (LONG_MIN, rest, ERANGE)
      else (v, rest, 0)
  end.

(** Modelled from the spec: fish_wcstol (wutil.cpp) is not under src/.
    Section 4.1 has every index be a signed integer and a malformed numeric
    token be a parse error; the two call sites in parse_index add that a
    positive errno reports a failed conversion and that errno = -1 only says
    that text follows the integer.  White space before and after the integer
    is skipped; the empty string, a text without digits and an integer
    outside [long] fail with a positive errno.  Two pointers into the same
    buffer are equal exactly when the texts from them have the same length.
    The result is (value, end pointer, errno). *)
Definition fish_wcstol (str : wcstring) : Z * wcstring * Z :=
  let str := skip_space str in
  match str with
  | EmptyString => (0, str, EINVAL)
  | _ =>
      let '(result, endptr, errno) := wcstol str in
      let endptr := skip_space endptr in
      let errno :=
        if (errno =? 0) && negb (String.eqb endptr EmptyString) then
          if Nat.eqb (String.length endptr) (String.length str) then EINVAL
          else -1
        else errno in
      (result, endptr, errno)
  end.

(** ** parse_index *)

(** [if (l_ind < 0) l_ind = var_count + l_ind + 1;] with [var_count] a
    [size_t]: the sum is computed in [size_t] and converted back to [long]. *)
Definition resolve_index (var_count : Z) (l_ind : Z) : Z :=
  if l_ind <? 0 then size_t_to_long (var_count + l_ind + 1) else l_ind.

(** The loop
    [for (long jjj = l_ind; jjj * direction <= l_ind2 * direction; jjj += direction)]
    pushing [jjj], run on the integers; [fuel] bounds the number of
    iterations.  On [long] the loop is [long_range_loop], which ends with the
    same vector when the range stays inside [long] ([range_in_long]) and
    does not end when it counts up to LONG_MAX. *)
Fixpoint range_loop (fuel : nat) (jjj l_ind2 direction : Z) (indexes : list Z)
  : list Z :=
  match fuel with
  | O => indexes
  | S fuel' =>
      if jjj * direction <=? l_ind2 * direction
      then range_loop fuel' (jjj + direction) l_ind2 direction (indexes ++ [jjj])
      else indexes
  end.

(** The number of iterations of the range loop. *)
Definition range_count (l_ind l_ind2 : Z) : Z := Z.abs (l_ind2 - l_ind) + 1.

Definition expand_range (l_ind l_ind2 : Z) (indexes : list Z) : list Z :=
  let direction := if l_ind2 <? l_ind then -1 else 1 in
  range_loop (Z.to_nat (range_count l_ind l_ind2)) l_ind l_ind2 direction indexes.

(** What parse_index leaves behind: its return value, the index vector it
    was given with what it pushed, and what it wrote to [streams.err]. *)
Record parse_result : Type := mk_parse_result {
  pr_count : Z;
  pr_indexes : list Z;
  pr_err : err_stream
}.

(** The scan over the variable name: [src] moves past every letter, digit
    and underscore. *)
Fixpoint skip_name (src : wcstring) : wcstring :=
  match src with
  | String c t => if iswalnum c || Ascii.eqb c "_" then skip_name t else src
  | EmptyString => src
  end.

(** [*src == c] *)
Definition starts_with (c : ascii) (src : wcstring) : bool :=
  match src with
  | String a _ => Ascii.eqb a c
  | EmptyString => false
  end.

(** [src + 1] *)
Definition next_char (src : wcstring) : wcstring :=
  match src with
  | String _ t => t
  | EmptyString => EmptyString
  end.

(** [*src == L'.' && *(src + 1) == L'.'], with the text at [src + 2]. *)
Definition after_dots (src : wcstring) : option wcstring :=
  match src with
  | String a (String b src2) =>
      if Ascii.eqb a "." && Ascii.eqb b "." then Some src2 else None
  | _ => None
  end.

(** The loop that runs until [src] is at the closing bracket.  Each iteration
    either returns or
    moves [src] forward, so [fuel] above the length of [src] is never used
    up (see [parse_index_loop_fuel]); [None] stands for running out of it.
    [count] is an [int] in the code and counted in [Z] here: the two agree up
    to INT_MAX indexes, and the ranges are expanded by [expand_range], which
    is the loop of the code for ranges inside [long]
    ([index_loop_in_range] says both of a text). *)
Fixpoint parse_index_loop (fuel : nat) (src : wcstring) (var_count : Z)
    (indexes : list Z) (count : Z) : option parse_result :=
  match fuel with
  | O => None
  | S fuel' =>
      if starts_with "]" src then Some (mk_parse_result count indexes [])
      else
        let '(l_ind, endp, errno) := fish_wcstol src in
        if errno >? 0 then
          Some (mk_parse_result 0 indexes
                  [Err_format FMT_INVALID_INDEX ["set"%string; src]])
        else
          let l_ind := resolve_index var_count l_ind in
          match after_dots endp with
          | Some src2 =>
              let '(l_ind2, endp2, errno2) := fish_wcstol src2 in
              if errno2 >? 0 then Some (mk_parse_result 1 indexes [])
              else
                let l_ind2 := resolve_index var_count l_ind2 in
                parse_index_loop fuel' (skip_space endp2) var_count
                  (expand_range l_ind l_ind2 indexes)
                  (count + range_count l_ind l_ind2)
          | None =>
              parse_index_loop fuel' (skip_space endp) var_count
                (indexes ++ [l_ind]) (count + 1)
          end
  end.

(** [parse_index (indexes, src, name, var_count, streams)], for a non-null
    [src].  [wcsncmp (src_orig, name, len) != 0 || wcslen (name) != len] says
    that [name] is not the text of [src] before the bracket. *)
Definition parse_index (indexes : list Z) (src name : wcstring) (var_count : Z)
  : parse_result :=
  let rest := skip_name src in
  if negb (starts_with "[" rest) then
    mk_parse_result 0 indexes [Err_format BUILTIN_SET_ARG_COUNT ["set"%string]]
  else
    let len := (String.length src - String.length rest)%nat in
    if negb (String.eqb (substring 0 len src) name) then
      mk_parse_result 0 indexes
        [Err_format FMT_MULTIPLE_NAMES ["set"%string; name; substring 0 len src]]
    else
      let body := skip_space (next_char rest) in
      match parse_index_loop (S (String.length body)) body var_count indexes 0 with
      | Some r => r
      | None => mk_parse_result 0 indexes []
      end.

(** ** The slice engine: update_values and erase_values *)

(** [std::vector::resize (n)]: cut to [n] elements or filled up with empty
    strings.  The library refuses a size above [vector_max_size] with an
    exception; the properties of growing an array are stated for indexes up
    to that limit. *)
Definition vector_resize (l : wcstring_list_t) (n : nat) : wcstring_list_t :=
  firstn n l ++ repeat EmptyString (n - length l).

(** [list[ind] = newv] for [ind] inside the vector. *)
Fixpoint vector_assign (l : wcstring_list_t) (ind : nat) (newv : wcstring)
  : wcstring_list_t :=
  match l, ind with
  | [], _ => []
  | _ :: t, O => newv :: t
  | x :: t, S i => x :: vector_assign t i newv
  end.

(** [update_values (list, indexes, values)]: the return value and the vector
    [list] as the call leaves it (it is passed by reference).  The loop reads
    [indexes[i]] and [values[i]] side by side; a missing [values[i]] is read
    as the empty string (the callers pass as many values as indexes). *)
Fixpoint update_values (list : wcstring_list_t) (indexes : index_vector)
    (values : wcstring_list_t) : Z * wcstring_list_t :=
  match indexes with
  | [] => (0, list)
  | index :: indexes' =>
      let ind := index - 1 in
      let newv := hd EmptyString values in
      if ind <? 0 then (1, list)
      else
        let list :=
          if ind >=? Z.of_nat (length list)
          then vector_resize list (Z.to_nat (ind + 1)) else list in
        update_values (vector_assign list (Z.to_nat ind) newv) indexes' (tl values)
  end.

(** [std::set<long>]: insertion keeps the elements ascending and unique. *)
Fixpoint set_insert (x : Z) (s : list Z) : list Z :=
  match s with
  | [] => [x]
  | y :: t =>
      if x <? y then x :: s
      else if x =? y then s
      else y :: set_insert x t
  end.

(** [std::set<long> indexes_set (indexes.begin (), indexes.end ())], as the
    ascending list of its elements. *)
Definition indexes_set (indexes : list Z) : list Z :=
  fold_left (fun s x => set_insert x s) indexes [].

(** [list.erase (list.begin () + pos)] *)
Definition vector_erase (l : wcstring_list_t) (pos : nat) : wcstring_list_t :=
  firstn pos l ++ skipn (S pos) l.

(** One step of the backwards walk over the set. *)
Definition erase_step (list : wcstring_list_t) (val : Z) : wcstring_list_t :=
  if (val >? 0) && (val <=? Z.of_nat (length list))
  then vector_erase list (Z.to_nat (val - 1))
  else list.

Definition erase_values (list : wcstring_list_t) (indexes : index_vector)
  : wcstring_list_t :=
  fold_left erase_step (rev (indexes_set indexes)) list.

(** ** The collaborators: variable store and platform *)

(** A flag word of env.h ([ENV_LOCAL | ENV_EXPORT | ...]); the flags are
    distinct bits, so a word is the record of its bits. *)
Record env_mode_flags_t : Type := mk_mode {
  has_LOCAL : bool;
  has_GLOBAL : bool;
  has_UNIVERSAL : bool;
  has_EXPORT : bool;
  has_UNEXPORT : bool;
  has_USER : bool
}.

Definition ENV_DEFAULT := mk_mode false false false false false false.
Definition ENV_LOCAL := mk_mode true false false false false false.
Definition ENV_GLOBAL := mk_mode false true false false false false.
Definition ENV_UNIVERSAL := mk_mode false false true false false false.
Definition ENV_EXPORT := mk_mode false false false true false false.
Definition ENV_UNEXPORT := mk_mode false false false false true false.
Definition ENV_USER := mk_mode false false false false false true.

(** Bitwise or of two flag words. *)
Definition mode_or (a b : env_mode_flags_t) : env_mode_flags_t :=
  mk_mode (has_LOCAL a || has_LOCAL b) (has_GLOBAL a || has_GLOBAL b)
          (has_UNIVERSAL a || has_UNIVERSAL b) (has_EXPORT a || has_EXPORT b)
          (has_UNEXPORT a || has_UNEXPORT b) (has_USER a || has_USER b).

(** The return values of env_set that my_env_set tells apart; any other one
    ends the process (DIE). *)
Inductive env_set_ret : Type := ENV_OK | ENV_PERM | ENV_SCOPE | ENV_INVALID.

(** [env_var_t]: a string that may be missing. *)
Definition env_var_t := option wcstring.

Definition missing (v : env_var_t) : bool :=
  match v with None => true | Some _ => false end.

Definition missing_or_empty (v : env_var_t) : bool :=
  match v with None => true | Some s => String.eqb s EmptyString end.

(** The variable store of env.h and the array encoding of common.h, both
    outside the file: the store is a state [S] with the operations the
    builtin calls. *)
Class VariableStore (S : Type) : Type := {
  env_get_string : S -> wcstring -> env_mode_flags_t -> env_var_t;
  env_set : S -> wcstring -> option wcstring -> env_mode_flags_t -> env_set_ret * S;
  env_remove : S -> wcstring -> env_mode_flags_t -> Z * S;
  env_exist : S -> wcstring -> env_mode_flags_t -> bool;
  env_get_names : S -> env_mode_flags_t -> wcstring_list_t;
  tokenize_variable_array : wcstring -> wcstring_list_t;
  list_to_array_val : wcstring_list_t -> wcstring;
  ENV_NULL : wcstring
}.

(** The rest of the outside world: the file system calls of the path
    validation, the interactive flag, the escaping functions, the name check
    and the ellipsis character (a run-time variable of common.cpp). *)
Class Platform : Type := {
  (** [wstat (dir, &buff)]: [inl errno] when it returns -1, else
      [inr (S_ISDIR (buff.st_mode))]. *)
  wstat : wcstring -> Z + bool;
  (** [waccess (dir, X_OK)]: [Some errno] when it returns -1. *)
  waccess_X_OK : wcstring -> option Z;
  strerror : Z -> wcstring;
  shell_is_interactive : bool;
  valid_var_name : wcstring -> bool;
  (** [escape_string (in, flags)]: the flags are 0 or ESCAPE_NO_QUOTED. *)
  escape_string : wcstring -> bool -> wcstring;
  expand_escape_variable : wcstring -> wcstring;
  ellipsis_char : wchar_t
}.

Definition ENOTDIR : Z := 20.

(** ** my_env_set *)

Definition path_variables : wcstring_list_t := ["PATH"; "CDPATH"].

Definition contains (l : wcstring_list_t) (x : wcstring) : bool :=
  existsb (String.eqb x) l.

Definition is_path_variable (env : wcstring) : bool := contains path_variables env.

(** [wcschr (s, c)]: the text from the first [c] on. *)
Fixpoint wcschr (s : wcstring) (c : wchar_t) : option wcstring :=
  match s with
  | EmptyString => None
  | String a t => if Ascii.eqb a c then Some s else wcschr t c
  end.

Definition string_prefixes_string (proposed_prefix value : wcstring) : bool :=
  String.prefix proposed_prefix value.

(** ** The output stream and small text helpers *)

(** The output stream: appended text, pushed characters, and the help text
    that builtin_print_help writes there. *)
Inductive out_item : Type :=
| Out_append (s : wcstring)
| Out_push_back (c : wchar_t)
| Out_help (cmd : wcstring).

(** The characters an item stands for (the help text is not modelled). *)
Definition out_item_text (o : out_item) : wcstring :=
  match o with
  | Out_append s => s
  | Out_push_back c => String c EmptyString
  | Out_help _ => EmptyString
  end.

(** What a call appends to [streams.out]. *)
Definition out_stream := list out_item.

Definition out_text (out : out_stream) : wcstring :=
  fold_right (fun o acc => String.append (out_item_text o) acc) EmptyString out.

(** The text of a line feed. *)
Definition newline : wcstring := String "010"%char EmptyString.

(** [%d] of a number. *)
Definition format_d (n : Z) : wcstring := NilZero.string_of_int (Z.to_int n).

(** The text of [s] before the first [c] (all of [s] without one): what
    [*wcschr (dest, c) = 0] leaves of [dest]. *)
Fixpoint cut_at (s : wcstring) (c : wchar_t) : wcstring :=
  match s with
  | EmptyString => EmptyString
  | String a t => if Ascii.eqb a c then EmptyString else String a (cut_at t c)
  end.

(** [std::sort] on names: insertion into an ascending list. *)
Fixpoint insert_sorted (x : wcstring) (l : wcstring_list_t) : wcstring_list_t :=
  match l with
  | [] => [x]
  | y :: t => if String.leb x y then x :: l else y :: insert_sorted x t
  end.

Definition sort (l : wcstring_list_t) : wcstring_list_t :=
  fold_right insert_sorted [] l.

Section Builtin.

Context {S : Type} {store_ops : VariableStore S} {platform : Platform}.

(** The three file system checks on one directory of a path variable:
    [None] when all pass, else the errno reported. *)
Definition check_dir (dir : wcstring) : option Z :=
  match wstat dir with
  | inl errno => Some errno
  | inr false => Some ENOTDIR
  | inr true => waccess_X_OK dir
  end.

(** An entry that is taken without looking at the file system. *)
Definition accepted_unchecked (existing_values : wcstring_list_t) (dir : wcstring)
  : bool :=
  negb (string_prefixes_string "/" dir) || contains existing_values dir.

(** The hint of an entry with text after a colon. *)
Definition path_hint (key dir : wcstring) : err_stream :=
  match wcschr dir ":"%char with
  | Some (String _ (String a t)) =>
      [Err_format BUILTIN_SET_PATH_HINT ["set"; key; key; String a t]]
  | _ => []
  end.

(** The entry passes the validation of my_env_set. *)
Definition entry_accepted (existing_values : wcstring_list_t) (dir : wcstring)
  : bool :=
  accepted_unchecked existing_values dir
  || match check_dir dir with None => true | Some _ => false end.

(** What an entry that fails the validation gets on [streams.err]: the
    warning, and the hint when it has text after a colon. *)
Definition entry_warnings (key : wcstring) (existing_values : wcstring_list_t)
    (dir : wcstring) : err_stream :=
  if entry_accepted existing_values dir then []
  else
    match check_dir dir with
    | Some errno =>
        Err_format BUILTIN_SET_PATH_ERROR ["set"; key; dir; strerror errno]
          :: path_hint key dir
    | None => []
    end.

(** The validation loop of my_env_set over [list]: the final [any_success]
    and what was written to [streams.err]. *)
Fixpoint validate_paths (key : wcstring) (existing_values list : wcstring_list_t)
    (any_success : bool) : bool * err_stream :=
  match list with
  | [] => (any_success, [])
  | dir :: rest =>
      if accepted_unchecked existing_values dir
      then validate_paths key existing_values rest true
      else
        match check_dir dir with
        | None => validate_paths key existing_values rest true
        | Some errno =>
            let '(any, err) := validate_paths key existing_values rest any_success in
            (any,
             Err_format BUILTIN_SET_PATH_ERROR ["set"; key; dir; strerror errno]
               :: path_hint key dir ++ err)
        end
  end.

(** The values the variable has now, read with ENV_DEFAULT: empty when the
    variable is missing or empty, else its elements. *)
Definition existing_values (st : S) (key : wcstring) : wcstring_list_t :=
  let existing_variable := env_get_string st key ENV_DEFAULT in
  match existing_variable with
  | Some v => if missing_or_empty existing_variable then []
              else tokenize_variable_array v
  | None => []
  end.

(** [env_set (key, *val == ENV_NULL ? NULL : val->c_str (), scope | ENV_USER)]
    for [val = list_to_array_val (list)]. *)
Definition env_set_list (st : S) (key : wcstring) (list : wcstring_list_t)
    (scope : env_mode_flags_t) : env_set_ret * S :=
  let val := list_to_array_val list in
  env_set st key (if String.eqb val ENV_NULL then None else Some val)
          (mode_or scope ENV_USER).

(** [my_env_set (key, list, scope, streams)]: the return value, the store
    after the call and what was written to [streams.err]. *)
Definition my_env_set (st : S) (key : wcstring) (list : wcstring_list_t)
    (scope : env_mode_flags_t) : Z * S * err_stream :=
  let '(path_failed, path_err) :=
    if is_path_variable key then
      let '(any_success, err) :=
        validate_paths key (existing_values st key) list false in
      (negb (Nat.eqb (length list) 0) && negb any_success, err)
    else (false, []) in
  if path_failed then (STATUS_CMD_ERROR, st, path_err)
  else
    let '(retcode, st') := env_set_list st key list scope in
    match retcode with
    | ENV_OK => (STATUS_CMD_OK, st', path_err)
    | ENV_PERM =>
        (STATUS_CMD_ERROR, st', path_err ++ [Err_format FMT_READ_ONLY ["set"; key]])
    | ENV_SCOPE =>
        (STATUS_CMD_ERROR, st', path_err ++ [Err_format FMT_WRONG_SCOPE ["set"; key]])
    | ENV_INVALID =>
        (STATUS_CMD_ERROR, st', path_err ++ [Err_format FMT_INVALID_VALUE ["set"; key]])
    end.

(** ** print_variables *)

(** What print_variables writes for one name. *)
Definition print_variable (include_values esc shorten_ok : bool)
    (scope : env_mode_flags_t) (st : S) (key : wcstring) : out_stream :=
  let e_key := escape_string key false in
  [Out_append e_key]
  ++ (if include_values then
        match env_get_string st key scope with
        | Some value =>
            let shorten := shorten_ok && (64 <? Z.of_nat (String.length value)) in
            let value := if shorten then substring 0 60 value else value in
            let e_value := if esc then expand_escape_variable value else value in
            [Out_append " "; Out_append e_value]
            ++ (if shorten then [Out_push_back ellipsis_char] else [])
        | None => []
        end
      else [])
  ++ [Out_append newline].

Definition print_variables (include_values esc shorten_ok : bool)
    (scope : env_mode_flags_t) (st : S) : out_stream :=
  flat_map (print_variable include_values esc shorten_ok scope st)
           (sort (env_get_names st scope)).

(** ** show_scope and builtin_set_show *)

(** The three scopes show_scope is called with (any other value ends the
    process). *)
Inductive shown_scope : Type := Show_local | Show_global | Show_universal.

Definition shown_scope_flag (sc : shown_scope) : env_mode_flags_t :=
  match sc with
  | Show_local => ENV_LOCAL
  | Show_global => ENV_GLOBAL
  | Show_universal => ENV_UNIVERSAL
  end.

Definition scope_name (sc : shown_scope) : wcstring :=
  match sc with
  | Show_local => "local"
  | Show_global => "global"
  | Show_universal => "universal"
  end.

Definition concat_text (parts : wcstring_list_t) : wcstring :=
  fold_right String.append EmptyString parts.

(** The element loop of show_scope from position [i] on; [size] is
    [result.size ()]. *)
Fixpoint show_elements (var_name : wcstring) (size : Z) (i : Z)
    (rest : wcstring_list_t) : out_stream :=
  match rest with
  | [] => []
  | value :: rest' =>
      let large := size >? 100 in
      (if large && (i =? 50) then [Out_append (String.append "..." newline)] else [])
      ++ (if large && (i >=? 50) && (i <? size - 50) then []
          else
            [Out_append
               (concat_text
                  ["$"; var_name; "["; format_d (i + 1); "]: length=";
                   format_d (Z.of_nat (String.length value)); " value=|";
                   escape_string value true; "|"; newline])])
      ++ show_elements var_name size (i + 1) rest'
  end.

Definition show_scope (st : S) (var_name : wcstring) (sc : shown_scope)
  : out_stream :=
  let scope := shown_scope_flag sc in
  if env_exist st var_name scope then
    let evar := env_get_string st var_name (mode_or (mode_or scope ENV_EXPORT) ENV_USER) in
    let exportv := if missing evar then "unexported" else "exported" in
    let var := env_get_string st var_name (mode_or scope ENV_USER) in
    let result :=
      match var with
      | Some v => if String.eqb v EmptyString then [] else tokenize_variable_array v
      | None => []
      end in
    Out_append
      (concat_text
         ["$"; var_name; ": set in "; scope_name sc; " scope, "; exportv; ", with ";
          format_d (Z.of_nat (length result)); " elements"; newline])
    :: show_elements var_name (Z.of_nat (length result)) 0 result
  else
    [Out_append
       (concat_text ["$"; var_name; ": not set in "; scope_name sc; " scope"; newline])].

Definition show_all_scopes (st : S) (var_name : wcstring) : out_stream :=
  show_scope st var_name Show_local ++ show_scope st var_name Show_global
  ++ show_scope st var_name Show_universal ++ [Out_push_back "010"%char].

(** The argument loop of builtin_set_show: status, output, errors. *)
Fixpoint show_args (st : S) (cmd : wcstring) (argv : wcstring_list_t)
  : Z * out_stream * err_stream :=
  match argv with
  | [] => (STATUS_CMD_OK, [], [])
  | arg :: rest =>
      if negb (valid_var_name arg) then
        let '(status, out, err) := show_args st cmd rest in
        (status, out, Err_format FMT_INVALID_VAR_NAME [arg] :: err)
      else if negb (missing (wcschr arg "["%char)) then
        (STATUS_CMD_ERROR, [], [Err_format FMT_SHOW_SLICES [cmd]; Err_help cmd])
      else
        let '(status, out, err) := show_args st cmd rest in
        (status, show_all_scopes st arg ++ out, err)
  end.

Definition builtin_set_show (st : S) (cmd : wcstring) (argv : wcstring_list_t)
  : Z * out_stream * err_stream :=
  match argv with
  | [] =>
      (STATUS_CMD_OK, flat_map (show_all_scopes st) (sort (env_get_names st ENV_USER)), [])
  | _ => show_args st cmd argv
  end.

(** ** builtin_set *)

(** What [wgetopt_long] hands back for the option string "+:LSUeghlnqux":
    one of the option letters, or ':' / '?' for the word [argv[woptind - 1]]. *)
Inductive set_opt : Type :=
| Opt_e | Opt_n | Opt_x | Opt_l | Opt_g | Opt_u | Opt_U | Opt_L | Opt_q | Opt_S
| Opt_h
| Opt_missing_argument (word : wcstring)
| Opt_unknown (word : wcstring).

(** The work-mode flags of builtin_set. *)
Record set_flags : Type := mk_flags {
  fl_local : bool;
  fl_global : bool;
  fl_exportv : bool;
  fl_erase : bool;
  fl_list : bool;
  fl_unexport : bool;
  fl_universal : bool;
  fl_query : bool;
  fl_show : bool;
  fl_shorten_ok : bool;
  fl_preserve_failure_exit_status : bool
}.

Definition initial_flags : set_flags :=
  mk_flags false false false false false false false false false true true.

(** The result of a run of the builtin: exit status, store, and what was
    appended to the two streams. *)
Record outcome : Type := mk_outcome {
  oc_status : Z;
  oc_store : S;
  oc_out : out_stream;
  oc_err : err_stream
}.

(** The option loop: the flags, or status, output and errors of an early
    return.  The messages of builtin_missing_argument and
    builtin_unknown_option (builtin.cpp) are recorded as calls. *)
Fixpoint parse_options (cmd : wcstring) (opts : list set_opt) (f : set_flags)
  : set_flags + (Z * out_stream * err_stream) :=
  match opts with
  | [] => inl f
  | o :: rest =>
      match o with
      | Opt_e =>
          parse_options cmd rest
            (mk_flags (fl_local f) (fl_global f) (fl_exportv f) true (fl_list f)
               (fl_unexport f) (fl_universal f) (fl_query f) (fl_show f)
               (fl_shorten_ok f) false)
      | Opt_n =>
          parse_options cmd rest
            (mk_flags (fl_local f) (fl_global f) (fl_exportv f) (fl_erase f) true
               (fl_unexport f) (fl_universal f) (fl_query f) (fl_show f)
               (fl_shorten_ok f) false)
      | Opt_x =>
          parse_options cmd rest
            (mk_flags (fl_local f) (fl_global f) true (fl_erase f) (fl_list f)
               (fl_unexport f) (fl_universal f) (fl_query f) (fl_show f)
               (fl_shorten_ok f) (fl_preserve_failure_exit_status f))
      | Opt_l =>
          parse_options cmd rest
            (mk_flags true (fl_global f) (fl_exportv f) (fl_erase f) (fl_list f)
               (fl_unexport f) (fl_universal f) (fl_query f) (fl_show f)
               (fl_shorten_ok f) (fl_preserve_failure_exit_status f))
      | Opt_g =>
          parse_options cmd rest
            (mk_flags (fl_local f) true (fl_exportv f) (fl_erase f) (fl_list f)
               (fl_unexport f) (fl_universal f) (fl_query f) (fl_show f)
               (fl_shorten_ok f) (fl_preserve_failure_exit_status f))
      | Opt_u =>
          parse_options cmd rest
            (mk_flags (fl_local f) (fl_global f) (fl_exportv f) (fl_erase f) (fl_list f)
               true (fl_universal f) (fl_query f) (fl_show f)
               (fl_shorten_ok f) (fl_preserve_failure_exit_status f))
      | Opt_U =>
          parse_options cmd rest
            (mk_flags (fl_local f) (fl_global f) (fl_exportv f) (fl_erase f) (fl_list f)
               (fl_unexport f) true (fl_query f) (fl_show f)
               (fl_shorten_ok f) (fl_preserve_failure_exit_status f))
      | Opt_L =>
          parse_options cmd rest
            (mk_flags (fl_local f) (fl_global f) (fl_exportv f) (fl_erase f) (fl_list f)
               (fl_unexport f) (fl_universal f) (fl_query f) (fl_show f)
               false (fl_preserve_failure_exit_status f))
      | Opt_q =>
          parse_options cmd rest
            (mk_flags (fl_local f) (fl_global f) (fl_exportv f) (fl_erase f) (fl_list f)
               (fl_unexport f) (fl_universal f) true (fl_show f)
               (fl_shorten_ok f) false)
      | Opt_S =>
          parse_options cmd rest
            (mk_flags (fl_local f) (fl_global f) (fl_exportv f) (fl_erase f) (fl_list f)
               (fl_unexport f) (fl_universal f) (fl_query f) true
               (fl_shorten_ok f) false)
      | Opt_h => inr (STATUS_CMD_OK, [Out_help cmd], [])
      | Opt_missing_argument word =>
          inr (STATUS_INVALID_ARGS, [], [Err_missing_argument cmd word])
      | Opt_unknown word =>
          inr (STATUS_INVALID_ARGS, [], [Err_unknown_option cmd word])
      end
  end.

(** [scope = (local ? ENV_LOCAL : 0) | ... | ENV_USER] *)
Definition scope_of_flags (f : set_flags) : env_mode_flags_t :=
  mk_mode (fl_local f) (fl_global f) (fl_universal f) (fl_exportv f)
          (fl_unexport f) true.

(** The array held by [name] in [scope], empty when the variable is missing:
    [if (!dest_str.missing ()) tokenize_variable_array (dest_str, result);] *)
Definition fetch_array (st : S) (name : wcstring) (scope : env_mode_flags_t)
  : wcstring_list_t :=
  match env_get_string st name scope with
  | Some v => tokenize_variable_array v
  | None => []
  end.

(** [idx < 1 || (size_t) idx > result.size ()] *)
Definition index_missing (size : Z) (idx : Z) : bool :=
  (idx <? 1) || (idx >? size).

(** The number of indexes of the vector that the array does not have. *)
Definition count_missing (size : Z) (indexes : index_vector) : Z :=
  Z.of_nat (length (filter (index_missing size) indexes)).

(** Query mode: the loop over [argv[w.woptind ..]]; [retcode] is the count so
    far.  The result is the status returned and the errors written. *)
Fixpoint query_args (st : S) (scope : env_mode_flags_t) (cmd : wcstring)
    (argv : wcstring_list_t) (retcode : Z) : Z * err_stream :=
  match argv with
  | [] => (retcode, [])
  | arg :: rest =>
      match wcschr arg "["%char with
      | Some _ =>
          let dest := cut_at arg "["%char in
          let result := fetch_array st dest scope in
          let pr := parse_index [] arg dest (Z.of_nat (length result)) in
          if pr_count pr =? 0 then (1, pr_err pr ++ [Err_help cmd])
          else
            let '(status, err) :=
              query_args st scope cmd rest
                (retcode + count_missing (Z.of_nat (length result)) (pr_indexes pr)) in
            (status, pr_err pr ++ err)
      | None =>
          query_args st scope cmd rest
            (if env_exist st arg scope then retcode else retcode + 1)
      end
  end.

(** Slice mode: the loop over the words from [argv[w.woptind]] on that
    collects the indexes.  The result is [retcode], the index vector, the
    words left for the values, and the errors written. *)
Fixpoint slice_args (cmd dest : wcstring) (erase : bool) (var_count : Z)
    (indexes : index_vector) (argv : wcstring_list_t)
  : Z * index_vector * wcstring_list_t * err_stream :=
  match argv with
  | [] => (0, indexes, [], [])
  | arg :: rest =>
      let pr := parse_index indexes arg dest var_count in
      if pr_count pr =? 0 then
        (1, pr_indexes pr, argv, pr_err pr ++ [Err_help cmd])
      else
        let idx_count := Z.of_nat (length (pr_indexes pr)) in
        let val_count := Z.of_nat (length rest) in
        if negb erase && (val_count <? idx_count) then
          (1, pr_indexes pr, argv,
           pr_err pr ++ [Err_format BUILTIN_SET_ARG_COUNT [cmd]; Err_help cmd])
        else if negb erase && (val_count =? idx_count) then
          (0, pr_indexes pr, rest, pr_err pr)
        else
          let '(retcode, indexes', values, err) :=
            slice_args cmd dest erase var_count (pr_indexes pr) rest in
          (retcode, indexes', values, pr_err pr ++ err)
  end.

(** The slice branch of builtin_set, from the fetch of the array to the call
    of my_env_set: [retcode], the store and the errors written. *)
Definition set_slice (st : S) (cmd dest : wcstring) (erase : bool)
    (scope : env_mode_flags_t) (argv : wcstring_list_t) : Z * S * err_stream :=
  let dest_str := env_get_string st dest scope in
  let result := fetch_array st dest scope in
  if missing dest_str && erase then (1, st, [])
  else
    let '(retcode, indexes, values, err) :=
      slice_args cmd dest erase (Z.of_nat (length result)) [] argv in
    if negb (retcode =? 0) then (retcode, st, err)
    else if erase then
      let result := erase_values result indexes in
      let '(_, st', err') := my_env_set st dest result scope in
      (retcode, st', err ++ err')
    else
      let '(failed, result) := update_values result indexes values in
      let bounds :=
        if negb (failed =? 0) then
          [Err_format FMT_CMD_PREFIX [cmd]; Err_format ARRAY_BOUNDS_ERR [];
           Err_push_back "010"%char]
        else [] in
      let '(_, st', err') := my_env_set st dest result scope in
      (retcode, st', err ++ bounds ++ err').

(** The branch without slice: [argv] are the words after the name. *)
Definition set_whole (st : S) (cmd dest : wcstring) (erase : bool)
    (scope : env_mode_flags_t) (argv : wcstring_list_t) : Z * S * err_stream :=
  if erase then
    match argv with
    | [] => let '(retcode, st') := env_remove st dest scope in (retcode, st', [])
    | _ => (1, st, [Err_format FMT_VALUES_WITH_ERASE [cmd]; Err_help cmd])
    end
  else my_env_set st dest argv scope.

(** [builtin_set (parser, streams, argv)]: [cmd] is [argv[0]], [opts] what the
    option loop reads, [argv] the words from [argv[w.woptind]] on, and
    [incoming_exit_status] the value of [proc_get_last_status ()]. *)
Definition builtin_set (st : S) (incoming_exit_status : Z) (cmd : wcstring)
    (opts : list set_opt) (argv : wcstring_list_t) : outcome :=
  match parse_options cmd opts initial_flags with
  | inr (status, out, err) => mk_outcome status st out err
  | inl f =>
      if fl_show f then
        let '(status, out, err) := builtin_set_show st cmd argv in
        mk_outcome status st out err
      else if fl_query f && (fl_erase f || fl_list f) then
        mk_outcome STATUS_INVALID_ARGS st []
          [Err_format BUILTIN_ERR_COMBO [cmd]; Err_help cmd]
      else if fl_erase f && fl_list f then
        mk_outcome STATUS_INVALID_ARGS st []
          [Err_format BUILTIN_ERR_COMBO [cmd]; Err_help cmd]
      else if 1 <? Z.b2z (fl_local f) + Z.b2z (fl_global f) + Z.b2z (fl_universal f) then
        mk_outcome STATUS_INVALID_ARGS st []
          [Err_format BUILTIN_ERR_GLOCAL [cmd]; Err_help cmd]
      else if fl_exportv f && fl_unexport f then
        mk_outcome STATUS_INVALID_ARGS st []
          [Err_format BUILTIN_ERR_EXPUNEXP [cmd]; Err_help cmd]
      else
        let scope := scope_of_flags f in
        if fl_query f then
          let '(status, err) := query_args st scope cmd argv STATUS_CMD_OK in
          mk_outcome status st [] err
        else if fl_list f then
          mk_outcome STATUS_CMD_OK st
            (print_variables false false (fl_shorten_ok f) scope st) []
        else
          match argv with
          | [] =>
              if fl_erase f then
                mk_outcome STATUS_INVALID_ARGS st []
                  [Err_format FMT_ERASE_NEEDS_NAME [cmd]; Err_help cmd]
              else
                mk_outcome STATUS_CMD_OK st
                  (print_variables true true (fl_shorten_ok f) scope st) []
          | arg :: rest =>
              let slice := negb (missing (wcschr arg "["%char)) in
              let dest := cut_at arg "["%char in
              if negb (valid_var_name dest) then
                mk_outcome STATUS_INVALID_ARGS st []
                  [Err_format BUILTIN_ERR_VARNAME [cmd; dest]; Err_help cmd]
              else
                let '(retcode, st', err) :=
                  if slice then set_slice st cmd dest (fl_erase f) scope argv
                  else set_whole st cmd dest (fl_erase f) scope rest in
                let global_dest := env_get_string st' dest ENV_GLOBAL in
                let shadow :=
                  if fl_universal f && negb (missing global_dest) && shell_is_interactive
                  then [Err_format FMT_SHADOWED ["set"; dest]] else [] in
                let retcode :=
                  if (retcode =? STATUS_CMD_OK) && fl_preserve_failure_exit_status f
                  then incoming_exit_status else retcode in
                mk_outcome retcode st' [] (err ++ shadow)
          end
  end.

(** ** Notions the specification speaks of *)

(** The rendering of a value: escaped when [esc] is set. *)
Definition rendered (esc : bool) (value : wcstring) : wcstring :=
  if esc then expand_escape_variable value else value.

(** The flags lead builtin_set into query mode: -q, without --show, --erase
    or --names, with at most one scope and not both export flags. *)
Definition reaches_query (f : set_flags) : bool :=
  fl_query f && negb (fl_show f) && negb (fl_erase f || fl_list f)
  && negb (1 <? Z.b2z (fl_local f) + Z.b2z (fl_global f) + Z.b2z (fl_universal f))
  && negb (fl_exportv f && fl_unexport f).

(** The array a sliced target [name[...]] refers to. *)
Definition target_array (st : S) (scope : env_mode_flags_t) (arg : wcstring)
  : wcstring_list_t :=
  fetch_array st (cut_at arg "["%char) scope.

(** The indexes parsed from a sliced target. *)
Definition target_indexes (st : S) (scope : env_mode_flags_t) (arg : wcstring)
  : parse_result :=
  parse_index [] arg (cut_at arg "["%char)
              (Z.of_nat (length (target_array st scope arg))).

(** What a target asks for that does not exist: for a bare name, the
    variable when it is absent; for a sliced name, the parsed indexes below 1
    or above the length of the array. *)
Definition requested_missing (st : S) (scope : env_mode_flags_t) (arg : wcstring)
  : Z :=
  match wcschr arg "["%char with
  | Some _ =>
      Z.of_nat
        (length
           (filter (fun idx => (idx <? 1)
                               || (idx >? Z.of_nat (length (target_array st scope arg))))
                   (pr_indexes (target_indexes st scope arg))))
  | None => if env_exist st arg scope then 0 else 1
  end.

(** The slice of a sliced target parses (parse_index returns a count that is
    not 0). *)
Definition target_parses (st : S) (scope : env_mode_flags_t) (arg : wcstring)
  : Prop :=
  match wcschr arg "["%char with
  | Some _ => pr_count (target_indexes st scope arg) <> 0
  | None => True
  end.


End Builtin.

Arguments outcome S : clear implicits.

(** A name made of letters, digits and underscores. *)
Fixpoint is_name (s : wcstring) : bool :=
  match s with
  | EmptyString => true
  | String c t => (iswalnum c || Ascii.eqb c "_") && is_name t
  end.

(** ** A small world for worked examples *)

Module Example_world.

Definition ARRAY_SEP : wchar_t := "030"%char.

(** Modelled from the spec: the array encoding of common.cpp is not under
    src/.  Section 6 has a tokenizer that converts the stored text of a
    variable to and from an ordered sequence of strings; here the elements
    are joined by ARRAY_SEP and the array without elements is ENV_NULL. *)
Definition example_ENV_NULL : wcstring := String "029"%char EmptyString.

Fixpoint split_at_sep (s : wcstring) (cur : wcstring) : wcstring_list_t :=
  match s with
  | EmptyString => [cur]
  | String c t =>
      if Ascii.eqb c ARRAY_SEP then cur :: split_at_sep t EmptyString
      else split_at_sep t (String.append cur (String c EmptyString))
  end.

Definition example_tokenize (val : wcstring) : wcstring_list_t :=
  if String.eqb val example_ENV_NULL then [] else split_at_sep val EmptyString.

Fixpoint join_with_sep (l : wcstring_list_t) : wcstring :=
  match l with
  | [] => EmptyString
  | [x] => x
  | x :: t => String.append x (String ARRAY_SEP (join_with_sep t))
  end.

Definition example_list_to_array_val (l : wcstring_list_t) : wcstring :=
  match l with
  | [] => example_ENV_NULL
  | _ => join_with_sep l
  end.

(** Modelled from the spec: the variable store of env.cpp is not under
    src/.  Section 6 gives its operations (get, set, remove, listNames,
    exists); this one keeps a single table of names with their stored text,
    takes every write, and does not look at the scope flags. *)
Definition table := list (wcstring * wcstring).

Fixpoint table_get (t : table) (key : wcstring) : env_var_t :=
  match t with
  | [] => None
  | (k, v) :: rest => if String.eqb k key then Some v else table_get rest key
  end.

Fixpoint table_remove (t : table) (key : wcstring) : table :=
  match t with
  | [] => []
  | (k, v) :: rest =>
      if String.eqb k key then table_remove rest key
      else (k, v) :: table_remove rest key
  end.

Definition table_set (t : table) (key : wcstring) (val : option wcstring) : table :=
  (key, match val with Some v => v | None => example_ENV_NULL end)
    :: table_remove t key.

#[export] Instance table_store : VariableStore table := {|
  env_get_string := fun t key _ => table_get t key;
  env_set := fun t key val _ => (ENV_OK, table_set t key val);
  env_remove := fun t key _ =>
    (if missing (table_get t key) then 1 else 0, table_remove t key);
  env_exist := fun t key _ => negb (missing (table_get t key));
  env_get_names := fun t _ => map fst t;
  tokenize_variable_array := example_tokenize;
  list_to_array_val := example_list_to_array_val;
  ENV_NULL := example_ENV_NULL
|}.

Definition ENOENT : Z := 2.

(** Modelled from the spec: the platform calls (wutil.cpp, common.cpp,
    proc.cpp) are not under src/.  A file system whose only directories are
    /bin and /usr/bin, both searchable; a shell that is not interactive;
    names of letters, digits and underscores, not empty (section 3); escaping
    that changes nothing. *)
#[export] Instance example_platform : Platform := {|
  wstat := fun dir =>
    if String.eqb dir "/bin" || String.eqb dir "/usr/bin" then inr true
    else inl ENOENT;
  waccess_X_OK := fun _ => None;
  strerror := fun errno => format_d errno;
  shell_is_interactive := false;
  valid_var_name := fun s => negb (String.eqb s EmptyString) && is_name s;
  escape_string := fun s _ => s;
  expand_escape_variable := fun s => s;
  ellipsis_char := "$"%char
|}.

(** The builtin run in this world. *)
Definition run_set : table -> Z -> wcstring -> list set_opt -> wcstring_list_t
                     -> outcome table :=
  builtin_set.

(** The array a table holds under [name]. *)
Definition array_of (t : table) (name : wcstring) : option wcstring_list_t :=
  option_map example_tokenize (table_get t name).

End Example_world.

(** ** Index expressions as text, and what the specification has them mean *)

Inductive digit : Type := D0 | D1 | D2 | D3 | D4 | D5 | D6 | D7 | D8 | D9.

Definition digit_char (d : digit) : wchar_t :=
  match d with
  | D0 => "0" | D1 => "1" | D2 => "2" | D3 => "3" | D4 => "4"
  | D5 => "5" | D6 => "6" | D7 => "7" | D8 => "8" | D9 => "9"
  end%char.

Definition digit_value (d : digit) : Z :=
  match d with
  | D0 => 0 | D1 => 1 | D2 => 2 | D3 => 3 | D4 => 4
  | D5 => 5 | D6 => 6 | D7 => 7 | D8 => 8 | D9 => 9
  end.

Fixpoint digits_text (ds : list digit) : wcstring :=
  match ds with
  | [] => EmptyString
  | d :: t => String (digit_char d) (digits_text t)
  end.

Fixpoint digits_value (ds : list digit) (acc : Z) : Z :=
  match ds with
  | [] => acc
  | d :: t => digits_value t (acc * 10 + digit_value d)
  end.

(** A signed decimal numeral: an optional minus sign and at least one digit. *)
Record numeral : Type := mk_numeral {
  num_negative : bool;
  num_first : digit;
  num_more : list digit
}.

Definition numeral_text (a : numeral) : wcstring :=
  let ds := digits_text (num_first a :: num_more a) in
  if num_negative a then String "-"%char ds else ds.

Definition numeral_value (a : numeral) : Z :=
  let v := digits_value (num_first a :: num_more a) 0 in
  if num_negative a then - v else v.

(** The numeral is the text of a [long]. *)
Definition is_long (a : numeral) : Prop :=
  LONG_MIN <= numeral_value a <= LONG_MAX.

(** One expression between the brackets: an integer or a range [A..B]. *)
Inductive index_expr : Type :=
| Single (a : numeral)
| Range (a b : numeral).

Definition expr_text (e : index_expr) : wcstring :=
  match e with
  | Single a => numeral_text a
  | Range a b => String.append (numeral_text a) (String.append ".." (numeral_text b))
  end.

Definition expr_is_long (e : index_expr) : Prop :=
  match e with
  | Single a => is_long a
  | Range a b => is_long a /\ is_long b
  end.

(** The expressions separated by one blank. *)
Fixpoint exprs_text (es : list index_expr) : wcstring :=
  match es with
  | [] => EmptyString
  | e :: es' =>
      match es' with
      | [] => expr_text e
      | _ => String.append (expr_text e) (String " "%char (exprs_text es'))
      end
  end.

(** The word [name[e1 e2 ...]]. *)
Definition slice_text (name : wcstring) (es : list index_expr) : wcstring :=
  String.append name (String "["%char (String.append (exprs_text es) "]")).

(** Section 4.1 in its own words: a negative integer stands for
    [length + value + 1]. *)
Definition spec_resolve (length v : Z) : Z :=
  if v <? 0 then length + v + 1 else v.

(** Section 4.1 in its own words: the inclusive sequence from [A] to [B],
    counting down when [B < A]. *)
Definition inclusive_sequence (A B : Z) : list Z :=
  if A <=? B
  then map (fun k => A + Z.of_nat k) (seq 0 (Z.to_nat (B - A + 1)))
  else map (fun k => A - Z.of_nat k) (seq 0 (Z.to_nat (A - B + 1))).

(** The indexes an expression stands for on an array of [length] elements. *)
Definition spec_indexes (length : Z) (e : index_expr) : list Z :=
  match e with
  | Single a => [spec_resolve length (numeral_value a)]
  | Range a b =>
      inclusive_sequence (spec_resolve length (numeral_value a))
                         (spec_resolve length (numeral_value b))
  end.

(** ** The slice engine in the words of the specification *)

(** The elements of [l], whose first element has position [p], at the
    positions that [sel] does not select, in their order. *)
Fixpoint remove_positions (sel : Z -> bool) (p : Z) (l : wcstring_list_t)
  : wcstring_list_t :=
  match l with
  | [] => []
  | x :: t =>
      if sel p then remove_positions sel (p + 1) t
      else x :: remove_positions sel (p + 1) t
  end.

(** [p] occurs in the index list. *)
Definition index_listed (indexes : index_vector) (p : Z) : bool :=
  existsb (Z.eqb p) indexes.

(** The distinct indexes of the list that lie in [1 .. len]. *)
Definition distinct_in_range (len : Z) (indexes : index_vector) : list Z :=
  nodup Z.eq_dec (filter (fun i => (1 <=? i) && (i <=? len)) indexes).

(** The positions [p, p + 1, ...], [k] of them. *)
Fixpoint positions (p : Z) (k : nat) : list Z :=
  match k with
  | O => []
  | Datatypes.S k' => p :: positions (p + 1) k'
  end.

(** The value of the last pair of (index, value) whose index is [p], or
    [found] when there is none. *)
Fixpoint last_assigned (indexes : index_vector) (values : wcstring_list_t)
    (p : Z) (found : option wcstring) : option wcstring :=
  match indexes with
  | [] => found
  | index :: indexes' =>
      last_assigned indexes' (tl values) p
        (if index =? p then Some (hd EmptyString values) else found)
  end.

(** The largest of [base] and the indexes. *)
Definition largest_index (base : Z) (indexes : index_vector) : Z :=
  fold_left Z.max indexes base.

(** The element at the one-based position [p]. *)
Definition element_at (l : wcstring_list_t) (p : Z) : wcstring :=
  nth (Z.to_nat (p - 1)) l EmptyString.

Local Infix "+++" := String.append (right associativity, at level 60).

(** The text does not go on with a digit. *)
Definition no_digit_ahead (s : wcstring) : Prop :=
  match s with
  | String c _ => iswdigit c = false
  | EmptyString => True
  end.

(** Strictly ascending lists. *)
Fixpoint ascending (l : list Z) : Prop :=
  match l with
  | [] => True
  | x :: t => (forall y, In y t -> x < y) /\ ascending t
  end.



Definition sum_list (l : list Z) : Z := fold_right Z.add 0 l.

(** ** The limits of the machine types

    [long], [int] and the size of a vector are carried by [Z], [Z] and the
    length of a list.  The definitions above follow the code as long as no
    value leaves its type: [range_loop] and [expand_range] run the range loop
    on the integers, [parse_index_loop] counts in [Z], [vector_resize] grows
    a list to any length, and the character classes answer for the ASCII
    range.  What the machine does at the limits is laid down here, together
    with the conditions under which the two agree; the properties of
    parse_index on ranges, of its count, of growing an array and of words
    with other characters are stated under these conditions. *)

(** [int], the type of [count] in parse_index, and its wrap-around. *)
Definition INT_MAX : Z := 2 ^ 31 - 1.

Definition wrap_int (x : Z) : Z := (x + 2 ^ 31) mod 2 ^ 32 - 2 ^ 31.

(** [std::vector<wcstring>::max_size ()]: [list.resize (ind + 1)] beyond it
    throws std::length_error, and update_values returns nothing.  With 64-bit
    pointers the limit is PTRDIFF_MAX / sizeof (wcstring); sizeof (wcstring)
    is 32 in libstdc++ and 24 in libc++, and the smaller limit is taken. *)
Definition vector_max_size : Z := (2 ^ 63 - 1) / 32.

(** A [long] result that left the range, brought back by two's complement
    wrap-around (the language leaves signed overflow undefined; this is what
    the hardware does). *)
Definition wrap_long (x : Z) : Z := size_t_to_long x.

(** The loop
    [for (long jjj = l_ind; jjj * direction <= l_ind2 * direction; jjj += direction)]
    on [long]: the two products and the step wrap around.  The loop ends when
    its test fails; [None] stands for a loop that is still running after
    [fuel] rounds. *)
Fixpoint long_range_loop (fuel : nat) (jjj l_ind2 direction : Z)
    (indexes : list Z) : option (list Z) :=
  match fuel with
  | O => None
  | S fuel' =>
      if wrap_long (jjj * direction) <=? wrap_long (l_ind2 * direction)
      then long_range_loop fuel' (wrap_long (jjj + direction)) l_ind2 direction
                           (indexes ++ [jjj])
      else Some indexes
  end.

(** The index loop of parse_index with the arithmetic of the machine: the
    ranges are expanded by [long_range_loop] and [count] is an [int].
    [None] stands for a loop that is still running after [fuel] rounds, or
    whose range loop is after [range_fuel] rounds. *)
Fixpoint long_parse_index_loop (fuel range_fuel : nat) (src : wcstring)
    (var_count : Z) (indexes : list Z) (count : Z) : option parse_result :=
  match fuel with
  | O => None
  | S fuel' =>
      if starts_with "]" src then Some (mk_parse_result count indexes [])
      else
        let '(l_ind, endp, errno) := fish_wcstol src in
        if errno >? 0 then
          Some (mk_parse_result 0 indexes
                  [Err_format FMT_INVALID_INDEX ["set"%string; src]])
        else
          let l_ind := resolve_index var_count l_ind in
          match after_dots endp with
          | Some src2 =>
              let '(l_ind2, endp2, errno2) := fish_wcstol src2 in
              if errno2 >? 0 then Some (mk_parse_result 1 indexes [])
              else
                let l_ind2 := resolve_index var_count l_ind2 in
                let direction := if l_ind2 <? l_ind then -1 else 1 in
                match long_range_loop range_fuel l_ind l_ind2 direction indexes with
                | Some pushed =>
                    long_parse_index_loop fuel' range_fuel (skip_space endp2)
                      var_count pushed
                      (wrap_int (count + Z.of_nat (length pushed - length indexes)))
                | None => None
                end
          | None =>
              long_parse_index_loop fuel' range_fuel (skip_space endp) var_count
                (indexes ++ [l_ind]) (wrap_int (count + 1))
          end
  end.

(** The range loop from [l_ind] to [l_ind2] stays inside [long]: counting up
    it steps to [l_ind2 + 1], counting down to [l_ind2 - 1], which it also
    negates. *)
Definition range_in_long (l_ind l_ind2 : Z) : bool :=
  if l_ind2 <? l_ind then LONG_MIN + 1 <? l_ind2 else l_ind2 <? LONG_MAX.

(** The range of an index expression, with its ends resolved on an array of
    [length] elements, stays inside [long]. *)
Definition expr_in_range (length : Z) (e : index_expr) : Prop :=
  match e with
  | Single _ => True
  | Range a b =>
      range_in_long (spec_resolve length (numeral_value a))
                    (spec_resolve length (numeral_value b)) = true
  end.

(** Every character of the text is in the ASCII range, where iswalnum,
    iswspace and the digits do not depend on the locale. *)
Fixpoint ascii_text (s : wcstring) : bool :=
  match s with
  | EmptyString => true
  | String c t => (ascii_code c <? 128) && ascii_text t
  end.

(** The run of the index loop on [src] stays inside the machine types: every
    range it expands stays inside [long], and [count] inside [int].  The text
    is walked as parse_index_loop walks it. *)
Fixpoint index_loop_in_range (fuel : nat) (src : wcstring) (var_count : Z)
    (count : Z) : bool :=
  match fuel with
  | O => true
  | S fuel' =>
      if starts_with "]" src then true
      else
        let '(l_ind, endp, errno) := fish_wcstol src in
        if errno >? 0 then true
        else
          let l_ind := resolve_index var_count l_ind in
          match after_dots endp with
          | Some src2 =>
              let '(l_ind2, endp2, errno2) := fish_wcstol src2 in
              if errno2 >? 0 then true
              else
                let l_ind2 := resolve_index var_count l_ind2 in
                range_in_long l_ind l_ind2
                && (count + range_count l_ind l_ind2 <=? INT_MAX)
                && index_loop_in_range fuel' (skip_space endp2) var_count
                     (count + range_count l_ind l_ind2)
          | None =>
              (count + 1 <=? INT_MAX)
              && index_loop_in_range fuel' (skip_space endp) var_count (count + 1)
          end
  end.

(** The run of parse_index on the word [src], from behind its opening
    bracket, stays inside the machine types. *)
Definition slice_in_range (src : wcstring) (var_count : Z) : bool :=
  let body := skip_space (next_char (skip_name src)) in
  index_loop_in_range (S (String.length body)) body var_count 0.


Section Query_targets.

Context {S : Type} {store_ops : VariableStore S}.

(** The run of parse_index on a sliced target of query mode stays inside the
    machine types (a bare name is not parsed). *)
Definition target_in_range (st : S) (scope : env_mode_flags_t) (arg : wcstring)
  : bool :=
  match wcschr arg "["%char with
  | Some _ => slice_in_range arg (Z.of_nat (length (target_array st scope arg)))
  | None => true
  end.

End Query_targets.

(** ** Path entries in the words of the specification *)

Section Path_entries.

Context {S : Type} {store_ops : VariableStore S} {platform : Platform}.



End Path_entries.


(** ** Options by their letter *)

(** The letter of an option that sets a flag; none for -h and for the two
    error returns of wgetopt_long, which end the option loop. *)
Definition flag_letter (o : set_opt) : option wchar_t :=
  match o with
  | Opt_e => Some "e"%char
  | Opt_n => Some "n"%char
  | Opt_x => Some "x"%char
  | Opt_l => Some "l"%char
  | Opt_g => Some "g"%char
  | Opt_u => Some "u"%char
  | Opt_U => Some "U"%char
  | Opt_L => Some "L"%char
  | Opt_q => Some "q"%char
  | Opt_S => Some "S"%char
  | Opt_h | Opt_missing_argument _ | Opt_unknown _ => None
  end.

Definition is_flag (o : set_opt) : bool :=
  match flag_letter o with Some _ => true | None => false end.

(** The option with letter [c] is among [opts]. *)
Definition given (c : wchar_t) (opts : list set_opt) : bool :=
  existsb (fun o => match flag_letter o with
                    | Some d => Ascii.eqb c d
                    | None => false
                    end) opts.

Arguments given c%_char opts.

(** The flags [f] with every flag that [opts] names switched. *)
Definition flags_after (f : set_flags) (opts : list set_opt) : set_flags :=
  mk_flags (fl_local f || given "l" opts) (fl_global f || given "g" opts)
           (fl_exportv f || given "x" opts) (fl_erase f || given "e" opts)
           (fl_list f || given "n" opts) (fl_unexport f || given "u" opts)
           (fl_universal f || given "U" opts) (fl_query f || given "q" opts)
           (fl_show f || given "S" opts)
           (fl_shorten_ok f && negb (given "L" opts))
           (fl_preserve_failure_exit_status f
            && negb (given "e" opts || given "n" opts || given "q" opts
                     || given "S" opts)).

(** The flags that builtin_set refuses together. *)
Definition conflicting (opts : list set_opt) : bool :=
  (given "q" opts && (given "e" opts || given "n" opts))
  || (given "e" opts && given "n" opts)
  || (1 <? Z.b2z (given "l" opts) + Z.b2z (given "g" opts) + Z.b2z (given "U" opts))
  || (given "x" opts && given "u" opts).

(** ** The lines of show_scope *)

Section Show_lines.

Context {platform : Platform}.

(** The line of the element at position [i] (from 0). *)
Definition element_line (var_name : wcstring) (i : Z) (value : wcstring)
  : out_item :=
  Out_append
    (concat_text
       ["$"; var_name; "["; format_d (i + 1); "]: length=";
        format_d (Z.of_nat (String.length value)); " value=|";
        escape_string value true; "|"; newline]).

(** The lines of consecutive elements, the first at position [i]. *)
Fixpoint element_lines (var_name : wcstring) (i : Z) (values : wcstring_list_t)
  : out_stream :=
  match values with
  | [] => []
  | value :: rest => element_line var_name i value :: element_lines var_name (i + 1) rest
  end.

End Show_lines.

(** The line that stands for the elements left out. *)
Definition elision_line : out_item := Out_append (String.append "..." newline).

(** The stream holds the warning about a universal variable that a global
    one shadows. *)
Definition warns_shadowed (err : err_stream) : bool :=
  existsb (fun e => match e with
                    | Err_format FMT_SHADOWED _ => true
                    | _ => false
                    end) err.

(** Modelled from the spec: a second platform for comparisons, with a file
    system that has no directory at all and an interactive shell; the name
    check and the escaping are those of the example platform. *)
Definition bare_platform : Platform := {|
  wstat := fun _ => inl Example_world.ENOENT;
  waccess_X_OK := fun _ => Some Example_world.ENOENT;
  strerror := fun errno => format_d errno;
  shell_is_interactive := true;
  valid_var_name := fun s => negb (String.eqb s EmptyString) && is_name s;
  escape_string := fun s _ => s;
  expand_escape_variable := fun s => s;
  ellipsis_char := "$"%char
|}.

(** The fields of the flags after the option loop. *)
Ltac flags_simpl :=
  unfold flags_after, initial_flags;
  cbn [fl_local fl_global fl_exportv fl_erase fl_list fl_unexport fl_universal
       fl_query fl_show fl_shorten_ok fl_preserve_failure_exit_status];
  rewrite ?orb_false_l, ?andb_true_l.

(** Discharge the first hypothesis of [H] with [tac]. *)
Ltac feed H tac :=
  match type of H with
  | ?A -> _ =>
      let Ha := fresh "Ha" in
      assert (Ha : A) by tac; specialize (H Ha); clear Ha
  end.

Ltac long_bounds :=
  repeat match goal with
         | |- Forall _ _ => constructor
         | |- expr_is_long _ => cbn [expr_is_long]
         | |- _ /\ _ => split
         | |- is_long _ => unfold is_long
         end;
  try (vm_compute; discriminate).

(** Numerals, texts and flags of the worked examples. *)
Definition minus_one : numeral := mk_numeral true D1 [].
Definition minus_five : numeral := mk_numeral true D5 [].

Definition numeral_1 : numeral := mk_numeral false D1 [].
Definition numeral_2 : numeral := mk_numeral false D2 [].
Definition numeral_3 : numeral := mk_numeral false D3 [].

Definition seventy_chars : wcstring :=
  "0123456789012345678901234567890123456789012345678901234567890123456789".

Definition query_flags : set_flags :=
  mk_flags false false false false false false false true false true false.

(** * Properties *)

Import Example_world.

(** ** Worked examples *)

Example parse_index_single :
  parse_index [] "foo[1 2 -1]" "foo" 5 = mk_parse_result 3 [1; 2; 5] [].
Proof. vm_compute. reflexivity. Qed.

Example parse_index_ranges :
  parse_index [] "foo[1..3 3..1 -1..-5]" "foo" 5
  = mk_parse_result 11 [1; 2; 3; 3; 2; 1; 5; 4; 3; 2; 1] [].
Proof. vm_compute. reflexivity. Qed.

Example parse_index_garbage :
  parse_index [] "foo[1x]" "foo" 5
  = mk_parse_result 0 [1] [Err_format FMT_INVALID_INDEX ["set"; "x]"]%string].
Proof. vm_compute. reflexivity. Qed.

Example parse_index_other_name :
  parse_index [] "foo[1]" "bar" 5
  = mk_parse_result 0 [] [Err_format FMT_MULTIPLE_NAMES ["set"; "bar"; "foo"]%string].
Proof. vm_compute. reflexivity. Qed.

Example parse_index_open_range :
  parse_index [] "foo[1 2 3..x]" "foo" 5 = mk_parse_result 1 [1; 2] [].
Proof. vm_compute. reflexivity. Qed.

Example set_slice_roundtrip :
  let o := Example_world.run_set [] 0 "set" [] ["foo[2]"; "x"] in
  oc_status o = 0 /\ oc_err o = []
  /\ Example_world.array_of (oc_store o) "foo" = Some [EmptyString; "x"].
Proof. vm_compute. repeat split; reflexivity. Qed.

(** ** The range loop *)

Lemma seq_map_succ (f : nat -> Z) (n : nat) :
  map f (seq 1 n) = map (fun k => f (S k)) (seq 0 n).
Proof. rewrite <- seq_shift, map_map. reflexivity. Qed.

(** The upward loop stops by its own test after [B - jjj + 1] rounds: fuel
    beyond that is not used. *)
Lemma range_loop_up (B : Z) (fuel : nat) :
  forall (extra : nat) (jjj : Z) (indexes : list Z),
    Z.of_nat fuel = B - jjj + 1 ->
    range_loop (fuel + extra) jjj B 1 indexes
    = indexes ++ map (fun k => jjj + Z.of_nat k) (seq 0 fuel).
Proof.
  induction fuel as [|fuel IH]; intros extra jjj indexes Hf.
  - cbn [Nat.add seq map]. rewrite app_nil_r.
    destruct extra as [|extra]; [reflexivity|]. cbn [range_loop].
    now replace (jjj * 1 <=? B * 1) with false by (symmetry; apply Z.leb_gt; lia).
  - cbn [range_loop Nat.add].
    replace (jjj * 1 <=? B * 1) with true by (symmetry; apply Z.leb_le; lia).
    rewrite IH by lia.
    rewrite <- app_assoc. f_equal.
    cbn [seq map app]. rewrite seq_map_succ.
    f_equal; [f_equal; lia|].
    apply map_ext. intros k. lia.
Qed.

Lemma range_loop_down (B : Z) (fuel : nat) :
  forall (extra : nat) (jjj : Z) (indexes : list Z),
    Z.of_nat fuel = jjj - B + 1 ->
    range_loop (fuel + extra) jjj B (-1) indexes
    = indexes ++ map (fun k => jjj - Z.of_nat k) (seq 0 fuel).
Proof.
  induction fuel as [|fuel IH]; intros extra jjj indexes Hf.
  - cbn [Nat.add seq map]. rewrite app_nil_r.
    destruct extra as [|extra]; [reflexivity|]. cbn [range_loop].
    now replace (jjj * -1 <=? B * -1) with false by (symmetry; apply Z.leb_gt; lia).
  - cbn [range_loop Nat.add].
    replace (jjj * -1 <=? B * -1) with true by (symmetry; apply Z.leb_le; lia).
    rewrite IH by lia.
    rewrite <- app_assoc. f_equal.
    cbn [seq map app]. rewrite seq_map_succ.
    f_equal; [f_equal; lia|].
    apply map_ext. intros k. lia.
Qed.

(** The range loop with any fuel from [range_count] up pushes the inclusive
    sequence. *)
Lemma range_loop_sequence (A B : Z) (extra : nat) (indexes : list Z) :
  range_loop (Z.to_nat (range_count A B) + extra) A B
             (if B <? A then -1 else 1) indexes
  = indexes ++ inclusive_sequence A B.
Proof.
  unfold inclusive_sequence, range_count.
  destruct (Z.ltb_spec B A) as [Hlt|Hge].
  - replace (A <=? B) with false by (symmetry; apply Z.leb_gt; lia).
    replace (Z.abs (B - A) + 1) with (A - B + 1) by lia.
    apply range_loop_down. lia.
  - replace (A <=? B) with true by (symmetry; apply Z.leb_le; lia).
    replace (Z.abs (B - A) + 1) with (B - A + 1) by lia.
    apply range_loop_up. lia.
Qed.

Lemma expand_range_sequence (A B : Z) (indexes : list Z) :
  expand_range A B indexes = indexes ++ inclusive_sequence A B.
Proof.
  unfold expand_range.
  rewrite <- (Nat.add_0_r (Z.to_nat (range_count A B))).
  apply range_loop_sequence.
Qed.

Lemma inclusive_sequence_length (A B : Z) :
  Z.of_nat (length (inclusive_sequence A B)) = range_count A B.
Proof.
  unfold inclusive_sequence, range_count.
  destruct (Z.leb_spec A B); rewrite length_map, length_seq; lia.
Qed.

(** ** The range loop on long *)

Lemma wrap_long_id (x : Z) : LONG_MIN <= x <= LONG_MAX -> wrap_long x = x.
Proof.
  unfold wrap_long, size_t_to_long, LONG_MAX, LONG_MIN, SIZE_MODULUS. intros Hx.
  destruct (Z.lt_ge_cases x 0) as [Hneg|Hpos].
  - assert (E : x mod 2 ^ 64 = x + 2 ^ 64)
      by (symmetry; apply Z.mod_unique with (q := -1); lia).
    rewrite E. destruct (Z.leb_spec (x + 2 ^ 64) (2 ^ 63 - 1)); lia.
  - rewrite Z.mod_small by lia.
    destruct (Z.leb_spec x (2 ^ 63 - 1)); lia.
Qed.

Lemma wrap_long_range (x : Z) : LONG_MIN <= wrap_long x <= LONG_MAX.
Proof.
  unfold wrap_long, size_t_to_long, LONG_MAX, LONG_MIN, SIZE_MODULUS.
  pose proof (Z.mod_pos_bound x (2 ^ 64) ltac:(lia)) as Hm.
  destruct (Z.leb_spec (x mod 2 ^ 64) (2 ^ 63 - 1)); lia.
Qed.

Lemma long_range_loop_up (B : Z) (fuel : nat) :
  forall (extra : nat) (jjj : Z) (indexes : list Z),
    Z.of_nat fuel = B - jjj + 1 -> LONG_MIN <= jjj -> LONG_MIN <= B < LONG_MAX ->
    long_range_loop (S fuel + extra) jjj B 1 indexes
    = Some (indexes ++ map (fun k => jjj + Z.of_nat k) (seq 0 fuel)).
Proof.
  induction fuel as [|fuel IH]; intros extra jjj indexes Hf Hj HB.
  - cbn [Nat.add seq map long_range_loop]. rewrite app_nil_r.
    rewrite !Z.mul_1_r, !wrap_long_id by (unfold LONG_MIN, LONG_MAX in *; lia).
    now replace (jjj <=? B) with false by (symmetry; apply Z.leb_gt; lia).
  - change (S (S fuel) + extra)%nat with (S (S fuel + extra)).
    cbn [long_range_loop].
    rewrite !Z.mul_1_r, !wrap_long_id by (unfold LONG_MIN, LONG_MAX in *; lia).
    replace (jjj <=? B) with true by (symmetry; apply Z.leb_le; lia).
    rewrite IH by (unfold LONG_MIN, LONG_MAX in *; lia).
    rewrite <- app_assoc. do 2 f_equal.
    cbn [seq map app]. rewrite seq_map_succ.
    f_equal; [lia|].
    apply map_ext. intros k. lia.
Qed.

Lemma long_range_loop_down (B : Z) (fuel : nat) :
  forall (extra : nat) (jjj : Z) (indexes : list Z),
    Z.of_nat fuel = jjj - B + 1 -> jjj <= LONG_MAX -> LONG_MIN + 1 < B <= LONG_MAX ->
    long_range_loop (S fuel + extra) jjj B (-1) indexes
    = Some (indexes ++ map (fun k => jjj - Z.of_nat k) (seq 0 fuel)).
Proof.
  induction fuel as [|fuel IH]; intros extra jjj indexes Hf Hj HB.
  - cbn [Nat.add seq map long_range_loop]. rewrite app_nil_r.
    rewrite !wrap_long_id by (unfold LONG_MIN, LONG_MAX in *; lia).
    now replace (jjj * -1 <=? B * -1) with false by (symmetry; apply Z.leb_gt; lia).
  - change (S (S fuel) + extra)%nat with (S (S fuel + extra)).
    cbn [long_range_loop].
    rewrite !wrap_long_id by (unfold LONG_MIN, LONG_MAX in *; lia).
    replace (jjj * -1 <=? B * -1) with true by (symmetry; apply Z.leb_le; lia).
    rewrite IH by (unfold LONG_MIN, LONG_MAX in *; lia).
    rewrite <- app_assoc. do 2 f_equal.
    cbn [seq map app]. rewrite seq_map_succ.
    f_equal; [lia|].
    apply map_ext. intros k. lia.
Qed.

(** Inside [long] the loop of the machine ends, with the vector that
    [expand_range] gives. *)
Lemma long_range_loop_agrees (A B : Z) (extra : nat) (indexes : list Z) :
  LONG_MIN <= A <= LONG_MAX -> LONG_MIN <= B <= LONG_MAX ->
  range_in_long A B = true ->
  long_range_loop (S (Z.to_nat (range_count A B)) + extra) A B
                  (if B <? A then -1 else 1) indexes
  = Some (expand_range A B indexes).
Proof.
  intros HA HB Hin. rewrite expand_range_sequence.
  unfold range_in_long in Hin. unfold inclusive_sequence, range_count.
  destruct (Z.ltb_spec B A) as [Hlt|Hge].
  - apply Z.ltb_lt in Hin.
    replace (A <=? B) with false by (symmetry; apply Z.leb_gt; lia).
    replace (Z.abs (B - A) + 1) with (A - B + 1) by lia.
    apply long_range_loop_down; unfold LONG_MIN, LONG_MAX in *; lia.
  - apply Z.ltb_lt in Hin.
    replace (A <=? B) with true by (symmetry; apply Z.leb_le; lia).
    replace (Z.abs (B - A) + 1) with (B - A + 1) by lia.
    apply long_range_loop_up; unfold LONG_MIN, LONG_MAX in *; lia.
Qed.

(** Counting up to LONG_MAX the test of the loop never fails. *)
Lemma long_range_loop_to_LONG_MAX (fuel : nat) :
  forall (jjj : Z) (indexes : list Z),
    LONG_MIN <= jjj <= LONG_MAX ->
    long_range_loop fuel jjj LONG_MAX 1 indexes = None.
Proof.
  induction fuel as [|fuel IH]; intros jjj indexes Hj; [reflexivity|].
  cbn [long_range_loop].
  rewrite !Z.mul_1_r, (wrap_long_id jjj), (wrap_long_id LONG_MAX)
    by (unfold LONG_MIN, LONG_MAX in *; lia).
  replace (jjj <=? LONG_MAX) with true by (symmetry; apply Z.leb_le; lia).
  apply IH. apply wrap_long_range.
Qed.

(** ** Number scanning *)

Lemma skip_space_length (s : wcstring) :
  (String.length (skip_space s) <= String.length s)%nat.
Proof.
  induction s as [|c t IH]; simpl; [lia|].
  destruct (iswspace c); simpl; lia.
Qed.

Lemma skip_space_idem (s : wcstring) : skip_space (skip_space s) = skip_space s.
Proof.
  induction s as [|c t IH]; simpl; [reflexivity|].
  destruct (iswspace c) eqn:E; [exact IH|].
  simpl. now rewrite E.
Qed.

Lemma skip_space_stays (c : wchar_t) (t : wcstring) :
  iswspace c = false -> skip_space (String c t) = String c t.
Proof. intros E. simpl. now rewrite E. Qed.

Lemma scan_digits_length (s : wcstring) :
  forall acc n v m rest,
    scan_digits s acc n = (v, m, rest) ->
    (String.length rest + m = String.length s + n)%nat.
Proof.
  induction s as [|c t IH]; intros acc n v m rest E; simpl in E.
  - inversion E; subst. reflexivity.
  - destruct (iswdigit c).
    + apply IH in E. simpl. lia.
    + inversion E; subst. reflexivity.
Qed.

Lemma read_sign_length (s : wcstring) :
  (String.length (snd (read_sign s)) <= String.length s)%nat.
Proof.
  destruct s as [|c t]; simpl; [lia|].
  destruct (Ascii.eqb c "-"); [simpl; lia|].
  destruct (Ascii.eqb c "+"); simpl; lia.
Qed.

(** A conversion that succeeds consumes at least one character. *)
Lemma wcstol_progress (s : wcstring) (v : Z) (e : wcstring) (errno : Z) :
  wcstol s = (v, e, errno) ->
  (e = s /\ errno = 0) \/ errno = ERANGE
  \/ (errno = 0 /\ (String.length e < String.length s)%nat).
Proof.
  unfold wcstol. intros E.
  pose proof (read_sign_length (skip_space s)) as Hs.
  pose proof (skip_space_length s) as Hk.
  destruct (read_sign (skip_space s)) as [neg s1]. simpl in Hs.
  destruct (scan_digits s1 0 0) as [[mag nd] rest] eqn:Ed.
  apply scan_digits_length in Ed.
  destruct nd as [|nd].
  - inversion E; subst. now left.
  - right.
    destruct (_ >? LONG_MAX); [inversion E; now left|].
    destruct (_ <? LONG_MIN); [inversion E; now left|].
    inversion E; subst. right. split; [reflexivity|lia].
Qed.

Lemma fish_wcstol_progress (src : wcstring) (v : Z) (e : wcstring) (errno : Z) :
  fish_wcstol src = (v, e, errno) -> errno <= 0 ->
  (String.length e < String.length src)%nat.
Proof.
  unfold fish_wcstol. intros E Hle.
  pose proof (skip_space_length src) as Hk.
  destruct (skip_space src) as [|c t] eqn:Es.
  - inversion E; subst. unfold EINVAL in Hle. lia.
  - rewrite <- Es in *.
    destruct (wcstol (skip_space src)) as [[r e0] en] eqn:Ew.
    pose proof (skip_space_length e0) as Hk0.
    apply wcstol_progress in Ew.
    inversion E; subst; clear E.
    destruct Ew as [[-> ->]|[->|[-> Hlt]]].
    + rewrite skip_space_idem in *. rewrite Es in Hle. simpl in Hle.
      rewrite Nat.eqb_refl in Hle. unfold EINVAL in Hle. lia.
    + simpl in Hle. unfold ERANGE in Hle. lia.
    + lia.
Qed.

Lemma after_dots_length (s src2 : wcstring) :
  after_dots s = Some src2 -> (String.length src2 < String.length s)%nat.
Proof.
  destruct s as [|a [|b t]]; simpl; try discriminate.
  destruct (_ && _); [|discriminate].
  intros E; inversion E; subst. simpl. lia.
Qed.

(** The index loop returns: fuel above the length of the text is enough. *)
Lemma parse_index_loop_fuel (fuel : nat) :
  forall (src : wcstring) (var_count : Z) (indexes : list Z) (count : Z),
    (String.length src < fuel)%nat ->
    exists r, parse_index_loop fuel src var_count indexes count = Some r.
Proof.
  induction fuel as [|fuel IH]; intros src var_count indexes count Hlen; [lia|].
  cbn [parse_index_loop].
  destruct (starts_with "]" src); [eauto|].
  destruct (fish_wcstol src) as [[l_ind endp] errno] eqn:E1.
  destruct (Z.gtb_spec errno 0) as [Hpos|Hle]; [eauto|].
  apply fish_wcstol_progress in E1; [|lia].
  pose proof (skip_space_length endp) as Hk.
  destruct (after_dots endp) as [src2|] eqn:Ed.
  - apply after_dots_length in Ed.
    destruct (fish_wcstol src2) as [[l_ind2 endp2] errno2] eqn:E2.
    destruct (Z.gtb_spec errno2 0) as [Hpos2|Hle2]; [eauto|].
    apply fish_wcstol_progress in E2; [|lia].
    pose proof (skip_space_length endp2) as Hk2.
    apply IH. lia.
  - apply IH. lia.
Qed.

(** More fuel does not change what the index loop returns. *)
Lemma parse_index_loop_more_fuel (fuel : nat) :
  forall (src : wcstring) (var_count : Z) (indexes : list Z) (count : Z) r extra,
    parse_index_loop fuel src var_count indexes count = Some r ->
    parse_index_loop (fuel + extra) src var_count indexes count = Some r.
Proof.
  induction fuel as [|fuel IH]; intros src var_count indexes count r extra E;
    [discriminate|].
  cbn [parse_index_loop Nat.add] in *.
  destruct (starts_with "]" src); [exact E|].
  destruct (fish_wcstol src) as [[l_ind endp] errno].
  destruct (errno >? 0); [exact E|].
  destruct (after_dots endp) as [src2|].
  - destruct (fish_wcstol src2) as [[l_ind2 endp2] errno2].
    destruct (errno2 >? 0); [exact E|].
    now apply IH.
  - now apply IH.
Qed.

(** What the loop returns with some fuel is what parse_index gets from it. *)
Lemma parse_index_loop_any_fuel (fuel : nat) (src : wcstring) (var_count : Z)
    (indexes : list Z) (count : Z) (r : parse_result) :
  parse_index_loop fuel src var_count indexes count = Some r ->
  parse_index_loop (S (String.length src)) src var_count indexes count = Some r.
Proof.
  intros E.
  destruct (parse_index_loop_fuel (S (String.length src)) src var_count indexes count)
    as [r' E']; [lia|].
  rewrite E'. f_equal.
  apply parse_index_loop_more_fuel with (extra := S (String.length src)) in E.
  apply parse_index_loop_more_fuel with (extra := fuel) in E'.
  rewrite Nat.add_comm, E in E'. now inversion E'.
Qed.

(** ** The index loop on the machine *)

Lemma wcstol_long (s : wcstring) :
  LONG_MIN <= fst (fst (wcstol s)) <= LONG_MAX.
Proof.
  unfold wcstol.
  destruct (read_sign (skip_space s)) as [neg s1].
  destruct (scan_digits s1 0 0) as [[mag nd] rest].
  destruct nd as [|nd]; [cbn; unfold LONG_MIN, LONG_MAX; lia|].
  cbv zeta.
  destruct (Z.gtb_spec (if neg then - mag else mag) LONG_MAX);
    [cbn; unfold LONG_MIN, LONG_MAX; lia|].
  destruct (Z.ltb_spec (if neg then - mag else mag) LONG_MIN);
    [cbn; unfold LONG_MIN, LONG_MAX; lia|].
  cbn [fst]. lia.
Qed.

Lemma fish_wcstol_long (s : wcstring) :
  LONG_MIN <= fst (fst (fish_wcstol s)) <= LONG_MAX.
Proof.
  unfold fish_wcstol.
  destruct (skip_space s) as [|c t] eqn:Es;
    [cbn; unfold LONG_MIN, LONG_MAX; lia|].
  pose proof (wcstol_long (String c t)) as Hw.
  destruct (wcstol (String c t)) as [[result endptr] errno].
  exact Hw.
Qed.

Lemma resolve_index_long (var_count l_ind : Z) :
  LONG_MIN <= l_ind <= LONG_MAX ->
  LONG_MIN <= resolve_index var_count l_ind <= LONG_MAX.
Proof.
  intros Hl. unfold resolve_index.
  destruct (l_ind <? 0); [apply wrap_long_range|exact Hl].
Qed.

Lemma wrap_int_id (x : Z) : 0 <= x <= INT_MAX -> wrap_int x = x.
Proof.
  unfold wrap_int, INT_MAX. intros Hx. rewrite Z.mod_small; lia.
Qed.

(** On a text whose run stays inside the machine types, the index loop of
    the machine returns what the loop on the integers returns. *)
Lemma long_parse_index_loop_agrees (range_fuel : nat) (var_count : Z) (fuel : nat) :
  INT_MAX < Z.of_nat range_fuel ->
  forall src indexes count r,
    0 <= count ->
    index_loop_in_range fuel src var_count count = true ->
    parse_index_loop fuel src var_count indexes count = Some r ->
    long_parse_index_loop fuel range_fuel src var_count indexes count = Some r.
Proof.
  intros Hrf.
  induction fuel as [|fuel IH]; intros src indexes count r Hc Hin E;
    [discriminate|].
  cbn [parse_index_loop index_loop_in_range long_parse_index_loop] in *.
  destruct (starts_with "]" src); [exact E|].
  pose proof (fish_wcstol_long src) as Hl1.
  destruct (fish_wcstol src) as [[l_ind endp] errno]. cbn [fst] in Hl1.
  destruct (errno >? 0); [exact E|].
  pose proof (resolve_index_long var_count l_ind Hl1) as HA.
  destruct (after_dots endp) as [src2|].
  - pose proof (fish_wcstol_long src2) as Hl2.
    destruct (fish_wcstol src2) as [[l_ind2 endp2] errno2]. cbn [fst] in Hl2.
    destruct (errno2 >? 0); [exact E|].
    pose proof (resolve_index_long var_count l_ind2 Hl2) as HB.
    cbv zeta in *.
    set (A := resolve_index var_count l_ind) in *.
    set (B := resolve_index var_count l_ind2) in *.
    apply andb_prop in Hin as [Hin Hrest].
    apply andb_prop in Hin as [Hrange Hcount]. apply Z.leb_le in Hcount.
    assert (Hrc : 1 <= range_count A B) by (unfold range_count; lia).
    assert (Hloop : long_range_loop range_fuel A B (if B <? A then -1 else 1)
                                    indexes
                    = Some (expand_range A B indexes)).
    { replace range_fuel
        with (S (Z.to_nat (range_count A B))
              + (range_fuel - S (Z.to_nat (range_count A B))))%nat
        by (unfold INT_MAX in *; lia).
      now apply long_range_loop_agrees. }
    rewrite Hloop.
    rewrite expand_range_sequence, length_app.
    replace (length indexes + length (inclusive_sequence A B) - length indexes)%nat
      with (length (inclusive_sequence A B)) by lia.
    rewrite inclusive_sequence_length, wrap_int_id by lia.
    rewrite <- expand_range_sequence.
    apply IH; [lia|exact Hrest|exact E].
  - apply andb_prop in Hin as [Hcount Hrest]. apply Z.leb_le in Hcount.
    rewrite wrap_int_id by lia.
    apply IH; [lia|exact Hrest|exact E].
Qed.

(** ** Numerals under the scanner *)

Lemma append_assoc (a b c : wcstring) : (a +++ b) +++ c = a +++ (b +++ c).
Proof. induction a as [|x a IH]; simpl; [reflexivity|now rewrite IH]. Qed.

Lemma append_length (a b : wcstring) :
  String.length (a +++ b) = (String.length a + String.length b)%nat.
Proof. induction a as [|x a IH]; simpl; [reflexivity|now rewrite IH]. Qed.

Lemma digit_char_is_digit (d : digit) : iswdigit (digit_char d) = true.
Proof. destruct d; reflexivity. Qed.

Lemma digit_char_value (d : digit) : ascii_code (digit_char d) - 48 = digit_value d.
Proof. destruct d; reflexivity. Qed.

Lemma digit_char_no_space (d : digit) : iswspace (digit_char d) = false.
Proof. destruct d; reflexivity. Qed.

Lemma digit_char_no_sign (d : digit) :
  Ascii.eqb (digit_char d) "-" = false /\ Ascii.eqb (digit_char d) "+" = false.
Proof. destruct d; split; reflexivity. Qed.

Lemma digit_char_no_bracket (d : digit) :
  Ascii.eqb (digit_char d) "]" = false /\ Ascii.eqb (digit_char d) "." = false.
Proof. destruct d; split; reflexivity. Qed.

Lemma scan_digits_text (ds : list digit) (rest : wcstring) :
  no_digit_ahead rest ->
  forall acc n,
    scan_digits (digits_text ds +++ rest) acc n
    = (digits_value ds acc, (n + length ds)%nat, rest).
Proof.
  intros Hrest. induction ds as [|d ds IH]; intros acc n.
  - simpl. rewrite Nat.add_0_r.
    destruct rest as [|c t]; simpl; [reflexivity|].
    simpl in Hrest. now rewrite Hrest.
  - simpl. rewrite digit_char_is_digit, digit_char_value, IH.
    f_equal. f_equal. lia.
Qed.

(** The first character of a numeral: a minus sign or a digit. *)
Lemma numeral_text_head (a : numeral) :
  exists c t, numeral_text a = String c t
              /\ iswspace c = false /\ Ascii.eqb c "]" = false
              /\ Ascii.eqb c "." = false.
Proof.
  unfold numeral_text. destruct (num_negative a); simpl.
  - eexists _, _. split; [reflexivity|]. repeat split; reflexivity.
  - eexists _, _. split; [reflexivity|].
    pose proof (digit_char_no_bracket (num_first a)) as [? ?].
    repeat split; auto using digit_char_no_space.
Qed.

Lemma wcstol_numeral (a : numeral) (rest : wcstring) :
  is_long a -> no_digit_ahead rest ->
  wcstol (numeral_text a +++ rest) = (numeral_value a, rest, 0).
Proof.
  intros [Hlo Hhi] Hrest. unfold wcstol.
  destruct (numeral_text_head a) as (c & t & Et & Hsp & _).
  rewrite Et. cbn [String.append]. rewrite skip_space_stays by exact Hsp.
  change (String c (t +++ rest)) with (String c t +++ rest). rewrite <- Et.
  unfold numeral_text, numeral_value in *.
  destruct (num_negative a).
  - cbn [String.append read_sign]. 
    change (Ascii.eqb "-" "-") with true. cbv iota.
    change (String (digit_char (num_first a)) (digits_text (num_more a) +++ rest))
      with (digits_text (num_first a :: num_more a) +++ rest).
    rewrite scan_digits_text by exact Hrest.
    cbn [Nat.add length].
    replace (_ >? LONG_MAX) with false by (symmetry; rewrite Z.gtb_ltb; apply Z.ltb_ge; lia).
    replace (_ <? LONG_MIN) with false by (symmetry; apply Z.ltb_ge; lia).
    reflexivity.
  - cbn [String.append digits_text read_sign].
    destruct (digit_char_no_sign (num_first a)) as [-> ->].
    change (String (digit_char (num_first a)) (digits_text (num_more a) +++ rest))
      with (digits_text (num_first a :: num_more a) +++ rest).
    rewrite scan_digits_text by exact Hrest.
    cbn [Nat.add length].
    replace (_ >? LONG_MAX) with false by (symmetry; rewrite Z.gtb_ltb; apply Z.ltb_ge; lia).
    replace (_ <? LONG_MIN) with false by (symmetry; apply Z.ltb_ge; lia).
    reflexivity.
Qed.

Lemma numeral_text_length (a : numeral) : (0 < String.length (numeral_text a))%nat.
Proof.
  destruct (numeral_text_head a) as (c & t & -> & _). simpl. lia.
Qed.

(** fish_wcstol on a numeral followed by [rest]: the value, the text after
    the white space behind it, and an errno that is not positive. *)
Lemma fish_wcstol_numeral (a : numeral) (rest : wcstring) :
  is_long a -> no_digit_ahead rest ->
  exists errno,
    fish_wcstol (numeral_text a +++ rest) = (numeral_value a, skip_space rest, errno)
    /\ (errno >? 0) = false.
Proof.
  intros Hlong Hrest. unfold fish_wcstol.
  pose proof (numeral_text_length a) as Hlen.
  destruct (numeral_text_head a) as (c & t & Et & Hsp & _).
  assert (Esk : skip_space (numeral_text a +++ rest) = numeral_text a +++ rest).
  { rewrite Et. cbn [String.append]. now apply skip_space_stays. }
  rewrite Esk.
  destruct (numeral_text a +++ rest) as [|c' t'] eqn:Es.
  { rewrite Et in Es. discriminate. }
  rewrite <- Es. rewrite wcstol_numeral by assumption.
  eexists. split; [reflexivity|].
  pose proof (skip_space_length rest) as Hk.
  change (0 =? 0) with true. cbn [andb].
  destruct (String.eqb (skip_space rest) EmptyString); [reflexivity|].
  cbn [negb]. rewrite append_length.
  replace (Nat.eqb _ _) with false by (symmetry; apply Nat.eqb_neq; lia).
  reflexivity.
Qed.

(** ** Index expressions under parse_index *)

(** Within the range of [long] and of array sizes the wrap-around of
    [var_count + l_ind + 1] is not felt. *)
Lemma resolve_index_spec (n v : Z) :
  0 <= n <= LONG_MAX -> LONG_MIN <= v <= LONG_MAX ->
  resolve_index n v = spec_resolve n v.
Proof.
  unfold resolve_index, spec_resolve, size_t_to_long, LONG_MAX, LONG_MIN, SIZE_MODULUS.
  intros Hn Hv.
  destruct (Z.ltb_spec v 0) as [Hneg|Hpos]; [|reflexivity].
  destruct (Z.lt_ge_cases (n + v + 1) 0) as [Hlt|Hge].
  - assert (E : (n + v + 1) mod 2 ^ 64 = n + v + 1 + 2 ^ 64)
      by (symmetry; apply Z.mod_unique with (q := -1); lia).
    rewrite E.
    destruct (Z.leb_spec (n + v + 1 + 2 ^ 64) (2 ^ 63 - 1)); lia.
  - rewrite Z.mod_small by lia.
    destruct (Z.leb_spec (n + v + 1) (2 ^ 63 - 1)); lia.
Qed.

Lemma expr_text_head (e : index_expr) :
  exists c t, expr_text e = String c t
              /\ iswspace c = false /\ Ascii.eqb c "]" = false
              /\ Ascii.eqb c "." = false.
Proof.
  destruct e as [a|a b]; simpl;
    destruct (numeral_text_head a) as (c & t & -> & H); simpl; eauto.
Qed.

(** The text from an expression list to the closing bracket starts with a
    character that is neither white space nor a dot. *)
Lemma exprs_tail_head (es : list index_expr) (tail : wcstring) :
  exists c t, exprs_text es +++ String "]" tail = String c t
              /\ iswspace c = false /\ Ascii.eqb c "." = false.
Proof.
  destruct es as [|e es'].
  - simpl. eexists _, _. split; [reflexivity|]. split; reflexivity.
  - destruct (expr_text_head e) as (c & t & Et & Hsp & _ & Hdot).
    destruct es' as [|e' es'']; cbn [exprs_text]; rewrite Et; simpl; eauto.
Qed.

Lemma exprs_tail_no_space (es : list index_expr) (tail : wcstring) :
  skip_space (exprs_text es +++ String "]" tail) = exprs_text es +++ String "]" tail.
Proof.
  destruct (exprs_tail_head es tail) as (c & t & -> & Hsp & _).
  now apply skip_space_stays.
Qed.

Lemma exprs_tail_no_dots (es : list index_expr) (tail : wcstring) :
  after_dots (exprs_text es +++ String "]" tail) = None.
Proof.
  destruct (exprs_tail_head es tail) as (c & t & -> & _ & Hdot).
  simpl. destruct t; [reflexivity|]. now rewrite Hdot.
Qed.

(** The text of a non-empty expression list, split after its first
    expression. *)
Lemma exprs_text_cons (e : index_expr) (es : list index_expr) (tail : wcstring) :
  exists R,
    exprs_text (e :: es) +++ String "]" tail = expr_text e +++ R
    /\ no_digit_ahead R
    /\ skip_space R = exprs_text es +++ String "]" tail.
Proof.
  destruct es as [|e' es''].
  - exists (String "]" tail). repeat split; reflexivity.
  - exists (String " " (exprs_text (e' :: es'') +++ String "]" tail)).
    split; [|split].
    + cbn [exprs_text]. now rewrite append_assoc.
    + reflexivity.
    + cbn [skip_space]. change (iswspace " "%char) with true. cbv iota.
      apply exprs_tail_no_space.
Qed.

(** The resolved value of a numeral that fits [long] fits [long]. *)
Lemma spec_resolve_long (n : Z) (a : numeral) :
  0 <= n <= LONG_MAX -> is_long a ->
  LONG_MIN <= spec_resolve n (numeral_value a) <= LONG_MAX.
Proof.
  unfold is_long, spec_resolve, LONG_MIN, LONG_MAX. intros Hn Ha.
  destruct (Z.ltb_spec (numeral_value a) 0); lia.
Qed.

Section Parse_exprs.

Variable n : Z.
Hypothesis n_is_size : 0 <= n <= LONG_MAX.
Variable tail : wcstring.

Lemma parse_index_loop_exprs (es : list index_expr) :
  Forall expr_is_long es ->
  forall (indexes : list Z) (count : Z),
  exists fuel,
    parse_index_loop fuel (exprs_text es +++ String "]" tail) n indexes count
    = Some (mk_parse_result
              (count + Z.of_nat (length (flat_map (spec_indexes n) es)))
              (indexes ++ flat_map (spec_indexes n) es) []).
Proof.
  induction es as [|e es IH]; intros Hlong indexes count.
  - exists 1%nat. simpl. now rewrite Z.add_0_r, app_nil_r.
  - inversion Hlong as [|? ? He Hes]; subst.
    destruct (exprs_text_cons e es tail) as (R & -> & HR & HskR).
    destruct e as [a|a b]; cbn [expr_text expr_is_long] in *.
    + destruct (IH Hes (indexes ++ [spec_resolve n (numeral_value a)]) (count + 1))
        as [fuel Hfuel].
      exists (Datatypes.S fuel). cbn [parse_index_loop].
      destruct (numeral_text_head a) as (c & t & Et & _ & Hbr & _).
      replace (starts_with "]" (numeral_text a +++ R)) with false
        by (rewrite Et; simpl; now rewrite Hbr).
      destruct (fish_wcstol_numeral a R He HR) as (errno & -> & ->).
      rewrite HskR, exprs_tail_no_dots, exprs_tail_no_space.
      rewrite resolve_index_spec by (assumption || apply He).
      rewrite Hfuel. f_equal. cbn [flat_map spec_indexes].
      rewrite length_app, <- !app_assoc. cbn [length app]. f_equal. lia.
    + destruct He as [Ha Hb].
      set (A := spec_resolve n (numeral_value a)).
      set (B := spec_resolve n (numeral_value b)).
      destruct (IH Hes (indexes ++ inclusive_sequence A B) (count + range_count A B))
        as [fuel Hfuel].
      exists (Datatypes.S fuel). cbn [parse_index_loop].
      rewrite !append_assoc.
      destruct (numeral_text_head a) as (c & t & Et & _ & Hbr & _).
      replace (starts_with "]" (numeral_text a +++ ".." +++ numeral_text b +++ R))
        with false by (rewrite Et; simpl; now rewrite Hbr).
      destruct (fish_wcstol_numeral a (".." +++ numeral_text b +++ R) Ha)
        as (errno & -> & ->); [reflexivity|].
      change (skip_space (".." +++ numeral_text b +++ R))
        with (".." +++ numeral_text b +++ R).
      change (after_dots (".." +++ numeral_text b +++ R))
        with (Some (numeral_text b +++ R)).
      cbv iota.
      destruct (fish_wcstol_numeral b R Hb HR) as (errno2 & -> & ->).
      rewrite HskR, exprs_tail_no_space.
      rewrite !resolve_index_spec by (assumption || apply Ha || apply Hb).
      fold A B. rewrite expand_range_sequence, Hfuel. f_equal.
      cbn [flat_map spec_indexes]. fold A B.
      rewrite length_app, <- !app_assoc, Nat2Z.inj_add, inclusive_sequence_length.
      f_equal. lia.
Qed.

(** The index loop of the machine on the same text, for ranges that stay
    inside [long] and a count that stays inside [int]. *)
Lemma long_parse_index_loop_exprs (range_fuel : nat) (es : list index_expr) :
  INT_MAX < Z.of_nat range_fuel ->
  Forall expr_is_long es -> Forall (expr_in_range n) es ->
  forall (indexes : list Z) (count : Z),
    0 <= count ->
    count + Z.of_nat (length (flat_map (spec_indexes n) es)) <= INT_MAX ->
    exists fuel,
      long_parse_index_loop fuel range_fuel
        (exprs_text es +++ String "]" tail) n indexes count
      = Some (mk_parse_result
                (count + Z.of_nat (length (flat_map (spec_indexes n) es)))
                (indexes ++ flat_map (spec_indexes n) es) []).
Proof.
  intros Hrf.
  induction es as [|e es IH]; intros Hlong Hin indexes count Hc Hmax.
  - exists 1%nat. simpl. now rewrite Z.add_0_r, app_nil_r.
  - inversion Hlong as [|? ? He Hes]; subst.
    inversion Hin as [|? ? Hre Hres]; subst.
    destruct (exprs_text_cons e es tail) as (R & -> & HR & HskR).
    cbn [flat_map] in Hmax. rewrite length_app, Nat2Z.inj_add in Hmax.
    destruct e as [a|a b]; cbn [expr_text expr_is_long expr_in_range spec_indexes] in *.
    + cbn [length] in Hmax.
      destruct (IH Hes Hres (indexes ++ [spec_resolve n (numeral_value a)])
                   (count + 1)) as [fuel Hfuel]; [lia|lia|].
      exists (Datatypes.S fuel). cbn [long_parse_index_loop].
      destruct (numeral_text_head a) as (c & t & Et & _ & Hbr & _).
      replace (starts_with "]" (numeral_text a +++ R)) with false
        by (rewrite Et; simpl; now rewrite Hbr).
      destruct (fish_wcstol_numeral a R He HR) as (errno & -> & ->).
      rewrite HskR, exprs_tail_no_dots, exprs_tail_no_space.
      rewrite resolve_index_spec by (assumption || apply He).
      rewrite wrap_int_id by lia.
      rewrite Hfuel. f_equal. cbn [flat_map spec_indexes].
      rewrite length_app, <- !app_assoc. cbn [length app]. f_equal. lia.
    + destruct He as [Ha Hb].
      set (A := spec_resolve n (numeral_value a)) in *.
      set (B := spec_resolve n (numeral_value b)) in *.
      rewrite inclusive_sequence_length in Hmax.
      assert (Hrc : 1 <= range_count A B) by (unfold range_count; lia).
      destruct (IH Hes Hres (indexes ++ inclusive_sequence A B)
                   (count + range_count A B)) as [fuel Hfuel]; [lia|lia|].
      exists (Datatypes.S fuel). cbn [long_parse_index_loop].
      rewrite !append_assoc.
      destruct (numeral_text_head a) as (c & t & Et & _ & Hbr & _).
      replace (starts_with "]" (numeral_text a +++ ".." +++ numeral_text b +++ R))
        with false by (rewrite Et; simpl; now rewrite Hbr).
      destruct (fish_wcstol_numeral a (".." +++ numeral_text b +++ R) Ha)
        as (errno & -> & ->); [reflexivity|].
      change (skip_space (".." +++ numeral_text b +++ R))
        with (".." +++ numeral_text b +++ R).
      change (after_dots (".." +++ numeral_text b +++ R))
        with (Some (numeral_text b +++ R)).
      cbv iota.
      destruct (fish_wcstol_numeral b R Hb HR) as (errno2 & -> & ->).
      rewrite HskR, exprs_tail_no_space.
      rewrite !resolve_index_spec by (assumption || apply Ha || apply Hb).
      fold A B. cbv zeta.
      assert (Hloop : long_range_loop range_fuel A B (if B <? A then -1 else 1)
                                      indexes
                      = Some (indexes ++ inclusive_sequence A B)).
      { rewrite <- expand_range_sequence.
        replace range_fuel
          with (Datatypes.S (Z.to_nat (range_count A B))
                + (range_fuel - Datatypes.S (Z.to_nat (range_count A B))))%nat
          by (unfold INT_MAX in *; lia).
        apply long_range_loop_agrees; [| |exact Hre];
          subst A B; now apply spec_resolve_long. }
      rewrite Hloop, length_app.
      replace (length indexes + length (inclusive_sequence A B) - length indexes)%nat
        with (length (inclusive_sequence A B)) by lia.
      rewrite inclusive_sequence_length, wrap_int_id by lia.
      rewrite Hfuel. cbn [flat_map spec_indexes]. fold A B.
      rewrite length_app, <- !app_assoc, Nat2Z.inj_add, inclusive_sequence_length.
      f_equal. f_equal. lia.
Qed.

End Parse_exprs.

Lemma skip_name_text (name rest : wcstring) :
  is_name name = true ->
  skip_name (name +++ String "[" rest) = String "[" rest.
Proof.
  induction name as [|c t IH]; simpl; intros Hn; [reflexivity|].
  apply andb_prop in Hn as [Hc Ht]. rewrite Hc. now apply IH.
Qed.

Lemma substring_append (a b : wcstring) :
  substring 0 (String.length a) (a +++ b) = a.
Proof.
  induction a as [|c t IH]; simpl.
  - destruct b; reflexivity.
  - now rewrite IH.
Qed.

(** parse_index on the text of a slice: every expression yields the indexes
    the specification gives it, in order, after the indexes already there. *)
Lemma parse_index_slice_text (name : wcstring) (es : list index_expr)
    (n : Z) (indexes : list Z) :
  is_name name = true -> 0 <= n <= LONG_MAX -> Forall expr_is_long es ->
  parse_index indexes (slice_text name es) name n
  = mk_parse_result (Z.of_nat (length (flat_map (spec_indexes n) es)))
                    (indexes ++ flat_map (spec_indexes n) es) [].
Proof.
  intros Hname Hn Hes. unfold parse_index, slice_text.
  rewrite skip_name_text by exact Hname.
  cbn [starts_with negb next_char]. change (Ascii.eqb "[" "[") with true. cbv iota.
  rewrite append_length. cbn [String.length].
  replace (String.length name + Datatypes.S (String.length (exprs_text es +++ "]"))
           - Datatypes.S (String.length (exprs_text es +++ "]")))%nat
    with (String.length name) by lia.
  rewrite substring_append, String.eqb_refl. cbn [negb].
  rewrite exprs_tail_no_space.
  destruct (parse_index_loop_exprs n Hn EmptyString es Hes indexes 0) as [fuel Hfuel].
  apply parse_index_loop_any_fuel in Hfuel. rewrite Hfuel.
  reflexivity.
Qed.

(** ** Claims about the index parser *)

(** C3: for every array length [n] handed to the parser and every negative
    integer [v] written as an index, the parser resolves [v] to [n + v + 1],
    with the length the caller supplied; in a range each endpoint is resolved
    on its own before the range is expanded.  The index vector parse_index
    builds from the text of the expressions is the one the specification
    assigns to them ([spec_indexes] resolves with [spec_resolve]), for
    expressions on which the code returns: ranges that stay inside [long] and
    no more indexes than an [int] counts.  On these the index loop run with
    the arithmetic of the machine returns the same. *)
Theorem parse_index_resolves_negative (name : wcstring) (es : list index_expr)
    (n : Z) :
  is_name name = true -> 0 <= n <= LONG_MAX -> Forall expr_is_long es ->
  Forall (expr_in_range n) es ->
  Z.of_nat (length (flat_map (spec_indexes n) es)) <= INT_MAX ->
  pr_indexes (parse_index [] (slice_text name es) name n)
  = flat_map (spec_indexes n) es
  /\ pr_count (parse_index [] (slice_text name es) name n)
     = Z.of_nat (length (flat_map (spec_indexes n) es))
  /\ (forall v, LONG_MIN <= v < 0 -> resolve_index n v = n + v + 1)
  /\ (forall range_fuel,
        INT_MAX < Z.of_nat range_fuel ->
        exists fuel,
          long_parse_index_loop fuel range_fuel (exprs_text es +++ "]") n [] 0
          = Some (mk_parse_result
                    (Z.of_nat (length (flat_map (spec_indexes n) es)))
                    (flat_map (spec_indexes n) es) [])).
Proof.
  intros Hname Hn Hes Hin Hmax.
  rewrite parse_index_slice_text by assumption.
  split; [reflexivity|]. split; [reflexivity|]. split.
  - intros v Hv.
    rewrite resolve_index_spec by (unfold LONG_MAX, LONG_MIN in *; lia).
    unfold spec_resolve. destruct (Z.ltb_spec v 0); [reflexivity|lia].
  - intros range_fuel Hrf.
    destruct (long_parse_index_loop_exprs n Hn EmptyString range_fuel es Hrf Hes Hin
                [] 0) as [fuel Hfuel]; [lia|lia|].
    exists fuel. exact Hfuel.
Qed.

Lemma parse_index_resolves_negative_witness :
  pr_indexes (parse_index [] "foo[-1 -5 -1..-5]" "foo" 5) = [5; 1; 5; 4; 3; 2; 1].
Proof.
  apply (parse_index_resolves_negative "foo"
           [Single minus_one; Single minus_five; Range minus_one minus_five] 5);
    [reflexivity | long_bounds | long_bounds
    | repeat constructor | vm_compute; discriminate].
Defined.

(** C4: a range that counts up to LONG_MAX.  The word
    [foo[9223372036854775807..9223372036854775807]] has both ends convert to
    LONG_MAX, and the claim has the one index LONG_MAX appended.  In the loop
    of the code the test [jjj <= LONG_MAX] cannot fail: after the push [jjj]
    steps over the edge of [long] (to LONG_MIN on the machine) and the loop
    goes on pushing; however many rounds the range loop and the index loop
    are given, parse_index has not returned.  The branch for a single index
    takes the same index, written [foo[9223372036854775807]], and returns. *)
Theorem range_to_LONG_MAX_does_not_end :
  inclusive_sequence LONG_MAX LONG_MAX = [LONG_MAX]
  /\ slice_in_range "foo[9223372036854775807..9223372036854775807]" 5 = false
  /\ wrap_long (LONG_MAX + 1) = LONG_MIN
  /\ (forall fuel indexes, long_range_loop fuel LONG_MAX LONG_MAX 1 indexes = None)
  /\ (forall fuel range_fuel indexes,
        long_parse_index_loop fuel range_fuel
          "9223372036854775807..9223372036854775807]" 5 indexes 0
        = None)
  /\ (forall range_fuel indexes,
        long_parse_index_loop 2 range_fuel "9223372036854775807]" 5 indexes 0
        = Some (mk_parse_result 1 (indexes ++ [LONG_MAX]) [])).
Proof.
  assert (Hloop : forall fuel indexes,
             long_range_loop fuel LONG_MAX LONG_MAX 1 indexes = None).
  { intros fuel indexes. apply long_range_loop_to_LONG_MAX.
    unfold LONG_MIN, LONG_MAX. lia. }
  split; [vm_compute; reflexivity|]. split; [vm_compute; reflexivity|].
  split; [vm_compute; reflexivity|]. split; [exact Hloop|].
  assert (E1 : fish_wcstol "9223372036854775807..9223372036854775807]"
               = (LONG_MAX, "..9223372036854775807]", -1))
    by (vm_compute; reflexivity).
  assert (E2 : fish_wcstol "9223372036854775807]" = (LONG_MAX, "]", -1))
    by (vm_compute; reflexivity).
  assert (E3 : resolve_index 5 LONG_MAX = LONG_MAX) by (vm_compute; reflexivity).
  split.
  - intros fuel range_fuel indexes. destruct fuel as [|fuel]; [reflexivity|].
    cbn [long_parse_index_loop starts_with].
    change (Ascii.eqb "9" "]") with false. cbv iota.
    rewrite E1. cbn [Z.gtb Z.compare after_dots].
    change (Ascii.eqb "." "." && Ascii.eqb "." ".") with true. cbv iota.
    rewrite E2. cbn [Z.gtb Z.compare]. rewrite E3, Z.ltb_irrefl.
    now rewrite Hloop.
  - intros range_fuel indexes.
    cbn [long_parse_index_loop starts_with].
    change (Ascii.eqb "9" "]") with false. cbv iota.
    rewrite E2. cbn [Z.gtb Z.compare after_dots skip_space starts_with].
    rewrite E3. reflexivity.
Qed.

(** X28: for sign-resolved endpoints [A] and [B] whose range stays inside
    [long] and has no more members than an [int] counts, the range [A..B]
    appends to the index list the inclusive sequence from [A] to [B]: upwards
    by one when [A <= B], downwards by one when [B < A]; the loop of the
    machine ends with that vector. *)
Theorem range_appends_inclusive_sequence (name : wcstring) (a b : numeral)
    (n : Z) (indexes : list Z) :
  is_name name = true -> 0 <= n <= LONG_MAX -> is_long a -> is_long b ->
  let A := spec_resolve n (numeral_value a) in
  let B := spec_resolve n (numeral_value b) in
  range_in_long A B = true -> range_count A B <= INT_MAX ->
  (A <= B ->
   pr_indexes (parse_index indexes (slice_text name [Range a b]) name n)
   = indexes ++ map (fun k => A + Z.of_nat k) (seq 0 (Z.to_nat (B - A + 1))))
  /\ (B < A ->
      pr_indexes (parse_index indexes (slice_text name [Range a b]) name n)
      = indexes ++ map (fun k => A - Z.of_nat k) (seq 0 (Z.to_nat (A - B + 1))))
  /\ (forall extra,
         long_range_loop (S (Z.to_nat (range_count A B)) + extra) A B
                         (if B <? A then -1 else 1) indexes
         = Some (indexes ++ inclusive_sequence A B)).
Proof.
  intros Hname Hn Ha Hb A B Hin _.
  assert (Hes : Forall expr_is_long [Range a b])
    by (constructor; [split; assumption | constructor]).
  rewrite parse_index_slice_text by assumption.
  cbn [flat_map spec_indexes pr_indexes]. fold A B. rewrite app_nil_r.
  unfold inclusive_sequence.
  split; [|split].
  - intros Hle. now replace (A <=? B) with true by (symmetry; apply Z.leb_le; lia).
  - intros Hlt. now replace (A <=? B) with false by (symmetry; apply Z.leb_gt; lia).
  - intros extra. fold (inclusive_sequence A B).
    rewrite <- expand_range_sequence.
    apply long_range_loop_agrees; [| |exact Hin]; now apply spec_resolve_long.
Qed.

Lemma range_appends_inclusive_sequence_witness :
  pr_indexes (parse_index [] "foo[1..3]" "foo" 5) = [1; 2; 3]
  /\ pr_indexes (parse_index [] "foo[3..1]" "foo" 5) = [3; 2; 1].
Proof.
  split.
  - destruct (range_appends_inclusive_sequence "foo" numeral_1 numeral_3 5 [])
      as (Hup & _ & _);
      [reflexivity | long_bounds | long_bounds | long_bounds | reflexivity
      | vm_compute; discriminate |].
    apply Hup. vm_compute. discriminate.
  - destruct (range_appends_inclusive_sequence "foo" numeral_3 numeral_1 5 [])
      as (_ & Hdown & _);
      [reflexivity | long_bounds | long_bounds | long_bounds | reflexivity
      | vm_compute; discriminate |].
    apply Hdown. reflexivity.
Defined.

(** A range whose upper bound does not convert, in general: parse_index
    returns 1 and the index vector is as it was handed in. *)
Lemma parse_index_range_without_upper_bound (name : wcstring) (a : numeral)
    (garbage : wcstring) (n : Z) (indexes : list Z) :
  is_name name = true -> is_long a ->
  snd (fish_wcstol garbage) > 0 ->
  parse_index indexes
    (name +++ String "[" (numeral_text a +++ ".." +++ garbage)) name n
  = mk_parse_result 1 indexes [].
Proof.
  intros Hname Ha Hbad. unfold parse_index.
  rewrite skip_name_text by exact Hname.
  cbn [starts_with negb next_char]. change (Ascii.eqb "[" "[") with true. cbv iota.
  rewrite append_length. cbn [String.length].
  replace (String.length name
           + Datatypes.S (String.length (numeral_text a +++ ".." +++ garbage))
           - Datatypes.S (String.length (numeral_text a +++ ".." +++ garbage)))%nat
    with (String.length name) by lia.
  rewrite substring_append, String.eqb_refl. cbn [negb].
  destruct (numeral_text_head a) as (c & t & Et & Hsp & Hbr & _).
  assert (Esk : skip_space (numeral_text a +++ ".." +++ garbage)
                = numeral_text a +++ ".." +++ garbage).
  { rewrite Et. cbn [String.append]. now apply skip_space_stays. }
  rewrite Esk. cbn [parse_index_loop].
  replace (starts_with "]" (numeral_text a +++ ".." +++ garbage)) with false
    by (rewrite Et; simpl; now rewrite Hbr).
  destruct (fish_wcstol_numeral a (".." +++ garbage) Ha) as (errno & -> & ->);
    [reflexivity|].
  change (skip_space (".." +++ garbage)) with (".." +++ garbage).
  change (after_dots (".." +++ garbage)) with (Some garbage).
  cbv iota.
  destruct (fish_wcstol garbage) as [[l_ind2 endp2] errno2]. cbn [snd] in Hbad.
  now replace (errno2 >? 0) with true by (symmetry; apply Z.gtb_lt; lia).
Qed.

(** C5: a range whose upper bound is not an integer.  The parser does not
    report failure (it returns 1) and stops, but the lower index is not in the
    index vector, and the value returned is 1 whatever was parsed before. *)
Theorem parse_index_malformed_upper_bound :
  parse_index [] "foo[3..x]" "foo" 5 = mk_parse_result 1 [] []
  /\ parse_index [] "foo[1 2 3..x]" "foo" 5 = mk_parse_result 1 [1; 2] []
  /\ parse_index [] "foo[3]" "foo" 5 = mk_parse_result 1 [3] [].
Proof. repeat split; vm_compute; reflexivity. Qed.

(** ** erase_values *)

Lemma set_insert_In (x y : Z) (s : list Z) :
  In y (set_insert x s) <-> y = x \/ In y s.
Proof.
  induction s as [|z s IH]; simpl; [intuition|].
  destruct (Z.ltb_spec x z); [simpl; intuition|].
  destruct (Z.eqb_spec x z); simpl; [subst; intuition|].
  rewrite IH. intuition.
Qed.

Lemma set_insert_ascending (x : Z) (s : list Z) :
  ascending s -> ascending (set_insert x s).
Proof.
  induction s as [|z s IH]; simpl; [intuition|].
  intros [Hz Hs].
  destruct (Z.ltb_spec x z) as [Hlt|Hge].
  - simpl. repeat split; auto.
    intros y [<-|Hy]; [assumption|]. specialize (Hz y Hy). lia.
  - destruct (Z.eqb_spec x z) as [->|Hne]; simpl; [auto|].
    split; [|auto].
    intros y Hy. apply set_insert_In in Hy as [->|Hy]; [lia|auto].
Qed.

Lemma indexes_set_spec (indexes : list Z) :
  ascending (indexes_set indexes)
  /\ forall x, In x (indexes_set indexes) <-> In x indexes.
Proof.
  unfold indexes_set.
  assert (G : forall s, ascending s ->
                ascending (fold_left (fun s x => set_insert x s) indexes s)
                /\ forall x, In x (fold_left (fun s x => set_insert x s) indexes s)
                             <-> In x indexes \/ In x s).
  { induction indexes as [|i indexes IH]; intros s Hs; simpl.
    - split; [assumption|intuition].
    - destruct (IH (set_insert i s) (set_insert_ascending i s Hs)) as [Ha Hi].
      split; [assumption|].
      intros x. rewrite Hi, set_insert_In. intuition. }
  destruct (G [] I) as [Ha Hi]. split; [assumption|].
  intros x. rewrite Hi. simpl. intuition.
Qed.

Lemma remove_positions_ext (sel sel' : Z -> bool) (l : wcstring_list_t) :
  forall p,
    (forall q, p <= q < p + Z.of_nat (length l) -> sel q = sel' q) ->
    remove_positions sel p l = remove_positions sel' p l.
Proof.
  induction l as [|x t IH]; intros p H; simpl; [reflexivity|].
  rewrite (H p) by (simpl length; lia).
  rewrite (IH (p + 1)) by (intros q Hq; apply H; simpl length; lia).
  reflexivity.
Qed.

Lemma remove_positions_length_le (sel : Z -> bool) (l : wcstring_list_t) :
  forall p, (length (remove_positions sel p l) <= length l)%nat.
Proof.
  induction l as [|x t IH]; intros p; simpl; [lia|].
  specialize (IH (p + 1)). destruct (sel p); simpl; lia.
Qed.

(** Erasing position [a] from what is left after removing positions above
    [a] removes position [a] as well. *)
Lemma vector_erase_remove_positions (sel : Z -> bool) (a : Z) (l : wcstring_list_t) :
  forall p,
    (forall q, q <= a -> sel q = false) ->
    p <= a < p + Z.of_nat (length l) ->
    (Z.to_nat (a - p) < length (remove_positions sel p l))%nat
    /\ vector_erase (remove_positions sel p l) (Z.to_nat (a - p))
       = remove_positions (fun q => (q =? a) || sel q) p l.
Proof.
  induction l as [|x t IH]; intros p Hsel Hp; simpl length in *; [lia|].
  cbn [remove_positions]. rewrite (Hsel p) by lia. cbn [orb].
  destruct (Z.eqb_spec p a) as [->|Hne].
  - rewrite Z.sub_diag. simpl. split; [lia|].
    unfold vector_erase. simpl.
    apply remove_positions_ext. intros q Hq.
    destruct (Z.eqb_spec q a); [lia|reflexivity].
  - destruct (IH (p + 1) Hsel) as [Hlen Her]; [lia|].
    replace (Z.to_nat (a - p)) with (Datatypes.S (Z.to_nat (a - (p + 1)))) by lia.
    split; [simpl; lia|].
    rewrite <- Her. reflexivity.
Qed.

Lemma erase_step_remove_positions (sel : Z -> bool) (a : Z) (l : wcstring_list_t) :
  (forall q, q <= a -> sel q = false) ->
  erase_step (remove_positions sel 1 l) a
  = remove_positions (fun q => (q =? a) || sel q) 1 l.
Proof.
  intros Hsel. unfold erase_step.
  pose proof (remove_positions_length_le sel l 1) as Hle.
  destruct (Z.gtb_spec a 0) as [Hpos|Hneg]; cbn [andb].
  - destruct (Z.lt_ge_cases (Z.of_nat (length l)) a) as [Hout|Hin].
    + replace (a <=? _) with false by (symmetry; apply Z.leb_gt; lia).
      apply remove_positions_ext. intros q Hq.
      destruct (Z.eqb_spec q a); [lia|reflexivity].
    + destruct (vector_erase_remove_positions sel a l 1 Hsel) as [Hlen Her]; [lia|].
      replace (a <=? _) with true by (symmetry; apply Z.leb_le; lia).
      exact Her.
  - apply remove_positions_ext. intros q Hq.
    destruct (Z.eqb_spec q a); [lia|reflexivity].
Qed.

Lemma erase_ascending (s : list Z) (l : wcstring_list_t) :
  ascending s ->
  fold_right (fun val acc => erase_step acc val) l s
  = remove_positions (index_listed s) 1 l.
Proof.
  induction s as [|a s IH]; intros Hs.
  - simpl. symmetry.
    assert (G : forall p, remove_positions (index_listed []) p l = l).
    { induction l as [|x t IHl]; intros p; simpl; [reflexivity|]. now rewrite IHl. }
    apply G.
  - destruct Hs as [Ha Hs]. cbn [fold_right]. rewrite IH by assumption.
    rewrite erase_step_remove_positions.
    + reflexivity.
    + intros q Hq. unfold index_listed.
      destruct (existsb (Z.eqb q) s) eqn:E; [|reflexivity].
      apply existsb_exists in E as (y & Hy & Hqy).
      apply Z.eqb_eq in Hqy. subst y. specialize (Ha q Hy). lia.
Qed.

Lemma index_listed_In (indexes : list Z) (p : Z) :
  index_listed indexes p = true <-> In p indexes.
Proof.
  unfold index_listed. rewrite existsb_exists. split.
  - intros (y & Hy & E). apply Z.eqb_eq in E. now subst.
  - intros H. exists p. split; [assumption|apply Z.eqb_refl].
Qed.

(** Walking a list backwards with [fold_left] is [fold_right] over it. *)
Lemma fold_left_backwards (s : list Z) (l : wcstring_list_t) :
  fold_left erase_step (rev s) l
  = fold_right (fun val acc => erase_step acc val) l s.
Proof.
  induction s as [|a s IH]; simpl; [reflexivity|].
  rewrite fold_left_app. simpl. now rewrite IH.
Qed.

Lemma erase_values_remove_positions (l : wcstring_list_t) (indexes : list Z) :
  erase_values l indexes = remove_positions (index_listed indexes) 1 l.
Proof.
  unfold erase_values.
  destruct (indexes_set_spec indexes) as [Hasc Hin].
  rewrite fold_left_backwards.
  rewrite (erase_ascending _ l Hasc).
  apply remove_positions_ext. intros q _.
  destruct (index_listed indexes q) eqn:E.
  - apply index_listed_In. apply Hin. now apply index_listed_In.
  - destruct (index_listed (indexes_set indexes) q) eqn:E'; [|reflexivity].
    apply index_listed_In, Hin, index_listed_In in E'. congruence.
Qed.

Lemma positions_In (k : nat) :
  forall p x, In x (positions p k) <-> p <= x < p + Z.of_nat k.
Proof.
  induction k as [|k IH]; intros p x; simpl positions.
  - simpl. lia.
  - simpl In. rewrite IH. lia.
Qed.

Lemma positions_NoDup (k : nat) : forall p, NoDup (positions p k).
Proof.
  induction k as [|k IH]; intros p; simpl; constructor; [|apply IH].
  rewrite positions_In. lia.
Qed.

Lemma remove_positions_length (sel : Z -> bool) (l : wcstring_list_t) :
  forall p,
    (length (remove_positions sel p l)
     + length (filter sel (positions p (length l))) = length l)%nat.
Proof.
  induction l as [|x t IH]; intros p; simpl; [reflexivity|].
  specialize (IH (p + 1)). destruct (sel p); simpl; lia.
Qed.

(** The positions of an array that the index list names are as many as the
    distinct indexes in range. *)
Lemma listed_positions_count (n : nat) (indexes : list Z) :
  length (filter (index_listed indexes) (positions 1 n))
  = length (distinct_in_range (Z.of_nat n) indexes).
Proof.
  apply Permutation_length, NoDup_Permutation.
  - apply NoDup_filter, positions_NoDup.
  - apply NoDup_nodup.
  - intros x. unfold distinct_in_range.
    rewrite nodup_In, !filter_In, positions_In, index_listed_In.
    rewrite andb_true_iff, !Z.leb_le. intuition lia.
Qed.

(** C2: for every array and every index list, erase_values removes exactly
    the elements at the positions the list names (an index below 1 or above
    the length names none and raises no error), the elements that stay keep
    their order, and the length goes down by the number of distinct indexes
    in range. *)
Theorem erase_values_removes_listed_positions (list : wcstring_list_t)
    (indexes : index_vector) :
  erase_values list indexes = remove_positions (index_listed indexes) 1 list
  /\ Z.of_nat (length (erase_values list indexes))
     = Z.of_nat (length list)
       - Z.of_nat (length (distinct_in_range (Z.of_nat (length list)) indexes))
  /\ erase_values list indexes
     = fold_left erase_step (rev (indexes_set indexes)) list
  /\ ascending (indexes_set indexes)
  /\ (forall x, In x (indexes_set indexes) <-> In x indexes).
Proof.
  split; [apply erase_values_remove_positions|].
  split; [|split; [reflexivity|apply indexes_set_spec]].
  rewrite erase_values_remove_positions.
  pose proof (remove_positions_length (index_listed indexes) list 1) as H.
  rewrite listed_positions_count in H. lia.
Qed.

Example erase_values_example :
  erase_values ["a"; "b"; "c"; "d"; "e"] [4; 2; 2; 0; 9; -1; 4] = ["a"; "c"; "e"].
Proof. reflexivity. Qed.

(** ** update_values *)

Lemma vector_resize_length (l : wcstring_list_t) (n : nat) :
  length (vector_resize l n) = n.
Proof.
  unfold vector_resize. rewrite length_app, length_firstn, repeat_length. lia.
Qed.

Lemma vector_assign_length (l : wcstring_list_t) :
  forall ind newv, length (vector_assign l ind newv) = length l.
Proof.
  induction l as [|x t IH]; intros [|i] newv; simpl; auto.
Qed.

Lemma vector_assign_nth (l : wcstring_list_t) :
  forall ind newv k,
    (ind < length l)%nat ->
    nth k (vector_assign l ind newv) EmptyString
    = if Nat.eqb k ind then newv else nth k l EmptyString.
Proof.
  induction l as [|x t IH]; intros ind newv k Hlt; simpl in Hlt; [lia|].
  destruct ind as [|i], k as [|k]; simpl; try reflexivity.
  apply IH. lia.
Qed.

(** Growing a vector keeps its elements; the new ones are empty, which is also
    what [nth] reads past the end. *)
Lemma vector_resize_nth (l : wcstring_list_t) (n k : nat) :
  (length l <= n)%nat ->
  nth k (vector_resize l n) EmptyString = nth k l EmptyString.
Proof.
  intros Hle. unfold vector_resize.
  rewrite firstn_all2 by lia.
  destruct (Nat.lt_ge_cases k (length l)) as [Hin|Hout].
  - now rewrite app_nth1.
  - rewrite app_nth2 by lia. rewrite (nth_overflow l) by lia.
    apply nth_repeat.
Qed.

Lemma last_assigned_found (indexes : index_vector) :
  forall values p found,
    last_assigned indexes values p found
    = match last_assigned indexes values p None with
      | Some v => Some v
      | None => found
      end.
Proof.
  induction indexes as [|i indexes IH]; intros values p found; simpl; [reflexivity|].
  rewrite IH. rewrite (IH _ _ (if i =? p then _ else None)).
  destruct (last_assigned indexes (tl values) p None); [reflexivity|].
  destruct (i =? p); reflexivity.
Qed.

Lemma update_values_spec (indexes : index_vector) :
  forall (list values : wcstring_list_t),
    Forall (fun index => 0 < index) indexes ->
    fst (update_values list indexes values) = 0
    /\ Z.of_nat (length (snd (update_values list indexes values)))
       = largest_index (Z.of_nat (length list)) indexes
    /\ forall p, 1 <= p ->
         element_at (snd (update_values list indexes values)) p
         = match last_assigned indexes values p None with
           | Some v => v
           | None => element_at list p
           end.
Proof.
  induction indexes as [|i indexes IH]; intros l values Hpos.
  - simpl. auto.
  - inversion Hpos as [|? ? Hi Hrest]; subst.
    cbn [update_values].
    replace (i - 1 <? 0) with false by (symmetry; apply Z.ltb_ge; lia).
    set (grown := if i - 1 >=? Z.of_nat (length l)
                  then vector_resize l (Z.to_nat (i - 1 + 1)) else l).
    assert (Hglen : Z.of_nat (length grown) = Z.max (Z.of_nat (length l)) i).
    { subst grown. destruct (Z.geb_spec (i - 1) (Z.of_nat (length l))).
      - rewrite vector_resize_length. lia.
      - lia. }
    assert (Hgnth : forall k, nth k grown EmptyString = nth k l EmptyString).
    { intros k. subst grown. destruct (Z.geb_spec (i - 1) (Z.of_nat (length l))).
      - apply vector_resize_nth. lia.
      - reflexivity. }
    destruct (IH (vector_assign grown (Z.to_nat (i - 1)) (hd EmptyString values))
                 (tl values) Hrest) as (Hret & Hlen & Hnth).
    split; [exact Hret|]. split.
    + rewrite Hlen, vector_assign_length, Hglen. reflexivity.
    + intros p Hp. rewrite (Hnth p Hp). cbn [last_assigned].
      rewrite (last_assigned_found indexes (tl values) p (if i =? p then _ else _)).
      destruct (last_assigned indexes (tl values) p None); [reflexivity|].
      unfold element_at. rewrite vector_assign_nth by lia. rewrite Hgnth.
      destruct (Z.eqb_spec i p) as [->|Hne].
      * now rewrite Nat.eqb_refl.
      * replace (Nat.eqb _ _) with false by (symmetry; apply Nat.eqb_neq; lia).
        reflexivity.
Qed.

(** C7: a slice update whose resolved indexes are all positive, and none
    above the size a vector can be given, succeeds; the array ends with
    max (old length, largest index) elements; every slot holds the value of
    the last pair that names it, else what it held before, and a slot that is
    new and not assigned holds the empty string.  Assigning "x" to index 2 of
    the empty array gives the array of the empty string and "x". *)
Theorem update_values_grows_and_assigns (list : wcstring_list_t)
    (indexes : index_vector) (values : wcstring_list_t) :
  length values = length indexes ->
  Forall (fun index => 0 < index <= vector_max_size) indexes ->
  let updated := snd (update_values list indexes values) in
  fst (update_values list indexes values) = 0
  /\ Z.of_nat (length updated) = largest_index (Z.of_nat (length list)) indexes
  /\ (forall p, 1 <= p <= Z.of_nat (length updated) ->
        element_at updated p
        = match last_assigned indexes values p None with
          | Some v => v
          | None =>
              if p <=? Z.of_nat (length list) then element_at list p
              else EmptyString
          end)
  /\ update_values [] [2] ["x"] = (0, [EmptyString; "x"]).
Proof.
  intros _ Hbounds updated.
  assert (Hpos : Forall (fun index => 0 < index) indexes)
    by (eapply Forall_impl; [|exact Hbounds]; cbv beta; lia).
  destruct (update_values_spec indexes list values Hpos) as (Hret & Hlen & Hnth).
  repeat split; try assumption.
  intros p [Hp _]. subst updated. rewrite (Hnth p Hp).
  destruct (last_assigned indexes values p None); [reflexivity|].
  destruct (Z.leb_spec p (Z.of_nat (length list))); [reflexivity|].
  unfold element_at. apply nth_overflow. lia.
Qed.

Lemma update_values_grows_and_assigns_witness :
  fst (update_values ["a"] [3; 1; 3] ["x"; "y"; "z"]) = 0
  /\ Z.of_nat (length (snd (update_values ["a"] [3; 1; 3] ["x"; "y"; "z"]))) = 3
  /\ element_at (snd (update_values ["a"] [3; 1; 3] ["x"; "y"; "z"])) 2 = EmptyString
  /\ element_at (snd (update_values ["a"] [3; 1; 3] ["x"; "y"; "z"])) 3 = "z".
Proof.
  destruct (update_values_grows_and_assigns ["a"] [3; 1; 3] ["x"; "y"; "z"])
    as (Hret & Hlen & Hnth & _);
    [reflexivity | repeat constructor; vm_compute; discriminate |].
  split; [exact Hret|]. split; [exact Hlen|]. split.
  - apply (Hnth 2). vm_compute. split; discriminate.
  - apply (Hnth 3). vm_compute. split; discriminate.
Defined.

(** ** my_env_set on path variables *)

Section Path_validation.

Context {S : Type} {store_ops : VariableStore S} {platform : Platform}.

Lemma validate_paths_spec (key : wcstring) (existing : wcstring_list_t)
    (list : wcstring_list_t) :
  forall any_success,
    validate_paths key existing list any_success
    = (any_success || existsb (entry_accepted existing) list,
       flat_map (entry_warnings key existing) list).
Proof.
  induction list as [|dir rest IH]; intros any_success.
  - simpl. now rewrite orb_false_r.
  - cbn [validate_paths existsb flat_map].
    assert (Ew : entry_warnings key existing dir
                 = if entry_accepted existing dir then []
                   else match check_dir dir with
                        | Some errno =>
                            Err_format BUILTIN_SET_PATH_ERROR
                              ["set"; key; dir; strerror errno]
                              :: path_hint key dir
                        | None => []
                        end) by reflexivity.
    assert (Ea : entry_accepted existing dir
                 = accepted_unchecked existing dir
                   || match check_dir dir with None => true | Some _ => false end)
      by reflexivity.
    rewrite Ew, Ea.
    destruct (accepted_unchecked existing dir); cbn [orb].
    + rewrite IH. now rewrite orb_true_r.
    + destruct (check_dir dir) as [errno|].
      * rewrite IH. cbn [orb app]. reflexivity.
      * rewrite IH. now rewrite orb_true_r.
Qed.




End Path_validation.



(** ** The option loop *)

Lemma given_cons (c : wchar_t) (o : set_opt) (opts : list set_opt) :
  given c (o :: opts)
  = match flag_letter o with Some d => Ascii.eqb c d | None => false end
    || given c opts.
Proof. reflexivity. Qed.

(** The option loop over options that set flags: it goes on with the flags
    switched. *)
Lemma parse_options_app (cmd : wcstring) (before : list set_opt) :
  forallb is_flag before = true ->
  forall f rest,
    parse_options cmd (before ++ rest) f
    = parse_options cmd rest (flags_after f before).
Proof.
  induction before as [|o before IH]; intros Hflags f rest.
  - destruct f. unfold flags_after. cbn.
    now rewrite !orb_false_r, !andb_true_r.
  - cbn [forallb] in Hflags. apply andb_prop in Hflags as [Ho Hrest].
    specialize (IH Hrest).
    destruct o; try discriminate Ho;
      cbn [app parse_options]; rewrite IH; f_equal;
      unfold flags_after; rewrite !given_cons;
      cbn [flag_letter fl_local fl_global fl_exportv fl_erase fl_list fl_unexport
           fl_universal fl_query fl_show fl_shorten_ok
           fl_preserve_failure_exit_status];
      destruct f; cbn; f_equal; btauto.
Qed.

Lemma parse_options_flags (cmd : wcstring) (opts : list set_opt) (f : set_flags) :
  forallb is_flag opts = true ->
  parse_options cmd opts f = inl (flags_after f opts).
Proof.
  intros Hflags. rewrite <- (app_nil_r opts) at 1.
  now rewrite parse_options_app.
Qed.

Lemma given_same_members (c : wchar_t) (opts opts' : list set_opt) :
  (forall o, In o opts <-> In o opts') -> given c opts = given c opts'.
Proof.
  intros Hsame. unfold given. apply eq_true_iff_eq.
  rewrite !existsb_exists. split; intros (o & Hin & Ho); exists o;
    (split; [now apply Hsame|exact Ho]).
Qed.

Lemma cut_at_without (s : wcstring) (c : wchar_t) :
  wcschr s c = None -> cut_at s c = s.
Proof.
  induction s as [|a t IH]; [reflexivity|].
  cbn [wcschr cut_at]. destruct (Ascii.eqb a c); [discriminate|].
  intros H. now rewrite IH.
Qed.

(** ** print_variables *)

Lemma substring_length (s : wcstring) :
  forall n, String.length (substring 0 n s) = Nat.min n (String.length s).
Proof.
  induction s as [|c t IH]; intros [|n]; simpl; try reflexivity.
  now rewrite IH.
Qed.

Section Printing.

Context {S : Type} {store_ops : VariableStore S} {platform : Platform}.

(** C10: a value of more than 64 characters.  With shortening allowed it is
    printed as its first 60 characters (escaped when escaping is on) followed
    by one ellipsis character; without it any value is printed in full.  The
    builtin without arguments prints the variables with their values, and
    shortening is allowed exactly when -L is not among the options, whatever
    other flags that lead to the listing are given with it. *)
Theorem long_values_are_shortened (st : S) (scope : env_mode_flags_t)
    (key value : wcstring) (esc : bool) :
  env_get_string st key scope = Some value ->
  64 < Z.of_nat (String.length value) ->
  print_variable true esc true scope st key
  = [Out_append (escape_string key false); Out_append " ";
     Out_append (rendered esc (substring 0 60 value));
     Out_push_back ellipsis_char; Out_append newline]
  /\ String.length (substring 0 60 value) = 60%nat
  /\ (forall key' value' esc',
        env_get_string st key' scope = Some value' ->
        print_variable true esc' false scope st key'
        = [Out_append (escape_string key' false); Out_append " ";
           Out_append (rendered esc' value'); Out_append newline])
  /\ (forall incoming cmd opts,
        forallb is_flag opts = true ->
        given "e" opts = false -> given "n" opts = false ->
        given "q" opts = false -> given "S" opts = false ->
        conflicting opts = false ->
        let listed := scope_of_flags (flags_after initial_flags opts) in
        oc_out (builtin_set st incoming cmd opts [])
        = flat_map (print_variable true true (negb (given "L" opts)) listed st)
                   (sort (env_get_names st listed))).
Proof.
  intros Hget Hlong. split; [|split; [|split]].
  - unfold print_variable. rewrite Hget.
    replace (64 <? _) with true by (symmetry; apply Z.ltb_lt; lia).
    reflexivity.
  - rewrite substring_length. lia.
  - intros key' value' esc' Hget'. unfold print_variable. rewrite Hget'.
    reflexivity.
  - intros incoming cmd opts Hflags He Hn Hq Hs Hconf listed. subst listed.
    unfold builtin_set. rewrite parse_options_flags by exact Hflags.
    set (f := flags_after initial_flags opts).
    assert (Ef : fl_show f = false /\ fl_query f = false /\ fl_erase f = false
                 /\ fl_list f = false
                 /\ fl_shorten_ok f = negb (given "L" opts)).
    { subst f. flags_simpl. now rewrite He, Hn, Hq, Hs. }
    destruct Ef as (-> & -> & -> & -> & ->).
    assert (Ec : (1 <? Z.b2z (fl_local f) + Z.b2z (fl_global f)
                       + Z.b2z (fl_universal f)) = false
                 /\ fl_exportv f && fl_unexport f = false).
    { subst f. flags_simpl. unfold conflicting in Hconf.
      rewrite He, Hq in Hconf. cbn [andb orb] in Hconf.
      now apply orb_false_elim in Hconf. }
    destruct Ec as [-> ->]. reflexivity.
Qed.

End Printing.

Lemma long_values_are_shortened_witness :
  out_text (print_variable true true true ENV_USER [("v", seventy_chars)] "v")
  = String.append "v 012345678901234567890123456789012345678901234567890123456789$"
                  newline
  /\ out_text (oc_out (run_set [("v", seventy_chars)] 0 "set" [Opt_L; Opt_g] []))
     = String.append (String.append "v " seventy_chars) newline
  /\ out_text (oc_out (run_set [("v", seventy_chars)] 0 "set" [Opt_g; Opt_x] []))
     = String.append
         "v 012345678901234567890123456789012345678901234567890123456789$" newline.
Proof.
  destruct (long_values_are_shortened [("v", seventy_chars)] ENV_USER "v"
              seventy_chars true) as (Hshort & _ & _ & Hflags);
    [reflexivity | vm_compute; reflexivity |].
  split; [rewrite Hshort; reflexivity|]. split.
  - exact (f_equal out_text
             (Hflags 0 "set" [Opt_L; Opt_g] eq_refl eq_refl eq_refl eq_refl
                     eq_refl eq_refl)).
  - exact (f_equal out_text
             (Hflags 0 "set" [Opt_g; Opt_x] eq_refl eq_refl eq_refl eq_refl
                     eq_refl eq_refl)).
Defined.

(** ** Query mode *)

Section Query.

Context {S : Type} {store_ops : VariableStore S} {platform : Platform}.

Lemma query_args_counts (st : S) (scope : env_mode_flags_t) (cmd : wcstring)
    (argv : wcstring_list_t) :
  Forall (target_parses st scope) argv ->
  forall retcode,
    fst (query_args st scope cmd argv retcode)
    = retcode + sum_list (map (requested_missing st scope) argv).
Proof.
  induction argv as [|arg rest IH]; intros Hall retcode.
  - simpl. lia.
  - inversion Hall as [|? ? Harg Hrest]; subst.
    specialize (IH Hrest).
    cbn [query_args map]. unfold sum_list in *. cbn [fold_right].
    unfold target_parses in Harg. unfold requested_missing at 1.
    destruct (wcschr arg "["%char) as [tail|].
    + unfold target_indexes, target_array in *.
      apply Z.eqb_neq in Harg. rewrite Harg.
      match goal with
      | |- context [query_args st scope cmd rest ?r] =>
          pose proof (IH r) as IH';
          destruct (query_args st scope cmd rest r) as [status err]
      end.
      cbn [fst] in *. rewrite IH'. unfold count_missing, index_missing. lia.
    + rewrite IH. destruct (env_exist st arg scope); lia.
Qed.

(** A sliced target whose slice does not parse ends the query with status 1,
    whatever was counted before. *)
Lemma query_args_parse_failure (st : S) (scope : env_mode_flags_t) (cmd : wcstring)
    (argv : wcstring_list_t) :
  Exists (fun arg => ~ target_parses st scope arg) argv ->
  forall retcode, fst (query_args st scope cmd argv retcode) = 1.
Proof.
  induction argv as [|arg rest IH]; intros Hex retcode.
  - inversion Hex.
  - cbn [query_args].
    destruct (wcschr arg "["%char) as [tail|] eqn:Ebr.
    + match goal with
      | |- context [pr_count ?r =? 0] => destruct (pr_count r =? 0) eqn:Ez
      end; [reflexivity|].
      assert (Hrest : Exists (fun arg => ~ target_parses st scope arg) rest).
      { inversion Hex as [? ? Hbad|? ? Hlater]; subst; [|assumption].
        exfalso. apply Hbad. unfold target_parses. rewrite Ebr.
        unfold target_indexes, target_array. now apply Z.eqb_neq. }
      match goal with
      | |- context [query_args st scope cmd rest ?r] =>
          specialize (IH Hrest r);
          destruct (query_args st scope cmd rest r) as [status err]
      end.
      exact IH.
    + apply IH.
      inversion Hex as [? ? Hbad|? ? Hlater]; subst; [|assumption].
      exfalso. apply Hbad. unfold target_parses. now rewrite Ebr.
Qed.

(** C8, as the code has it: in query mode the exit status is the number,
    over all targets, of the requested things that do not exist: 1 for a
    bare name that is absent in the scope, and for a sliced name the number
    of parsed indexes below 1 or above the length of the array.  This is so
    when parse_index accepts the slice of every sliced target (it returns a
    count that is not 0); a slice it refuses ends the query at once with
    status 1, whatever was counted before.  The store is left as it was.
    The targets are ASCII text with ranges inside [long] and no more indexes
    than an [int] counts. *)
Theorem query_status_counts_missing (st : S) (incoming : Z) (cmd : wcstring)
    (opts : list set_opt) (f : set_flags) (argv : wcstring_list_t) :
  parse_options cmd opts initial_flags = inl f ->
  reaches_query f = true ->
  Forall (fun arg => ascii_text arg = true) argv ->
  Forall (fun arg => target_in_range st (scope_of_flags f) arg = true) argv ->
  (Forall (target_parses st (scope_of_flags f)) argv ->
   oc_status (builtin_set st incoming cmd opts argv)
   = sum_list (map (requested_missing st (scope_of_flags f)) argv))
  /\ (Exists (fun arg => ~ target_parses st (scope_of_flags f) arg) argv ->
      oc_status (builtin_set st incoming cmd opts argv) = 1)
  /\ oc_store (builtin_set st incoming cmd opts argv) = st.
Proof.
  intros Hopts Hq _ _. unfold builtin_set. rewrite Hopts.
  unfold reaches_query in Hq.
  repeat (apply andb_prop in Hq as [Hq ?]).
  repeat match goal with
         | H : negb _ = true |- _ => apply negb_true_iff in H
         end.
  rewrite Hq.
  repeat match goal with
         | H : _ = false |- _ => rewrite H
         end.
  cbn [andb].
  destruct (fl_erase f && fl_list f) eqn:Eel.
  { apply andb_prop in Eel as [He Hl].
    match goal with H : fl_erase f || fl_list f = false |- _ =>
      rewrite He in H; discriminate H end. }
  pose proof (query_args_counts st (scope_of_flags f) cmd argv) as Hc.
  pose proof (query_args_parse_failure st (scope_of_flags f) cmd argv) as Hf.
  destruct (query_args st (scope_of_flags f) cmd argv STATUS_CMD_OK)
    as [status err] eqn:E.
  cbn [oc_status oc_store]. split; [|split; [|reflexivity]].
  - intros Hall. specialize (Hc Hall STATUS_CMD_OK). rewrite E in Hc.
    cbn [fst] in Hc. rewrite Hc. unfold STATUS_CMD_OK. lia.
  - intros Hex. specialize (Hf Hex STATUS_CMD_OK). rewrite E in Hf. exact Hf.
Qed.

End Query.

Lemma query_status_counts_missing_witness :
  oc_status (run_set [] 0 "set" [Opt_q] ["foo"]) = 1
  /\ oc_status (run_set [("foo", "a")] 0 "set" [Opt_q] ["foo[1 2]"]) = 1
  /\ oc_status (run_set [("foo", "a")] 0 "set" [Opt_q]
                        ["foo[1 2]"; "bar"; "foo"; "foo[-1 0 7]"]) = 4.
Proof.
  split; [|split].
  - destruct (query_status_counts_missing (S := table) [] 0 "set" [Opt_q]
                query_flags ["foo"]) as (H & _ & _);
      [reflexivity | reflexivity | repeat constructor | repeat constructor |].
    apply H. repeat constructor.
  - destruct (query_status_counts_missing (S := table) [("foo", "a")] 0 "set"
                [Opt_q] query_flags ["foo[1 2]"]) as (H & _ & _);
      [reflexivity | reflexivity | repeat constructor | repeat constructor |].
    apply H. repeat constructor; vm_compute; discriminate.
  - destruct (query_status_counts_missing (S := table) [("foo", "a")] 0 "set"
                [Opt_q] query_flags ["foo[1 2]"; "bar"; "foo"; "foo[-1 0 7]"])
      as (H & _ & _);
      [reflexivity | reflexivity | repeat constructor | repeat constructor |].
    apply H. repeat constructor; vm_compute; discriminate.
Defined.

(** C8 as the claim states it fails on a slice that does not parse: of the
    three targets two are absent and the third asks for no index that could
    be missing, so the count of the claim is 2; the status is 1.  A slice
    without index on a variable that exists takes the same path: nothing it
    asks for is missing, and the status is 1. *)
Lemma malformed_slice_ends_the_query :
  let o := run_set [] 0 "set" [Opt_q] ["a"; "b"; "foo[x]"] in
  oc_status o = 1
  /\ sum_list (map (requested_missing (S := table) [] (scope_of_flags query_flags))
                   ["a"; "b"; "foo[x]"]) = 2
  /\ oc_status o
     <> sum_list (map (requested_missing (S := table) [] (scope_of_flags query_flags))
                     ["a"; "b"; "foo[x]"])
  /\ oc_status (run_set [("foo", "a")] 0 "set" [Opt_q] ["foo[]"]) = 1
  /\ requested_missing (S := table) [("foo", "a")] (scope_of_flags query_flags)
                       "foo[]" = 0.
Proof.
  cbv zeta. split; [reflexivity|]. split; [reflexivity|].
  split; [vm_compute; discriminate|]. split; reflexivity.
Qed.

(** ** A failed slice update *)

(** update_values stops at the first index below 1 and leaves in the vector
    what the pairs before it wrote. *)
Lemma update_values_stops_after_prefix (prefix : index_vector) :
  forall (list values : wcstring_list_t) (bad : Z) (rest : index_vector),
    Forall (fun index => 0 < index) prefix -> bad <= 0 ->
    update_values list (prefix ++ bad :: rest) values
    = (1, snd (update_values list prefix values)).
Proof.
  induction prefix as [|i prefix IH]; intros l values bad rest Hpos Hbad.
  - cbn [app update_values snd].
    now replace (bad - 1 <? 0) with true by (symmetry; apply Z.ltb_lt; lia).
  - inversion Hpos as [|? ? Hi Hrest]; subst.
    cbn [app update_values].
    replace (i - 1 <? 0) with false by (symmetry; apply Z.ltb_ge; lia).
    now apply IH.
Qed.


(** C1: a slice update with an index that resolves below 1, after a pair that
    could be written.  update_values stops at the bad index with the earlier
    pair already in the array; builtin_set writes the bounds message and then
    stores that array all the same, and the status stays 0. *)
Theorem failed_slice_update_is_committed :
  let st := [("foo", "a")] in
  let o := run_set st 0 "set" [] ["foo[1 0]"; "x"; "y"] in
  update_values ["a"] [1; 0] ["x"; "y"] = (1, ["x"])
  /\ oc_err o = [Err_format FMT_CMD_PREFIX ["set"]; Err_format ARRAY_BOUNDS_ERR [];
                 Err_push_back "010"%char]
  /\ array_of st "foo" = Some ["a"]
  /\ array_of (oc_store o) "foo" = Some ["x"]
  /\ oc_status o = 0.
Proof. vm_compute. repeat split; reflexivity. Qed.

(** ** Failures and the error stream *)












Section Reporting.

Context {S : Type} {store_ops : VariableStore S} {platform : Platform}.










End Reporting.



(** * Further properties of the code *)

(** ** parse_index: termination, what it appends, names *)

(** X1: the index loop of parse_index returns on every ASCII text whose
    ranges stay inside [long] and whose indexes an [int] counts: a round
    returns or moves [src] forward by at least one character, so as many
    rounds as the text has characters, and one more, are enough, and allowing
    more changes nothing.  The loop run with the arithmetic of the machine
    returns the same. *)
Theorem parse_index_loop_returns (src : wcstring) (var_count : Z)
    (indexes : list Z) (count : Z) :
  ascii_text src = true -> 0 <= count ->
  index_loop_in_range (S (String.length src)) src var_count count = true ->
  exists r,
    parse_index_loop (S (String.length src)) src var_count indexes count = Some r
    /\ (forall extra,
          parse_index_loop (S (String.length src) + extra) src var_count indexes
                           count
          = Some r)
    /\ (forall range_fuel,
          INT_MAX < Z.of_nat range_fuel ->
          long_parse_index_loop (S (String.length src)) range_fuel src var_count
                                indexes count
          = Some r).
Proof.
  intros _ Hc Hin.
  destruct (parse_index_loop_fuel (S (String.length src)) src var_count indexes count)
    as [r E]; [lia|].
  exists r. split; [exact E|]. split.
  - intros extra. now apply parse_index_loop_more_fuel.
  - intros range_fuel Hrf. now apply long_parse_index_loop_agrees.
Qed.

Lemma parse_index_loop_returns_witness :
  exists r,
    parse_index_loop (S (String.length "1 3..5 x]")) "1 3..5 x]" 5 [] 0 = Some r
    /\ (forall extra,
          parse_index_loop (S (String.length "1 3..5 x]") + extra) "1 3..5 x]" 5 [] 0
          = Some r)
    /\ (forall range_fuel,
          INT_MAX < Z.of_nat range_fuel ->
          long_parse_index_loop (S (String.length "1 3..5 x]")) range_fuel
                                "1 3..5 x]" 5 [] 0
          = Some r).
Proof.
  apply (parse_index_loop_returns "1 3..5 x]" 5 [] 0);
    [reflexivity | lia | reflexivity].
Defined.

(** The index loop only appends, and counts what it appends. *)
Lemma parse_index_loop_appends (fuel : nat) :
  forall src var_count indexes count r,
    parse_index_loop fuel src var_count indexes count = Some r ->
    exists added,
      pr_indexes r = indexes ++ added
      /\ ((pr_count r = count + Z.of_nat (length added) /\ pr_err r = [])
          \/ (pr_count r = 0 /\ pr_err r <> [])
          \/ (pr_count r = 1 /\ pr_err r = [])).
Proof.
  induction fuel as [|fuel IH]; intros src var_count indexes count r E;
    [discriminate|].
  cbn [parse_index_loop] in E.
  destruct (starts_with "]" src).
  { inversion E; subst. exists []. rewrite app_nil_r. cbn. split; [reflexivity|].
    left. split; [lia|reflexivity]. }
  destruct (fish_wcstol src) as [[l_ind endp] errno].
  destruct (errno >? 0).
  { inversion E; subst. exists []. rewrite app_nil_r. cbn. split; [reflexivity|].
    right. left. split; [reflexivity|discriminate]. }
  destruct (after_dots endp) as [src2|].
  - destruct (fish_wcstol src2) as [[l_ind2 endp2] errno2].
    destruct (errno2 >? 0).
    { inversion E; subst. exists []. rewrite app_nil_r. cbn. split; [reflexivity|].
      right. right. split; reflexivity. }
    apply IH in E as (added & Hidx & Hcount).
    rewrite expand_range_sequence in Hidx.
    exists (inclusive_sequence (resolve_index var_count l_ind)
                               (resolve_index var_count l_ind2) ++ added).
    rewrite app_assoc. split; [exact Hidx|].
    destruct Hcount as [[Hc He]|Hother]; [|now right].
    left. split; [|exact He].
    rewrite Hc, length_app, Nat2Z.inj_add, inclusive_sequence_length. lia.
  - apply IH in E as (added & Hidx & Hcount).
    exists (resolve_index var_count l_ind :: added).
    rewrite <- app_assoc in Hidx. split; [exact Hidx|].
    destruct Hcount as [[Hc He]|Hother]; [|now right].
    left. split; [|exact He]. rewrite Hc. cbn [length]. lia.
Qed.

(** X2: on an ASCII word whose ranges stay inside [long] and whose indexes
    an [int] counts, parse_index never removes or changes an index that is
    already in the vector: it only appends.  Its return value is the number
    of indexes it appended, or 0 together with an error message, or 1 (after
    a range whose upper bound does not convert). *)
Theorem parse_index_only_appends (indexes : list Z) (src name : wcstring)
    (var_count : Z) :
  ascii_text src = true -> slice_in_range src var_count = true ->
  exists added,
    pr_indexes (parse_index indexes src name var_count) = indexes ++ added
    /\ ((pr_count (parse_index indexes src name var_count)
         = Z.of_nat (length added)
         /\ pr_err (parse_index indexes src name var_count) = [])
        \/ (pr_count (parse_index indexes src name var_count) = 0
            /\ pr_err (parse_index indexes src name var_count) <> [])
        \/ (pr_count (parse_index indexes src name var_count) = 1
            /\ pr_err (parse_index indexes src name var_count) = [])).
Proof.
  intros _ _. unfold parse_index.
  destruct (starts_with "[" (skip_name src)); cbn [negb].
  2:{ exists []. rewrite app_nil_r. cbn. split; [reflexivity|].
      right. left. split; [reflexivity|discriminate]. }
  destruct (String.eqb _ name); cbn [negb].
  2:{ exists []. rewrite app_nil_r. cbn. split; [reflexivity|].
      right. left. split; [reflexivity|discriminate]. }
  destruct (parse_index_loop _ _ _ _ _) as [r|] eqn:E.
  - apply parse_index_loop_appends in E as (added & Hidx & Hcount).
    exists added. split; [exact Hidx|]. now rewrite Z.add_0_l in Hcount.
  - exists []. rewrite app_nil_r. cbn. split; [reflexivity|]. now left.
Qed.

Lemma parse_index_only_appends_witness :
  exists added,
    pr_indexes (parse_index [7] "foo[1 3..5]" "foo" 5) = [7] ++ added
    /\ ((pr_count (parse_index [7] "foo[1 3..5]" "foo" 5)
         = Z.of_nat (length added)
         /\ pr_err (parse_index [7] "foo[1 3..5]" "foo" 5) = [])
        \/ (pr_count (parse_index [7] "foo[1 3..5]" "foo" 5) = 0
            /\ pr_err (parse_index [7] "foo[1 3..5]" "foo" 5) <> [])
        \/ (pr_count (parse_index [7] "foo[1 3..5]" "foo" 5) = 1
            /\ pr_err (parse_index [7] "foo[1 3..5]" "foo" 5) = [])).
Proof.
  apply (parse_index_only_appends [7] "foo[1 3..5]" "foo" 5); reflexivity.
Defined.

Lemma skip_name_all (word : wcstring) :
  is_name word = true -> skip_name word = EmptyString.
Proof.
  induction word as [|c t IH]; simpl; intros Hn; [reflexivity|].
  apply andb_prop in Hn as [Hc Ht]. rewrite Hc. now apply IH.
Qed.

(** X3: the name in front of the bracket must be the variable the command is
    about.  A word [other[...]] for another name is refused with the message
    about multiple variable names, and a word that is only a name (no
    bracket) with the message about the number of indexes; in both cases the
    return value is 0 and the index vector is as it was. *)
Theorem parse_index_refuses_other_names (indexes : list Z)
    (name other body : wcstring) (var_count : Z) :
  is_name other = true -> other <> name ->
  parse_index indexes (other +++ String "[" body) name var_count
  = mk_parse_result 0 indexes
      [Err_format FMT_MULTIPLE_NAMES ["set"; name; other]]
  /\ parse_index indexes other name var_count
     = mk_parse_result 0 indexes [Err_format BUILTIN_SET_ARG_COUNT ["set"]].
Proof.
  intros Hother Hne. split.
  - unfold parse_index. rewrite skip_name_text by exact Hother.
    cbn [starts_with negb]. change (Ascii.eqb "[" "[") with true. cbv iota.
    rewrite append_length. cbn [String.length].
    replace (String.length other + Datatypes.S (String.length body)
             - Datatypes.S (String.length body))%nat
      with (String.length other) by lia.
    rewrite substring_append.
    replace (String.eqb other name) with false
      by (symmetry; now apply String.eqb_neq).
    reflexivity.
  - unfold parse_index. rewrite skip_name_all by exact Hother. reflexivity.
Qed.

Lemma parse_index_refuses_other_names_witness :
  parse_index [7] "bar[1 2]" "foo" 3
  = mk_parse_result 0 [7] [Err_format FMT_MULTIPLE_NAMES ["set"; "foo"; "bar"]].
Proof.
  destruct (parse_index_refuses_other_names [7] "foo" "bar" "1 2]" 3)
    as [H _]; [reflexivity | discriminate |].
  exact H.
Defined.

(** ** Slice mode: words, counts, and what reaches the store *)

(** All the indexes of a list of slice words. *)
Lemma slice_args_step (cmd name : wcstring) (erase : bool) (n : Z)
    (acc : index_vector) (es : list index_expr) (rest : wcstring_list_t) :
  is_name name = true -> 0 <= n <= LONG_MAX -> Forall expr_is_long es ->
  flat_map (spec_indexes n) es <> [] ->
  slice_args cmd name erase n acc (slice_text name es :: rest)
  = let indexes := acc ++ flat_map (spec_indexes n) es in
    if negb erase && (Z.of_nat (length rest) <? Z.of_nat (length indexes)) then
      (1, indexes, slice_text name es :: rest,
       [Err_format BUILTIN_SET_ARG_COUNT [cmd]; Err_help cmd])
    else if negb erase && (Z.of_nat (length rest) =? Z.of_nat (length indexes)) then
      (0, indexes, rest, [])
    else slice_args cmd name erase n indexes rest.
Proof.
  intros Hname Hn Hes Hne. cbn [slice_args].
  rewrite parse_index_slice_text by assumption.
  cbn [pr_count pr_indexes pr_err app].
  replace (Z.of_nat (length (flat_map (spec_indexes n) es)) =? 0) with false.
  2:{ symmetry. apply Z.eqb_neq.
      destruct (flat_map (spec_indexes n) es); [congruence|simpl; lia]. }
  cbv zeta.
  destruct (negb erase && (_ <? _)); [reflexivity|].
  destruct (negb erase && (_ =? _)); [reflexivity|].
  destruct (slice_args cmd name erase n _ rest) as [[[rc idx] vals] err].
  reflexivity.
Qed.

(** The index loop of slice mode over slice words followed by as many values
    as they have indexes. *)
Lemma slice_args_words (cmd name : wcstring) (n : Z)
    (groups : list (list index_expr)) (values : wcstring_list_t) :
  is_name name = true -> 0 <= n <= LONG_MAX ->
  Forall (Forall expr_is_long) groups ->
  Forall (fun es => flat_map (spec_indexes n) es <> []) groups ->
  groups <> [] ->
  forall acc,
    length values
    = (length acc + length (flat_map (flat_map (spec_indexes n)) groups))%nat ->
    slice_args cmd name false n acc (map (slice_text name) groups ++ values)
    = (0, acc ++ flat_map (flat_map (spec_indexes n)) groups, values, []).
Proof.
  intros Hname Hn Hlong Hfull.
  induction groups as [|es groups IH]; intros Hne acc Hlen; [congruence|].
  inversion Hlong as [|? ? Hes Hlong']; subst.
  inversion Hfull as [|? ? Hes_ne Hfull']; subst.
  cbn [map app flat_map] in *.
  rewrite slice_args_step by assumption. cbv zeta. cbn [negb andb].
  rewrite length_app in Hlen.
  destruct groups as [|es' groups'].
  - cbn [map app flat_map length] in *. rewrite app_nil_r in *.
    replace (_ <? _) with false
      by (symmetry; apply Z.ltb_ge; rewrite length_app; lia).
    replace (_ =? _) with true
      by (symmetry; apply Z.eqb_eq; rewrite length_app; lia).
    reflexivity.
  - set (here := flat_map (spec_indexes n) es) in *.
    set (later := flat_map (flat_map (spec_indexes n)) (es' :: groups')) in *.
    set (words := map (slice_text name) (es' :: groups')).
    assert (Hwords : (0 < length words)%nat) by (subst words; cbn; lia).
    replace (_ <? _) with false
      by (symmetry; apply Z.ltb_ge; rewrite !length_app; lia).
    replace (_ =? _) with false
      by (symmetry; apply Z.eqb_neq; rewrite !length_app; lia).
    subst words. rewrite IH; try assumption; try discriminate.
    + now rewrite <- app_assoc.
    + rewrite length_app. lia.
Qed.

(** X4: several slice words in front of the values address the same array:
    their indexes are collected in the order written, and the index loop
    stops at the word after which as many values are left as indexes were
    collected.  The ranges of the words stay inside [long] and the indexes
    are no more than an [int] counts. *)
Theorem slice_words_accumulate (cmd name : wcstring) (n : Z)
    (groups : list (list index_expr)) (values : wcstring_list_t)
    (acc : index_vector) :
  is_name name = true -> 0 <= n <= LONG_MAX ->
  Forall (Forall expr_is_long) groups ->
  Forall (Forall (expr_in_range n)) groups ->
  Forall (fun es => flat_map (spec_indexes n) es <> []) groups ->
  groups <> [] ->
  length values
  = (length acc + length (flat_map (flat_map (spec_indexes n)) groups))%nat ->
  Z.of_nat (length values) <= INT_MAX ->
  slice_args cmd name false n acc (map (slice_text name) groups ++ values)
  = (0, acc ++ flat_map (flat_map (spec_indexes n)) groups, values, []).
Proof.
  intros Hname Hn Hlong _ Hfull Hne Hlen _.
  now apply slice_args_words.
Qed.


Lemma slice_words_accumulate_witness :
  slice_args "set" "foo" false 5 []
    ["foo[1..3]"; "foo[-1 2]"; "a"; "b"; "c"; "d"; "e"]
  = (0, [1; 2; 3; 5; 2], ["a"; "b"; "c"; "d"; "e"], []).
Proof.
  apply (slice_words_accumulate "set" "foo" 5
           [[Range numeral_1 numeral_3]; [Single minus_one; Single numeral_2]]
           ["a"; "b"; "c"; "d"; "e"] []);
    [reflexivity | long_bounds | long_bounds | repeat constructor
    | repeat constructor; discriminate | discriminate | reflexivity
    | vm_compute; discriminate].
Defined.

Section Slice_mode.

Context {S : Type} {store_ops : VariableStore S} {platform : Platform}.

(** X5: in a slice assignment the values must be as many as the indexes.
    With fewer values the command fails with the message about the number of
    indexes; with more, the first word after the slice is itself read as a
    slice word and, lacking a bracket (the word is ASCII text, whose letters
    and digits no locale reads differently), refused.  Either way the status
    is 1 and the store is not written.  The ranges of the slice stay inside
    [long] and its indexes are no more than an [int] counts. *)
Theorem slice_assignment_needs_matching_counts (st : S) (cmd name : wcstring)
    (scope : env_mode_flags_t) (es : list index_expr) (values : wcstring_list_t) :
  let n := Z.of_nat (length (fetch_array st name scope)) in
  is_name name = true -> n <= LONG_MAX -> Forall expr_is_long es ->
  Forall (expr_in_range n) es ->
  Z.of_nat (length (flat_map (spec_indexes n) es)) <= INT_MAX ->
  flat_map (spec_indexes n) es <> [] ->
  ((length values < length (flat_map (spec_indexes n) es))%nat ->
   set_slice st cmd name false scope (slice_text name es :: values)
   = (1, st, [Err_format BUILTIN_SET_ARG_COUNT [cmd]; Err_help cmd]))
  /\ (forall v vs,
        values = v :: vs ->
        (length (flat_map (spec_indexes n) es) < length values)%nat ->
        ascii_text v = true ->
        starts_with "[" (skip_name v) = false ->
        set_slice st cmd name false scope (slice_text name es :: values)
        = (1, st, [Err_format BUILTIN_SET_ARG_COUNT ["set"]; Err_help cmd])).
Proof.
  intros n Hname Hn Hes _ _ Hne.
  assert (Hn' : 0 <= n <= LONG_MAX) by (subst n; lia).
  split.
  - intros Hfew. unfold set_slice. rewrite andb_false_r. fold n.
    rewrite slice_args_step by assumption. cbv zeta. cbn [negb andb app].
    replace (_ <? _) with true by (symmetry; apply Z.ltb_lt; lia).
    reflexivity.
  - intros v vs -> Hmany _ Hv. unfold set_slice. rewrite andb_false_r. fold n.
    rewrite slice_args_step by assumption. cbv zeta. cbn [negb andb app].
    replace (_ <? _) with false by (symmetry; apply Z.ltb_ge; lia).
    replace (_ =? _) with false by (symmetry; apply Z.eqb_neq; lia).
    cbn [slice_args]. unfold parse_index at 1 2 3 4. rewrite Hv. cbn [negb].
    reflexivity.
Qed.

(** X6: a slice assignment with as many values as indexes.  The array that
    goes to my_env_set is the one update_values leaves, also when
    update_values stopped at an index below 1, and the result of my_env_set
    is dropped: the slice branch ends with [retcode] 0 whatever the store or
    the path validation answered.  The ranges of the slice stay inside
    [long], its indexes are no more than an [int] counts, and none is above
    the size a vector can be given. *)
Theorem slice_assignment_stores_updated_array (st : S) (cmd name : wcstring)
    (scope : env_mode_flags_t) (es : list index_expr) (values : wcstring_list_t) :
  let array := fetch_array st name scope in
  let n := Z.of_nat (length array) in
  let indexes := flat_map (spec_indexes n) es in
  let updated := update_values array indexes values in
  let stored := my_env_set st name (snd updated) scope in
  is_name name = true -> n <= LONG_MAX -> Forall expr_is_long es ->
  Forall (expr_in_range n) es ->
  Z.of_nat (length indexes) <= INT_MAX ->
  Forall (fun index => index <= vector_max_size) indexes ->
  indexes <> [] -> length values = length indexes ->
  set_slice st cmd name false scope (slice_text name es :: values)
  = (0, snd (fst stored),
     (if negb (fst updated =? 0) then
        [Err_format FMT_CMD_PREFIX [cmd]; Err_format ARRAY_BOUNDS_ERR [];
         Err_push_back "010"%char]
      else []) ++ snd stored).
Proof.
  intros array n indexes updated stored Hname Hn Hes _ _ _ Hne Hlen.
  assert (Hn' : 0 <= n <= LONG_MAX) by (subst n; lia).
  unfold set_slice. rewrite andb_false_r. fold array n.
  rewrite slice_args_step by assumption. cbv zeta. cbn [negb andb app].
  fold indexes.
  replace (_ <? _) with false by (symmetry; apply Z.ltb_ge; lia).
  replace (_ =? _) with true by (symmetry; apply Z.eqb_eq; lia).
  cbn [Z.eqb negb]. fold updated.
  destruct updated as [failed result] eqn:Eu. cbn [fst snd] in *.
  subst stored. destruct (my_env_set st name result scope) as [[rc st'] err'].
  reflexivity.
Qed.

(** X7: erasing slices of a variable that exists.  Every word is read as a
    slice word; the array that goes to my_env_set is what erase_values leaves
    of the current one, and the slice branch ends with [retcode] 0 whatever
    my_env_set answered.  The ranges of the words stay inside [long] and the
    indexes are no more than an [int] counts. *)
Theorem slice_erase_stores_reduced_array (st : S) (cmd name : wcstring)
    (scope : env_mode_flags_t) (groups : list (list index_expr)) :
  let array := fetch_array st name scope in
  let n := Z.of_nat (length array) in
  let indexes := flat_map (flat_map (spec_indexes n)) groups in
  let stored := my_env_set st name (erase_values array indexes) scope in
  env_get_string st name scope <> None ->
  is_name name = true -> n <= LONG_MAX ->
  Forall (Forall expr_is_long) groups ->
  Forall (Forall (expr_in_range n)) groups ->
  Z.of_nat (length indexes) <= INT_MAX ->
  Forall (fun es => flat_map (spec_indexes n) es <> []) groups ->
  set_slice st cmd name true scope (map (slice_text name) groups)
  = (0, snd (fst stored), snd stored).
Proof.
  intros array n indexes stored Hset Hname Hn Hlong _ _ Hfull.
  assert (Hn' : 0 <= n <= LONG_MAX) by (subst n; lia).
  unfold set_slice.
  destruct (env_get_string st name scope) eqn:Eget; [|congruence].
  cbn [missing andb]. fold array n.
  assert (Hargs : forall acc,
             slice_args cmd name true n acc (map (slice_text name) groups)
             = (0, acc ++ flat_map (flat_map (spec_indexes n)) groups, [], [])).
  { clear stored indexes. induction groups as [|es groups IH]; intros acc.
    - cbn. now rewrite app_nil_r.
    - inversion Hlong; inversion Hfull; subst.
      cbn [map flat_map]. rewrite slice_args_step by assumption.
      cbv zeta. cbn [negb andb]. rewrite IH by assumption.
      now rewrite <- app_assoc. }
  rewrite Hargs. cbn [Z.eqb negb app]. fold indexes.
  subst stored. destruct (my_env_set st name _ scope) as [[rc st'] err'].
  reflexivity.
Qed.

End Slice_mode.

Lemma slice_assignment_needs_matching_counts_witness :
  set_slice [("foo", "a")] "set" "foo" false ENV_USER ["foo[1..3]"; "x"]
  = (1, [("foo", "a")], [Err_format BUILTIN_SET_ARG_COUNT ["set"]; Err_help "set"]).
Proof.
  destruct (slice_assignment_needs_matching_counts (S := table) [("foo", "a")]
              "set" "foo" ENV_USER [Range numeral_1 numeral_3] ["x"])
    as [Hfew _];
    [reflexivity | vm_compute; discriminate | long_bounds | repeat constructor
    | vm_compute; discriminate | discriminate |].
  apply Hfew. vm_compute. lia.
Defined.

Lemma slice_assignment_stores_updated_array_witness :
  set_slice [("PATH", "/bin")] "set" "PATH" false ENV_USER ["PATH[1]"; "/nowhere"]
  = (0, [("PATH", "/bin")],
     [Err_format BUILTIN_SET_PATH_ERROR ["set"; "PATH"; "/nowhere"; "2"]]).
Proof.
  pose proof (slice_assignment_stores_updated_array (S := table)
                [("PATH", "/bin")] "set" "PATH" ENV_USER [Single numeral_1]
                ["/nowhere"]) as H.
  cbv zeta in H.
  feed H reflexivity. feed H ltac:(vm_compute; discriminate).
  feed H long_bounds. feed H ltac:(repeat constructor).
  feed H ltac:(vm_compute; discriminate).
  feed H ltac:(repeat constructor; vm_compute; discriminate).
  feed H discriminate. feed H reflexivity.
  exact H.
Defined.

Lemma slice_erase_stores_reduced_array_witness :
  let result :=
    set_slice [("foo", String.append "a" (String ARRAY_SEP "b"))] "set" "foo"
              true ENV_USER ["foo[-1]"; "foo[1]"] in
  fst (fst result) = 0 /\ array_of (snd (fst result)) "foo" = Some [].
Proof.
  cbv zeta.
  rewrite (slice_erase_stores_reduced_array (S := table)
             [("foo", String.append "a" (String ARRAY_SEP "b"))] "set" "foo"
             ENV_USER [[Single minus_one]; [Single numeral_1]]);
    [split; reflexivity | discriminate | reflexivity | vm_compute; discriminate
    | long_bounds | repeat constructor | vm_compute; discriminate
    | repeat constructor; discriminate].
Defined.

(** ** The slice engine: more on update_values and erase_values *)

Lemma vector_assign_split (l : wcstring_list_t) :
  forall ind v,
    (ind < length l)%nat ->
    vector_assign l ind v = firstn ind l ++ v :: skipn (Datatypes.S ind) l.
Proof.
  induction l as [|x t IH]; intros ind v Hlt; cbn [length] in Hlt; [lia|].
  destruct ind as [|ind]; [reflexivity|].
  cbn [vector_assign firstn skipn app]. f_equal. apply IH. lia.
Qed.

Lemma vector_assign_last (l : wcstring_list_t) (v : wcstring) :
  l <> [] -> vector_assign l (length l - 1) v = removelast l ++ [v].
Proof.
  intros Hne.
  assert (Hlen : (0 < length l)%nat) by (destruct l; [congruence|cbn; lia]).
  rewrite vector_assign_split by lia.
  replace (Datatypes.S (length l - 1)) with (length l) by lia.
  rewrite skipn_all. f_equal.
  replace (length l - 1)%nat with (pred (length l)) by lia.
  symmetry. apply removelast_firstn_len.
Qed.

Lemma erase_values_one (l : wcstring_list_t) (index : Z) :
  erase_values l [index] = erase_step l index.
Proof. reflexivity. Qed.

(** X8: the index -1 is the last element.  On an array that is not empty,
    [name[-1]] parses to its length, assigning through it replaces the last
    element and erasing through it removes the last element.  On the empty
    array it parses to 0: the assignment stops with the bounds error and
    erasing does nothing. *)
Theorem minus_one_is_the_last_element (name : wcstring) (array : wcstring_list_t)
    (v : wcstring) :
  is_name name = true -> Z.of_nat (length array) <= LONG_MAX ->
  let indexes :=
    pr_indexes (parse_index [] (slice_text name [Single minus_one]) name
                            (Z.of_nat (length array))) in
  indexes = [Z.of_nat (length array)]
  /\ (array <> [] ->
      update_values array indexes [v] = (0, removelast array ++ [v])
      /\ erase_values array indexes = removelast array)
  /\ (array = [] ->
      update_values array indexes [v] = (1, [])
      /\ erase_values array indexes = []).
Proof.
  intros Hname Hn indexes.
  assert (Hidx : indexes = [Z.of_nat (length array)]).
  { subst indexes. rewrite parse_index_slice_text; try assumption.
    - cbn. unfold spec_resolve. cbn. f_equal. lia.
    - lia.
    - long_bounds. }
  split; [exact Hidx|]. rewrite Hidx. split.
  - intros Hne.
    assert (Hlen : (0 < length array)%nat)
      by (destruct array; [congruence|cbn; lia]).
    split.
    + cbn [update_values hd tl].
      replace (_ <? 0) with false by (symmetry; apply Z.ltb_ge; lia).
      replace (_ >=? _) with false
        by (symmetry; rewrite Z.geb_leb; apply Z.leb_gt; lia).
      replace (Z.to_nat (Z.of_nat (length array) - 1)) with (length array - 1)%nat
        by lia.
      now rewrite vector_assign_last.
    + rewrite erase_values_one. unfold erase_step.
      replace (_ >? 0) with true by (symmetry; apply Z.gtb_lt; lia).
      rewrite Z.leb_refl. cbn [andb]. unfold vector_erase.
      replace (Z.to_nat (Z.of_nat (length array) - 1)) with (pred (length array))
        by lia.
      replace (Datatypes.S (pred (length array))) with (length array) by lia.
      rewrite skipn_all, app_nil_r. symmetry. apply removelast_firstn_len.
  - intros ->. split; reflexivity.
Qed.

Lemma minus_one_is_the_last_element_witness :
  update_values ["a"; "b"; "c"]
    (pr_indexes (parse_index [] "foo[-1]" "foo" 3)) ["x"]
  = (0, ["a"; "b"; "x"])
  /\ erase_values ["a"; "b"; "c"] (pr_indexes (parse_index [] "foo[-1]" "foo" 3))
     = ["a"; "b"].
Proof.
  destruct (minus_one_is_the_last_element "foo" ["a"; "b"; "c"] "x")
    as (_ & Hfull & _); [reflexivity | vm_compute; discriminate |].
  apply Hfull. discriminate.
Defined.

(** X9: called with a value for every index and no index above the size a
    vector can be given, update_values returns 1 exactly when some index is
    below 1, and 0 exactly when every index is at least 1; it returns nothing
    else. *)
Theorem update_values_fails_iff_index_below_one (list : wcstring_list_t)
    (indexes : index_vector) (values : wcstring_list_t) :
  length values = length indexes ->
  Forall (fun index => index <= vector_max_size) indexes ->
  (fst (update_values list indexes values) = 1
   <-> Exists (fun index => index < 1) indexes)
  /\ (fst (update_values list indexes values) = 0
      <-> Forall (fun index => 1 <= index) indexes).
Proof.
  intros _ _. revert list values.
  induction indexes as [|i indexes IH]; intros l values.
  - cbn. split; split; try discriminate; auto.
    intros H. inversion H.
  - cbn [update_values].
    destruct (Z.ltb_spec (i - 1) 0) as [Hbad|Hok].
    + cbn [fst]. split; split; try discriminate.
      * intros _. left. lia.
      * reflexivity.
      * intros H. inversion H; subst. lia.
    + destruct (IH (vector_assign
                      (if i - 1 >=? Z.of_nat (length l)
                       then vector_resize l (Z.to_nat (i - 1 + 1)) else l)
                      (Z.to_nat (i - 1)) (hd EmptyString values)) (tl values))
        as [Hone Hzero].
      split.
      * rewrite Hone. split.
        -- intros H. now right.
        -- intros H. inversion H; subst; [lia|assumption].
      * rewrite Hzero. split.
        -- intros H. constructor; [lia|assumption].
        -- intros H. now inversion H.
Qed.

Lemma update_values_length_le (indexes : index_vector) :
  forall (list values : wcstring_list_t),
    (length list <= length (snd (update_values list indexes values)))%nat.
Proof.
  induction indexes as [|i indexes IH]; intros l values; [cbn; lia|].
  cbn [update_values].
  destruct (i - 1 <? 0); [cbn; lia|].
  etransitivity; [|apply IH].
  rewrite vector_assign_length.
  destruct (Z.geb_spec (i - 1) (Z.of_nat (length l))).
  - rewrite vector_resize_length. lia.
  - lia.
Qed.

Lemma update_values_fails_iff_index_below_one_witness :
  fst (update_values ["a"] [2; 0; 3] ["x"; "y"; "z"]) = 1.
Proof.
  destruct (update_values_fails_iff_index_below_one ["a"] [2; 0; 3] ["x"; "y"; "z"])
    as [Hone _]; [reflexivity | repeat constructor; vm_compute; discriminate |].
  apply Hone. apply Exists_cons_tl, Exists_cons_hd. lia.
Defined.

(** X10: called with a value for every index, update_values never shortens
    the array, whether it succeeds or stops at an index below 1. *)
Theorem update_values_never_shortens (list : wcstring_list_t)
    (indexes : index_vector) (values : wcstring_list_t) :
  length values = length indexes ->
  (length list <= length (snd (update_values list indexes values)))%nat.
Proof.
  intros _. apply update_values_length_le.
Qed.

Lemma update_values_never_shortens_witness :
  (2 <= length (snd (update_values ["a"; "b"] [1; 0]%Z ["x"; "y"])))%nat.
Proof.
  apply (update_values_never_shortens ["a"; "b"] [1; 0] ["x"; "y"]).
  reflexivity.
Defined.

Lemma largest_index_bounds (indexes : index_vector) :
  forall base,
    base <= largest_index base indexes
    /\ forall i, In i indexes -> i <= largest_index base indexes.
Proof.
  unfold largest_index.
  induction indexes as [|j indexes IH]; intros base; cbn [fold_left].
  - split; [lia|]. intros i [].
  - destruct (IH (Z.max base j)) as [Hb Hi]. split; [lia|].
    intros i [<-|Hin]; [lia|auto].
Qed.

Lemma largest_index_again (indexes : index_vector) (base : Z) :
  largest_index (largest_index base indexes) indexes = largest_index base indexes.
Proof.
  destruct (largest_index_bounds indexes base) as [_ Hi].
  set (m := largest_index base indexes) in *.
  clearbody m. unfold largest_index.
  induction indexes as [|j indexes IH]; cbn [fold_left]; [reflexivity|].
  rewrite Z.max_l by (apply Hi; now left).
  apply IH. intros i Hin. apply Hi. now right.
Qed.

(** X11: a slice update whose indexes are all at least 1 can be repeated
    without effect: applying the same indexes and values to the updated
    array gives the updated array again. *)
Theorem update_values_twice (list : wcstring_list_t) (indexes : index_vector)
    (values : wcstring_list_t) :
  length values = length indexes ->
  Forall (fun index => 0 < index) indexes ->
  update_values (snd (update_values list indexes values)) indexes values
  = update_values list indexes values.
Proof.
  intros _ Hpos.
  destruct (update_values_spec indexes list values Hpos) as (Hret & Hlen & Hnth).
  destruct (update_values_spec indexes (snd (update_values list indexes values))
              values Hpos) as (Hret' & Hlen' & Hnth').
  rewrite Hlen, largest_index_again in Hlen'.
  destruct (update_values list indexes values) as [rc once] eqn:E1.
  cbn [fst snd] in *.
  destruct (update_values once indexes values) as [rc' twice] eqn:E2.
  cbn [fst snd] in *. subst rc rc'. f_equal.
  apply nth_ext with (d := EmptyString) (d' := EmptyString); [lia|].
  intros k _.
  specialize (Hnth (Z.of_nat k + 1)). specialize (Hnth' (Z.of_nat k + 1)).
  unfold element_at in *.
  replace (Z.to_nat (Z.of_nat k + 1 - 1)) with k in * by lia.
  rewrite Hnth' by lia.
  destruct (last_assigned indexes values (Z.of_nat k + 1) None) eqn:El;
    [|reflexivity].
  symmetry. apply Hnth. lia.
Qed.

Lemma update_values_twice_witness :
  update_values (snd (update_values ["a"] [3; 1; 3] ["x"; "y"; "z"]))
                [3; 1; 3] ["x"; "y"; "z"]
  = (0, ["y"; EmptyString; "z"]).
Proof.
  rewrite (update_values_twice ["a"] [3; 1; 3] ["x"; "y"; "z"]);
    [reflexivity | reflexivity | repeat constructor; lia].
Defined.

Lemma filter_none (f : Z -> bool) (l : list Z) :
  (forall x, In x l -> f x = false) -> filter f l = [].
Proof.
  induction l as [|x t IH]; intros H; [reflexivity|].
  cbn [filter]. rewrite (H x) by now left.
  apply IH. intros y Hy. apply H. now right.
Qed.

(** X12: after a slice update whose indexes are all at least 1, the array has
    every one of those indexes: the test of query mode finds none of them
    missing. *)
Theorem updated_indexes_exist (list : wcstring_list_t) (indexes : index_vector)
    (values : wcstring_list_t) :
  length values = length indexes ->
  Forall (fun index => 0 < index) indexes ->
  count_missing (Z.of_nat (length (snd (update_values list indexes values))))
                indexes = 0.
Proof.
  intros _ Hpos.
  destruct (update_values_spec indexes list values Hpos) as (_ & Hlen & _).
  rewrite Hlen. unfold count_missing.
  destruct (largest_index_bounds indexes (Z.of_nat (length list))) as [_ Hi].
  rewrite filter_none; [reflexivity|].
  intros i Hin. unfold index_missing.
  rewrite Forall_forall in Hpos. specialize (Hpos i Hin). specialize (Hi i Hin).
  replace (i <? 1) with false by (symmetry; apply Z.ltb_ge; lia).
  replace (i >? _) with false by (symmetry; rewrite Z.gtb_ltb; apply Z.ltb_ge; lia).
  reflexivity.
Qed.

Lemma updated_indexes_exist_witness :
  count_missing (Z.of_nat (length (snd (update_values ["a"] [5; 2] ["x"; "y"]))))
                [5; 2] = 0.
Proof.
  apply (updated_indexes_exist ["a"] [5; 2] ["x"; "y"]);
    [reflexivity | repeat constructor; lia].
Defined.

(** X13: what erase_values removes depends on which indexes are listed, not
    on their order or on how often one is written: two index lists with the
    same members leave the same array. *)
Theorem erase_values_ignores_order_and_repeats (list : wcstring_list_t)
    (indexes indexes' : index_vector) :
  (forall index, In index indexes <-> In index indexes') ->
  erase_values list indexes = erase_values list indexes'.
Proof.
  intros Hsame. rewrite !erase_values_remove_positions.
  apply remove_positions_ext. intros q _.
  destruct (index_listed indexes q) eqn:E.
  - symmetry. apply index_listed_In, Hsame, index_listed_In. exact E.
  - destruct (index_listed indexes' q) eqn:E'; [|reflexivity].
    apply index_listed_In, Hsame, index_listed_In in E'. congruence.
Qed.

Lemma erase_values_ignores_order_and_repeats_witness :
  erase_values ["a"; "b"; "c"; "d"] [3; 1; 3] = erase_values ["a"; "b"; "c"; "d"] [1; 3].
Proof.
  apply erase_values_ignores_order_and_repeats.
  intros index. cbn [In]. intuition.
Defined.

Lemma remove_positions_all (sel : Z -> bool) (l : wcstring_list_t) :
  forall p,
    (forall q, p <= q < p + Z.of_nat (length l) -> sel q = true) ->
    remove_positions sel p l = [].
Proof.
  induction l as [|x t IH]; intros p H; [reflexivity|].
  cbn [remove_positions]. rewrite (H p) by (cbn [length]; lia).
  apply IH. intros q Hq. apply H. cbn [length]. lia.
Qed.

(** X14: erasing the slice [1..-1] empties the array, whatever its length:
    the range parses to all positions of the array (on the empty array to 1
    and 0, which name no element). *)
Theorem erasing_the_whole_range_empties (name : wcstring) (array : wcstring_list_t) :
  is_name name = true -> Z.of_nat (length array) <= LONG_MAX ->
  erase_values array
    (pr_indexes (parse_index [] (slice_text name [Range numeral_1 minus_one]) name
                             (Z.of_nat (length array))))
  = [].
Proof.
  intros Hname Hn.
  rewrite parse_index_slice_text; [|assumption|lia|long_bounds].
  cbn [pr_indexes app flat_map spec_indexes]. rewrite app_nil_r.
  rewrite erase_values_remove_positions.
  apply remove_positions_all. intros q Hq.
  apply index_listed_In.
  change (numeral_value numeral_1) with 1. change (numeral_value minus_one) with (-1).
  unfold spec_resolve. cbn [Z.ltb Z.compare].
  unfold inclusive_sequence.
  replace (1 <=? _) with true by (symmetry; apply Z.leb_le; lia).
  apply in_map_iff. exists (Z.to_nat (q - 1)). split; [lia|].
  apply in_seq. lia.
Qed.

Lemma erasing_the_whole_range_empties_witness :
  erase_values ["a"; "b"; "c"] (pr_indexes (parse_index [] "foo[1..-1]" "foo" 3)) = [].
Proof.
  apply (erasing_the_whole_range_empties "foo" ["a"; "b"; "c"]);
    [reflexivity | vm_compute; discriminate].
Defined.

(** ** The option loop and the checks on the flags *)

Section Option_loop.

Context {S : Type} {store_ops : VariableStore S} {platform : Platform}.

(** X15: the flags are switches.  Two option lists that name the same flags,
    in any order and however often, make the command do the same. *)
Theorem option_order_and_repeats_are_irrelevant (st : S) (incoming : Z)
    (cmd : wcstring) (opts opts' : list set_opt) (argv : wcstring_list_t) :
  forallb is_flag opts = true ->
  (forall o, In o opts <-> In o opts') ->
  builtin_set st incoming cmd opts argv = builtin_set st incoming cmd opts' argv.
Proof.
  intros Hflags Hsame.
  assert (Hflags' : forallb is_flag opts' = true).
  { apply forallb_forall. intros o Ho. apply Hsame in Ho.
    now apply (proj1 (forallb_forall _ _) Hflags). }
  unfold builtin_set.
  rewrite (parse_options_flags cmd opts) by exact Hflags.
  rewrite (parse_options_flags cmd opts') by exact Hflags'.
  replace (flags_after initial_flags opts') with (flags_after initial_flags opts);
    [reflexivity|].
  unfold flags_after.
  now rewrite !(given_same_members _ opts opts' Hsame).
Qed.

(** X16: the first option that is not a flag ends the command.  -h prints
    the help on the output stream with status 0; an option without its
    argument and an unknown option give STATUS_INVALID_ARGS.  The flags in
    front of it have no effect (not even two that exclude each other), the
    options after it and the arguments are not looked at, and the store is as
    it was. *)
Theorem first_other_option_ends_the_command (st : S) (incoming : Z)
    (cmd : wcstring) (before after : list set_opt) (argv : wcstring_list_t) :
  forallb is_flag before = true ->
  builtin_set st incoming cmd (before ++ Opt_h :: after) argv
  = mk_outcome STATUS_CMD_OK st [Out_help cmd] []
  /\ (forall word,
        builtin_set st incoming cmd (before ++ Opt_missing_argument word :: after) argv
        = mk_outcome STATUS_INVALID_ARGS st [] [Err_missing_argument cmd word])
  /\ (forall word,
        builtin_set st incoming cmd (before ++ Opt_unknown word :: after) argv
        = mk_outcome STATUS_INVALID_ARGS st [] [Err_unknown_option cmd word]).
Proof.
  intros Hflags. unfold builtin_set.
  split; [|split]; intros; now rewrite parse_options_app.
Qed.

(** X17: --show comes before the checks on the flags.  With -S among the
    flags the command is the show mode on its arguments, whatever other flags
    are given, also flags that are refused together without it; the store is
    as it was. *)
Theorem show_ignores_other_flags (st : S) (incoming : Z) (cmd : wcstring)
    (opts : list set_opt) (argv : wcstring_list_t) :
  forallb is_flag opts = true -> given "S" opts = true ->
  builtin_set st incoming cmd opts argv
  = mk_outcome (fst (fst (builtin_set_show st cmd argv))) st
               (snd (fst (builtin_set_show st cmd argv)))
               (snd (builtin_set_show st cmd argv)).
Proof.
  intros Hflags Hshow. unfold builtin_set.
  rewrite parse_options_flags by exact Hflags.
  flags_simpl. rewrite Hshow.
  now destruct (builtin_set_show st cmd argv) as [[status out] err].
Qed.

(** X18: without -S, flags that exclude each other are refused before
    anything is done: -q with -e or -n, -e with -n, two of -l -g -U, -x with
    -u.  The status is STATUS_INVALID_ARGS, the error stream holds one message
    for the command and its help, nothing is printed and the store is as it
    was, whatever the arguments. *)
Theorem conflicting_flags_are_refused (st : S) (incoming : Z) (cmd : wcstring)
    (opts : list set_opt) (argv : wcstring_list_t) :
  forallb is_flag opts = true -> given "S" opts = false ->
  conflicting opts = true ->
  exists fmt,
    In fmt [BUILTIN_ERR_COMBO; BUILTIN_ERR_GLOCAL; BUILTIN_ERR_EXPUNEXP]
    /\ builtin_set st incoming cmd opts argv
       = mk_outcome STATUS_INVALID_ARGS st [] [Err_format fmt [cmd]; Err_help cmd].
Proof.
  intros Hflags Hshow Hconf. unfold builtin_set.
  rewrite parse_options_flags by exact Hflags.
  flags_simpl. rewrite Hshow. unfold conflicting in Hconf.
  destruct (given "q" opts && (given "e" opts || given "n" opts)).
  { exists BUILTIN_ERR_COMBO. split; [now left|reflexivity]. }
  destruct (given "e" opts && given "n" opts).
  { exists BUILTIN_ERR_COMBO. split; [now left|reflexivity]. }
  destruct (1 <? _).
  { exists BUILTIN_ERR_GLOCAL. split; [right; now left|reflexivity]. }
  destruct (given "x" opts && given "u" opts); [|discriminate Hconf].
  exists BUILTIN_ERR_EXPUNEXP. split; [right; right; now left|reflexivity].
Qed.

(** X19: the exit status of the modes that write.  A whole-variable
    assignment under flags that only choose scope, export and --long returns
    the status the shell had before ([proc_get_last_status]) when my_env_set
    succeeds, and the status of my_env_set when it fails; the store is the one
    my_env_set leaves.  The same flags without arguments print the variables
    and return 0, not the earlier status. *)
Theorem assignment_passes_status_through (st : S) (incoming : Z) (cmd : wcstring)
    (opts : list set_opt) (name : wcstring) (values : wcstring_list_t) :
  forallb is_flag opts = true ->
  given "e" opts = false -> given "n" opts = false ->
  given "q" opts = false -> given "S" opts = false ->
  conflicting opts = false ->
  valid_var_name name = true -> wcschr name "["%char = None ->
  let scope := scope_of_flags (flags_after initial_flags opts) in
  let assigned := my_env_set st name values scope in
  oc_status (builtin_set st incoming cmd opts (name :: values))
  = (if fst (fst assigned) =? STATUS_CMD_OK then incoming else fst (fst assigned))
  /\ oc_store (builtin_set st incoming cmd opts (name :: values))
     = snd (fst assigned)
  /\ oc_status (builtin_set st incoming cmd opts []) = STATUS_CMD_OK.
Proof.
  intros Hflags He Hn Hq Hs Hconf Hvalid Hbr scope assigned.
  subst assigned scope. unfold builtin_set.
  rewrite parse_options_flags by exact Hflags.
  set (f := flags_after initial_flags opts).
  assert (Ef : fl_show f = false /\ fl_query f = false /\ fl_erase f = false
               /\ fl_list f = false /\ fl_preserve_failure_exit_status f = true).
  { subst f. flags_simpl. now rewrite He, Hn, Hq, Hs. }
  destruct Ef as (-> & -> & -> & -> & ->).
  assert (Ec : (1 <? Z.b2z (fl_local f) + Z.b2z (fl_global f) + Z.b2z (fl_universal f))
               = false /\ fl_exportv f && fl_unexport f = false).
  { subst f. flags_simpl. unfold conflicting in Hconf.
    rewrite He, Hq in Hconf. cbn [andb orb] in Hconf.
    now apply orb_false_elim in Hconf. }
  destruct Ec as [-> ->]. cbn [andb orb].
  rewrite Hbr, (cut_at_without name "["%char Hbr), Hvalid. cbn [missing negb].
  unfold set_whole.
  destruct (my_env_set st name values (scope_of_flags f)) as [[rc st'] err].
  cbn [fst snd oc_status oc_store]. rewrite andb_true_r.
  repeat split.
Qed.

(** X20: the store is written only on the way through a valid variable name.
    When a run leaves another store than it found, the options were all read,
    none of --show, --query and --names was among them, and the first
    argument names a variable with a valid name (in front of its bracket). *)
Theorem store_written_only_for_valid_name (st : S) (incoming : Z) (cmd : wcstring)
    (opts : list set_opt) (argv : wcstring_list_t) :
  oc_store (builtin_set st incoming cmd opts argv) <> st ->
  exists f arg rest,
    parse_options cmd opts initial_flags = inl f
    /\ fl_show f = false /\ fl_query f = false /\ fl_list f = false
    /\ argv = arg :: rest
    /\ valid_var_name (cut_at arg "["%char) = true.
Proof.
  unfold builtin_set.
  destruct (parse_options cmd opts initial_flags) as [f|[[status out] err]];
    [|intros H; now elim H].
  destruct (fl_show f) eqn:Eshow.
  { destruct (builtin_set_show st cmd argv) as [[status out] err].
    intros H; now elim H. }
  destruct (fl_query f && (fl_erase f || fl_list f)); [intros H; now elim H|].
  destruct (fl_erase f && fl_list f); [intros H; now elim H|].
  destruct (1 <? _); [intros H; now elim H|].
  destruct (fl_exportv f && fl_unexport f); [intros H; now elim H|].
  destruct (fl_query f) eqn:Equery.
  { destruct (query_args st (scope_of_flags f) cmd argv STATUS_CMD_OK).
    intros H; now elim H. }
  destruct (fl_list f) eqn:Elist; [intros H; now elim H|].
  destruct argv as [|arg rest].
  { destruct (fl_erase f); intros H; now elim H. }
  destruct (valid_var_name (cut_at arg "["%char)) eqn:Evalid;
    [|intros H; now elim H].
  intros _. exists f, arg, rest. repeat split; assumption.
Qed.

End Option_loop.

Lemma option_order_and_repeats_are_irrelevant_witness :
  run_set [] 0 "set" [Opt_x; Opt_g; Opt_x] ["foo"; "a"]
  = run_set [] 0 "set" [Opt_g; Opt_x] ["foo"; "a"].
Proof.
  apply (option_order_and_repeats_are_irrelevant (S := table));
    [reflexivity|].
  intros o. cbn [In]. intuition.
Defined.

Lemma first_other_option_ends_the_command_witness :
  run_set [("foo", "a")] 3 "set" [Opt_e; Opt_n; Opt_h; Opt_unknown "-z"] ["foo"]
  = mk_outcome STATUS_CMD_OK [("foo", "a")] [Out_help "set"] [].
Proof.
  destruct (first_other_option_ends_the_command (S := table) [("foo", "a")] 3
              "set" [Opt_e; Opt_n] [Opt_unknown "-z"] ["foo"]) as [H _];
    [reflexivity|].
  exact H.
Defined.

Lemma show_ignores_other_flags_witness :
  oc_status (run_set [("foo", "a")] 3 "set" [Opt_e; Opt_S; Opt_n] ["foo"])
  = STATUS_CMD_OK.
Proof.
  unfold run_set.
  rewrite (show_ignores_other_flags (S := table) [("foo", "a")] 3 "set"
             [Opt_e; Opt_S; Opt_n] ["foo"]);
    [reflexivity | reflexivity | reflexivity].
Defined.

Lemma conflicting_flags_are_refused_witness :
  exists fmt,
    In fmt [BUILTIN_ERR_COMBO; BUILTIN_ERR_GLOCAL; BUILTIN_ERR_EXPUNEXP]
    /\ run_set [("foo", "a")] 0 "set" [Opt_l; Opt_U] ["foo"; "b"]
       = mk_outcome STATUS_INVALID_ARGS [("foo", "a")] []
                    [Err_format fmt ["set"]; Err_help "set"].
Proof.
  apply (conflicting_flags_are_refused (S := table) [("foo", "a")] 0 "set"
           [Opt_l; Opt_U] ["foo"; "b"]);
    [reflexivity | reflexivity | reflexivity].
Defined.

Lemma assignment_passes_status_through_witness :
  oc_status (run_set [] 7 "set" [Opt_g; Opt_x] ["foo"; "a"; "b"]) = 7
  /\ oc_status (run_set [] 7 "set" [Opt_g; Opt_x] ["PATH"; "/nowhere"]) = 1
  /\ oc_status (run_set [] 7 "set" [Opt_g; Opt_x] []) = 0.
Proof.
  destruct (assignment_passes_status_through (S := table) [] 7 "set"
              [Opt_g; Opt_x] "foo" ["a"; "b"]) as (Hfoo & _ & Hnone);
    [reflexivity | reflexivity | reflexivity | reflexivity | reflexivity
    | reflexivity | reflexivity | reflexivity |].
  destruct (assignment_passes_status_through (S := table) [] 7 "set"
              [Opt_g; Opt_x] "PATH" ["/nowhere"]) as (Hpath & _ & _);
    [reflexivity | reflexivity | reflexivity | reflexivity | reflexivity
    | reflexivity | reflexivity | reflexivity |].
  split; [exact Hfoo | split; [exact Hpath | exact Hnone]].
Defined.

Lemma store_written_only_for_valid_name_witness :
  exists f arg rest,
    parse_options "set" [Opt_g] initial_flags = inl f
    /\ fl_show f = false /\ fl_query f = false /\ fl_list f = false
    /\ ["foo"; "a"] = arg :: rest
    /\ valid_var_name (cut_at arg "["%char) = true.
Proof.
  apply (store_written_only_for_valid_name (S := table) [] 0 "set" [Opt_g]
           ["foo"; "a"]).
  vm_compute. discriminate.
Defined.

(** ** Show mode *)

Section Show_mode.

Context {S : Type} {store_ops : VariableStore S} {platform : Platform}.

Lemma show_elements_short (var_name : wcstring) (size : Z) :
  size <= 100 ->
  forall rest i, show_elements var_name size i rest = element_lines var_name i rest.
Proof.
  intros Hsize. induction rest as [|value rest IH]; intros i; [reflexivity|].
  cbn [show_elements element_lines]. cbv zeta.
  replace (size >? 100) with false by (symmetry; rewrite Z.gtb_ltb; apply Z.ltb_ge; lia).
  cbn [andb app]. now rewrite IH.
Qed.

Lemma show_elements_end (var_name : wcstring) (size : Z) :
  100 < size ->
  forall rest i,
    size - 50 <= i ->
    show_elements var_name size i rest = element_lines var_name i rest.
Proof.
  intros Hsize. induction rest as [|value rest IH]; intros i Hi; [reflexivity|].
  cbn [show_elements element_lines]. cbv zeta.
  replace (i =? 50) with false by (symmetry; apply Z.eqb_neq; lia).
  replace (i <? size - 50) with false by (symmetry; apply Z.ltb_ge; lia).
  rewrite !andb_false_r. cbn [app]. rewrite IH by lia. reflexivity.
Qed.

Lemma show_elements_middle (var_name : wcstring) (size : Z) :
  100 < size ->
  forall rest i,
    50 < i <= size - 50 -> i + Z.of_nat (length rest) = size ->
    show_elements var_name size i rest
    = element_lines var_name (size - 50) (skipn (Z.to_nat (size - 50 - i)) rest).
Proof.
  intros Hsize. induction rest as [|value rest IH]; intros i Hi Hlen.
  - cbn [length] in Hlen. lia.
  - destruct (Z.eq_dec i (size - 50)) as [->|Hne].
    + rewrite Z.sub_diag. cbn [Z.to_nat skipn].
      apply show_elements_end; lia.
    + cbn [show_elements]. cbv zeta.
      replace (size >? 100) with true by (symmetry; rewrite Z.gtb_ltb; apply Z.ltb_lt; lia).
      replace (i =? 50) with false by (symmetry; apply Z.eqb_neq; lia).
      replace (i >=? 50) with true by (symmetry; rewrite Z.geb_leb; apply Z.leb_le; lia).
      replace (i <? size - 50) with true by (symmetry; apply Z.ltb_lt; lia).
      cbn [andb app]. cbn [length] in Hlen. rewrite IH by lia.
      replace (Z.to_nat (size - 50 - i)) with (Datatypes.S (Z.to_nat (size - 50 - (i + 1))))
        by lia.
      reflexivity.
Qed.

Lemma show_elements_start (var_name : wcstring) (size : Z) :
  100 < size ->
  forall rest i,
    0 <= i <= 50 -> i + Z.of_nat (length rest) = size ->
    show_elements var_name size i rest
    = element_lines var_name i (firstn (Z.to_nat (50 - i)) rest)
      ++ elision_line
         :: element_lines var_name (size - 50) (skipn (Z.to_nat (size - 50 - i)) rest).
Proof.
  intros Hsize. induction rest as [|value rest IH]; intros i Hi Hlen.
  - cbn [length] in Hlen. lia.
  - cbn [length] in Hlen. cbn [show_elements]. cbv zeta.
    replace (size >? 100) with true by (symmetry; rewrite Z.gtb_ltb; apply Z.ltb_lt; lia).
    replace (Z.to_nat (size - 50 - i)) with (Datatypes.S (Z.to_nat (size - 50 - (i + 1))))
      by lia.
    cbn [skipn].
    destruct (Z.eq_dec i 50) as [->|Hne].
    + cbn [Z.sub Z.eqb Z.geb Z.compare Z.to_nat firstn element_lines andb app
           Z.pos_sub Pos.compare Pos.compare_cont Z.opp].
      replace (50 <? size - 50) with true by (symmetry; apply Z.ltb_lt; lia).
      cbn [app]. rewrite show_elements_middle by lia. reflexivity.
    + replace (i =? 50) with false by (symmetry; apply Z.eqb_neq; lia).
      replace (i >=? 50) with false by (symmetry; rewrite Z.geb_leb; apply Z.leb_gt; lia).
      cbn [andb app]. rewrite IH by lia.
      replace (Z.to_nat (50 - i)) with (Datatypes.S (Z.to_nat (50 - (i + 1)))) by lia.
      reflexivity.
Qed.

(** X21: which elements show_scope lists.  An array of up to 100 elements is
    listed whole, one line per element.  Of a longer one the first 50 and the
    last 50 elements are listed, numbered by their place in the array, with
    one line of three dots where the others are left out. *)
Theorem show_elements_elides_the_middle (var_name : wcstring)
    (result : wcstring_list_t) :
  let size := Z.of_nat (length result) in
  show_elements var_name size 0 result
  = if size <=? 100 then element_lines var_name 0 result
    else
      element_lines var_name 0 (firstn 50 result)
      ++ elision_line
         :: element_lines var_name (size - 50) (skipn (length result - 50) result).
Proof.
  intros size. destruct (size <=? 100) eqn:E.
  - apply Z.leb_le in E. now apply show_elements_short.
  - apply Z.leb_gt in E. rewrite show_elements_start by (subst size; lia).
    replace (Z.to_nat (50 - 0)) with 50%nat by reflexivity.
    replace (Z.to_nat (size - 50 - 0)) with (length result - 50)%nat
      by (subst size; lia).
    reflexivity.
Qed.

(** X22: the status of show mode.  It is STATUS_CMD_ERROR exactly when one of
    the arguments passes the name check and holds a bracket, and STATUS_CMD_OK
    otherwise: a name that fails the check gets a message and is passed over.
    Nothing is written to the store (show mode has none to return). *)
Theorem show_fails_only_on_slices (st : S) (cmd : wcstring) (argv : wcstring_list_t) :
  (fst (fst (builtin_set_show st cmd argv)) = STATUS_CMD_ERROR
   <-> exists arg,
         In arg argv /\ valid_var_name arg = true /\ wcschr arg "["%char <> None)
  /\ (fst (fst (builtin_set_show st cmd argv)) = STATUS_CMD_OK
      \/ fst (fst (builtin_set_show st cmd argv)) = STATUS_CMD_ERROR)
  /\ (Forall (fun arg => valid_var_name arg = false) argv ->
      snd (builtin_set_show st cmd argv)
      = map (fun arg => Err_format FMT_INVALID_VAR_NAME [arg]) argv).
Proof.
  assert (Hargs : forall args,
             (fst (fst (show_args st cmd args)) = STATUS_CMD_ERROR
              <-> exists arg,
                    In arg args /\ valid_var_name arg = true
                    /\ wcschr arg "["%char <> None)
             /\ (fst (fst (show_args st cmd args)) = STATUS_CMD_OK
                 \/ fst (fst (show_args st cmd args)) = STATUS_CMD_ERROR)
             /\ (Forall (fun arg => valid_var_name arg = false) args ->
                 snd (show_args st cmd args)
                 = map (fun arg => Err_format FMT_INVALID_VAR_NAME [arg]) args)).
  { induction args as [|arg rest (IHst & IHtwo & IHerr)].
    - cbn. split; [|split; [now left|reflexivity]].
      split; [discriminate|]. now intros (arg & [] & _).
    - cbn [show_args].
      destruct (valid_var_name arg) eqn:Evalid; cbn [negb].
      + destruct (wcschr arg "["%char) as [tail|] eqn:Ebr; cbn [missing negb].
        * cbn [fst snd]. split; [|split; [now right|]].
          -- split; [|reflexivity]. intros _. exists arg.
             split; [now left|]. split; [exact Evalid|]. now rewrite Ebr.
          -- intros Hall. inversion Hall; subst. congruence.
        * destruct (show_args st cmd rest) as [[status out] err].
          cbn [fst snd] in *. split; [|split; [exact IHtwo|]].
          -- rewrite IHst. split.
             ++ intros (a & Hin & Ha). exists a. split; [now right|exact Ha].
             ++ intros (a & [->|Hin] & Hv & Hb); [congruence|].
                exists a. now repeat split.
          -- intros Hall. inversion Hall; subst. congruence.
      + destruct (show_args st cmd rest) as [[status out] err].
        cbn [fst snd] in *. split; [|split; [exact IHtwo|]].
        * rewrite IHst. split.
          -- intros (a & Hin & Ha). exists a. split; [now right|exact Ha].
          -- intros (a & [->|Hin] & Hv & Hb); [congruence|].
             exists a. now repeat split.
        * intros Hall. inversion Hall; subst. cbn [map]. now rewrite IHerr. }
  destruct argv as [|arg rest]; [|apply Hargs].
  cbn. split; [|split; [now left|reflexivity]].
  split; [discriminate|]. now intros (arg & [] & _).
Qed.

End Show_mode.

(** ** my_env_set: what reaches the store, and when the file system is asked *)

Section Store_and_file_system.

Context {S : Type} {store_ops : VariableStore S}.

Lemma validate_paths_unchecked (p : Platform) (key : wcstring)
    (existing list : wcstring_list_t) :
  (forall dir, In dir list -> accepted_unchecked existing dir = true) ->
  forall any_success,
    validate_paths (platform := p) key existing list any_success
    = (any_success || negb (Nat.eqb (length list) 0), []).
Proof.
  induction list as [|dir rest IH]; intros Hall any_success.
  - cbn. now rewrite orb_false_r.
  - cbn [validate_paths]. rewrite (Hall dir) by now left.
    rewrite IH by (intros d Hd; apply Hall; now right).
    cbn [length Nat.eqb negb orb]. now rewrite orb_true_r.
Qed.

(** X23: a list for PATH or CDPATH of which no entry passes the validation
    does not reach the store: env_set is not called, so the store is as it
    was and no message of the store is written; the status is
    STATUS_CMD_ERROR, and every entry has its warning on the error stream,
    with the error text of the failed file system check. *)
Theorem rejected_path_list_is_not_stored (p : Platform) (st : S) (key : wcstring)
    (list : wcstring_list_t) (scope : env_mode_flags_t) :
  is_path_variable key = true -> list <> [] ->
  (forall dir, In dir list ->
               entry_accepted (platform := p) (existing_values st key) dir = false) ->
  fst (my_env_set (platform := p) st key list scope) = (STATUS_CMD_ERROR, st)
  /\ forall dir,
       In dir list ->
       exists errno,
         check_dir (platform := p) dir = Some errno
         /\ In (Err_format BUILTIN_SET_PATH_ERROR ["set"; key; dir; strerror errno])
               (snd (my_env_set (platform := p) st key list scope)).
Proof.
  intros Hpath Hne Hrej. unfold my_env_set. rewrite Hpath.
  rewrite validate_paths_spec. cbn [orb].
  replace (existsb (entry_accepted (existing_values st key)) list) with false.
  2:{ symmetry. apply not_true_is_false. intros Hex.
      apply existsb_exists in Hex as (dir & Hin & Hacc).
      rewrite (Hrej dir Hin) in Hacc. discriminate. }
  destruct list as [|d rest]; [congruence|].
  cbn [length Nat.eqb negb andb fst snd]. split; [reflexivity|].
  intros dir Hin. specialize (Hrej dir Hin).
  assert (Hw : entry_warnings key (existing_values st key) dir
               = if entry_accepted (existing_values st key) dir then []
                 else match check_dir dir with
                      | Some errno =>
                          Err_format BUILTIN_SET_PATH_ERROR
                            ["set"; key; dir; strerror errno]
                            :: path_hint key dir
                      | None => []
                      end) by reflexivity.
  assert (Ha : entry_accepted (existing_values st key) dir
               = accepted_unchecked (existing_values st key) dir
                 || match check_dir dir with None => true | Some _ => false end)
    by reflexivity.
  rewrite Hrej in Hw. rewrite Ha in Hrej.
  apply orb_false_elim in Hrej as [_ Hc].
  destruct (check_dir dir) as [errno|]; [|discriminate].
  exists errno. split; [reflexivity|].
  apply in_flat_map. exists dir. split; [exact Hin|].
  rewrite Hw. now left.
Qed.

(** X24: when the file system is not asked.  For a variable other than PATH
    and CDPATH, and for a list whose entries all are relative (no leading
    slash) or already among the values of the variable, my_env_set gives the
    same status, store and messages on any two platforms: no entry is
    checked with wstat or waccess. *)
Theorem unchecked_entries_need_no_file_system (p1 p2 : Platform) (st : S)
    (key : wcstring) (list : wcstring_list_t) (scope : env_mode_flags_t) :
  is_path_variable key = false
  \/ (forall dir, In dir list ->
                  accepted_unchecked (existing_values st key) dir = true) ->
  my_env_set (platform := p1) st key list scope
  = my_env_set (platform := p2) st key list scope.
Proof.
  intros [Hother|Hall]; unfold my_env_set.
  - now rewrite Hother.
  - destruct (is_path_variable key); [|reflexivity].
    now rewrite !validate_paths_unchecked by exact Hall.
Qed.

End Store_and_file_system.

Lemma rejected_path_list_is_not_stored_witness :
  fst (my_env_set [("PATH", "/bin")] "PATH" ["/nowhere"; "/etc/passwd"] ENV_GLOBAL)
  = (STATUS_CMD_ERROR, [("PATH", "/bin")]).
Proof.
  destruct (rejected_path_list_is_not_stored example_platform [("PATH", "/bin")]
              "PATH" ["/nowhere"; "/etc/passwd"] ENV_GLOBAL) as [H _];
    [reflexivity | discriminate | | exact H].
  intros dir [<-|[<-|[]]]; reflexivity.
Defined.

Lemma unchecked_entries_need_no_file_system_witness :
  my_env_set (platform := example_platform) [("PATH", "/bin")] "PATH"
             ["bin"; "/bin"; "../x"] ENV_GLOBAL
  = my_env_set (platform := bare_platform) [("PATH", "/bin")] "PATH"
               ["bin"; "/bin"; "../x"] ENV_GLOBAL.
Proof.
  apply (unchecked_entries_need_no_file_system (S := table)).
  right. intros dir [<-|[<-|[<-|[]]]]; reflexivity.
Defined.

(** ** The warning about a shadowed universal variable *)

Lemma warns_shadowed_app (a b : err_stream) :
  warns_shadowed (a ++ b) = warns_shadowed a || warns_shadowed b.
Proof. apply existsb_app. Qed.

Lemma parse_index_loop_no_shadow (fuel : nat) :
  forall src var_count indexes count r,
    parse_index_loop fuel src var_count indexes count = Some r ->
    warns_shadowed (pr_err r) = false.
Proof.
  induction fuel as [|fuel IH]; intros src var_count indexes count r E;
    [discriminate|].
  cbn [parse_index_loop] in E.
  destruct (starts_with "]" src); [now inversion E|].
  destruct (fish_wcstol src) as [[l_ind endp] errno].
  destruct (errno >? 0); [now inversion E|].
  destruct (after_dots endp) as [src2|].
  - destruct (fish_wcstol src2) as [[l_ind2 endp2] errno2].
    destruct (errno2 >? 0); [now inversion E|].
    now apply IH in E.
  - now apply IH in E.
Qed.

Lemma parse_index_no_shadow (indexes : list Z) (src name : wcstring)
    (var_count : Z) :
  warns_shadowed (pr_err (parse_index indexes src name var_count)) = false.
Proof.
  unfold parse_index.
  destruct (negb (starts_with "[" (skip_name src))); [reflexivity|].
  destruct (negb (String.eqb _ name)); [reflexivity|].
  destruct (parse_index_loop _ _ _ _ _) as [r|] eqn:E; [|reflexivity].
  eapply parse_index_loop_no_shadow; eassumption.
Qed.

Lemma slice_args_no_shadow (cmd dest : wcstring) (erase : bool) (var_count : Z)
    (argv : wcstring_list_t) :
  forall indexes,
    warns_shadowed (snd (slice_args cmd dest erase var_count indexes argv)) = false.
Proof.
  induction argv as [|arg rest IH]; intros indexes; [reflexivity|].
  cbn [slice_args].
  pose proof (parse_index_no_shadow indexes arg dest var_count) as Hp.
  destruct (pr_count _ =? 0).
  { cbn [snd]. rewrite warns_shadowed_app, Hp. reflexivity. }
  destruct (negb erase && (_ <? _)).
  { cbn [snd]. rewrite warns_shadowed_app, Hp. reflexivity. }
  destruct (negb erase && (_ =? _)); [exact Hp|].
  specialize (IH (pr_indexes (parse_index indexes arg dest var_count))).
  destruct (slice_args cmd dest erase var_count _ rest) as [[[rc idx] vals] err].
  cbn [snd] in *. now rewrite warns_shadowed_app, Hp, IH.
Qed.

Section Shadowing.

Context {S : Type} {store_ops : VariableStore S} {platform : Platform}.

Lemma entry_warnings_no_shadow (key : wcstring) (existing : wcstring_list_t)
    (dir : wcstring) :
  warns_shadowed (entry_warnings key existing dir) = false.
Proof.
  unfold entry_warnings.
  destruct (entry_accepted existing dir); [reflexivity|].
  destruct (check_dir dir); [|reflexivity].
  unfold path_hint.
  destruct (wcschr dir ":"%char) as [[|c [|a t]]|]; reflexivity.
Qed.

Lemma my_env_set_no_shadow (st : S) (key : wcstring) (list : wcstring_list_t)
    (scope : env_mode_flags_t) :
  warns_shadowed (snd (my_env_set st key list scope)) = false.
Proof.
  assert (Hw : forall l,
             warns_shadowed
               (flat_map (entry_warnings key (existing_values st key)) l) = false).
  { induction l as [|d l IH]; [reflexivity|]. cbn [flat_map].
    now rewrite warns_shadowed_app, entry_warnings_no_shadow, IH. }
  unfold my_env_set.
  destruct (is_path_variable key).
  - rewrite validate_paths_spec.
    destruct (negb (Nat.eqb (length list) 0) && negb _).
    + cbn [snd]. apply Hw.
    + destruct (env_set_list st key list scope) as [[| | |] st']; cbn [snd];
        rewrite ?warns_shadowed_app, Hw; reflexivity.
  - destruct (env_set_list st key list scope) as [[| | |] st']; reflexivity.
Qed.

Lemma set_slice_no_shadow (st : S) (cmd dest : wcstring) (erase : bool)
    (scope : env_mode_flags_t) (argv : wcstring_list_t) :
  warns_shadowed (snd (set_slice st cmd dest erase scope argv)) = false.
Proof.
  unfold set_slice.
  destruct (missing (env_get_string st dest scope) && erase); [reflexivity|].
  pose proof (slice_args_no_shadow cmd dest erase
                (Z.of_nat (length (fetch_array st dest scope))) argv []) as Ha.
  destruct (slice_args cmd dest erase _ [] argv) as [[[rc idx] vals] err].
  cbn [snd] in Ha.
  destruct (negb (rc =? 0)); [exact Ha|].
  destruct erase.
  - pose proof (my_env_set_no_shadow st dest
                  (erase_values (fetch_array st dest scope) idx) scope) as Hm.
    destruct (my_env_set st dest _ scope) as [[rc' st'] err'].
    cbn [snd] in *. now rewrite warns_shadowed_app, Ha, Hm.
  - destruct (update_values (fetch_array st dest scope) idx vals) as [failed result].
    pose proof (my_env_set_no_shadow st dest result scope) as Hm.
    destruct (my_env_set st dest result scope) as [[rc' st'] err'].
    cbn [snd] in *. rewrite !warns_shadowed_app, Ha, Hm.
    now destruct (negb (failed =? 0)).
Qed.

Lemma set_whole_no_shadow (st : S) (cmd dest : wcstring) (erase : bool)
    (scope : env_mode_flags_t) (argv : wcstring_list_t) :
  warns_shadowed (snd (set_whole st cmd dest erase scope argv)) = false.
Proof.
  unfold set_whole. destruct erase; [|apply my_env_set_no_shadow].
  destruct argv; [|reflexivity].
  now destruct (env_remove st dest scope).
Qed.

(** X25: the warning about a shadowed universal variable.  After an
    assignment or an erase, of a whole variable or of slices, the warning is
    on the error stream exactly when -U was given, the shell is interactive,
    and the store as the command leaves it holds a global variable of that
    name; whether the write itself succeeded plays no part.  No other
    message of the command is this warning. *)
Theorem shadow_warning_follows_the_write (st : S) (incoming : Z) (cmd : wcstring)
    (opts : list set_opt) (arg : wcstring) (rest : wcstring_list_t) :
  forallb is_flag opts = true ->
  given "n" opts = false -> given "q" opts = false -> given "S" opts = false ->
  conflicting opts = false ->
  valid_var_name (cut_at arg "["%char) = true ->
  let result := builtin_set st incoming cmd opts (arg :: rest) in
  warns_shadowed (oc_err result)
  = given "U" opts
    && negb (missing (env_get_string (oc_store result) (cut_at arg "["%char)
                                     ENV_GLOBAL))
    && shell_is_interactive.
Proof.
  intros Hflags Hn Hq Hs Hconf Hvalid result. subst result.
  unfold builtin_set.
  rewrite parse_options_flags by exact Hflags.
  set (f := flags_after initial_flags opts).
  assert (Ef : fl_show f = false /\ fl_query f = false /\ fl_list f = false
               /\ fl_universal f = given "U" opts).
  { subst f. flags_simpl. now rewrite Hn, Hq, Hs. }
  destruct Ef as (-> & -> & -> & ->).
  assert (Ec : fl_erase f && false = false
               /\ (1 <? Z.b2z (fl_local f) + Z.b2z (fl_global f) + Z.b2z (given "U" opts))
                  = false
               /\ fl_exportv f && fl_unexport f = false).
  { subst f. flags_simpl. unfold conflicting in Hconf.
    rewrite Hn, Hq in Hconf. rewrite andb_false_r in *. cbn [andb orb] in Hconf.
    split; [reflexivity|]. now apply orb_false_elim in Hconf. }
  destruct Ec as (-> & Hscope & ->). cbn [andb orb].
  assert (Escope : (1 <? Z.b2z (fl_local f) + Z.b2z (fl_global f)
                         + Z.b2z (fl_universal f)) = false).
  { subst f. flags_simpl. exact Hscope. }
  match goal with
  | |- context [if 1 <? ?a + ?b + ?c then _ else _] =>
      replace (1 <? a + b + c) with false
  end.
  rewrite Hvalid. cbn [negb].
  set (branch := if negb (missing (wcschr arg "["%char))
                 then set_slice st cmd (cut_at arg "["%char) (fl_erase f)
                                (scope_of_flags f) (arg :: rest)
                 else set_whole st cmd (cut_at arg "["%char) (fl_erase f)
                                (scope_of_flags f) rest).
  assert (Hb : warns_shadowed (snd branch) = false).
  { subst branch. destruct (negb (missing (wcschr arg "["%char)));
      [apply set_slice_no_shadow|apply set_whole_no_shadow]. }
  destruct branch as [[rc st'] err]. cbn [snd oc_err oc_store] in *.
  rewrite warns_shadowed_app, Hb. cbn [orb].
  destruct (given "U" opts && negb (missing _) && shell_is_interactive);
    reflexivity.
Qed.

End Shadowing.

Lemma shadow_warning_follows_the_write_witness :
  warns_shadowed
    (oc_err (builtin_set (platform := bare_platform) [("foo", "a")] 0 "set"
                         [Opt_U; Opt_x] ["foo[3]"; "b"]))
  = true.
Proof.
  rewrite (shadow_warning_follows_the_write (S := table) (platform := bare_platform)
             [("foo", "a")] 0 "set" [Opt_U; Opt_x] "foo[3]" ["b"]);
    [reflexivity | reflexivity | reflexivity | reflexivity | reflexivity
    | reflexivity | reflexivity].
Defined.

(** ** Names mode and erase mode *)

Lemma insert_sorted_permutation (x : wcstring) (l : wcstring_list_t) :
  Permutation (insert_sorted x l) (x :: l).
Proof.
  induction l as [|y t IH]; cbn [insert_sorted]; [reflexivity|].
  destruct (String.leb x y); [reflexivity|].
  rewrite IH. apply perm_swap.
Qed.

Lemma sort_permutation (l : wcstring_list_t) : Permutation (sort l) l.
Proof.
  induction l as [|x t IH]; [reflexivity|].
  unfold sort in *. cbn [fold_right].
  rewrite insert_sorted_permutation. now constructor.
Qed.

Section Names_and_erase.

Context {S : Type} {store_ops : VariableStore S} {platform : Platform}.

(** X26: names mode.  With -n (and no flag it is refused with) the command
    prints the escaped name of every variable the store lists for the scope,
    each once and on a line of its own, without values.  The arguments are
    not looked at, the status is 0 whatever the status was before, and the
    store is as it was. *)
Theorem names_mode_lists_every_name_once (st : S) (incoming : Z) (cmd : wcstring)
    (opts : list set_opt) (argv : wcstring_list_t) :
  forallb is_flag opts = true ->
  given "n" opts = true -> given "S" opts = false -> conflicting opts = false ->
  let scope := scope_of_flags (flags_after initial_flags opts) in
  exists names,
    Permutation names (env_get_names st scope)
    /\ builtin_set st incoming cmd opts argv
       = mk_outcome STATUS_CMD_OK st
           (flat_map (fun key => [Out_append (escape_string key false);
                                  Out_append newline]) names)
           [].
Proof.
  intros Hflags Hn Hs Hconf scope. subst scope.
  exists (sort (env_get_names st (scope_of_flags (flags_after initial_flags opts)))).
  split; [apply sort_permutation|].
  unfold builtin_set. rewrite parse_options_flags by exact Hflags.
  set (f := flags_after initial_flags opts).
  unfold conflicting in Hconf. rewrite Hn in Hconf.
  rewrite !orb_true_r, !andb_true_r in Hconf.
  apply orb_false_elim in Hconf as [Hconf Hxu].
  apply orb_false_elim in Hconf as [Hconf Hscope].
  apply orb_false_elim in Hconf as [Hq He].
  assert (Ef : fl_show f = false /\ fl_query f = false /\ fl_list f = true
               /\ fl_erase f = false
               /\ (1 <? Z.b2z (fl_local f) + Z.b2z (fl_global f) + Z.b2z (fl_universal f))
                  = false
               /\ fl_exportv f && fl_unexport f = false).
  { subst f. flags_simpl. now rewrite Hn, Hs, Hq, He. }
  destruct Ef as (-> & -> & -> & -> & -> & ->). cbn [andb orb].
  reflexivity.
Qed.

(** X27: erase mode on a whole variable.  With -e and one name the status is
    the one env_remove returns and the store the one it leaves; the status
    the shell had before is not passed through, also when env_remove returns
    0.  Values after the name are refused with status 1, and -e without a
    name with STATUS_INVALID_ARGS; in both cases the store is as it was. *)
Theorem erase_returns_status_of_env_remove (st : S) (incoming : Z) (cmd : wcstring)
    (opts : list set_opt) (name : wcstring) :
  forallb is_flag opts = true ->
  given "e" opts = true -> given "S" opts = false -> conflicting opts = false ->
  valid_var_name name = true -> wcschr name "["%char = None ->
  let scope := scope_of_flags (flags_after initial_flags opts) in
  builtin_set st incoming cmd opts [name]
  = mk_outcome (fst (env_remove st name scope)) (snd (env_remove st name scope))
               []
               (if given "U" opts
                   && negb (missing (env_get_string (snd (env_remove st name scope))
                                                    name ENV_GLOBAL))
                   && shell_is_interactive
                then [Err_format FMT_SHADOWED ["set"; name]] else [])
  /\ (forall value values,
        oc_status (builtin_set st incoming cmd opts (name :: value :: values)) = 1
        /\ oc_store (builtin_set st incoming cmd opts (name :: value :: values)) = st)
  /\ builtin_set st incoming cmd opts []
     = mk_outcome STATUS_INVALID_ARGS st []
                  [Err_format FMT_ERASE_NEEDS_NAME [cmd]; Err_help cmd].
Proof.
  intros Hflags He Hs Hconf Hvalid Hbr scope. subst scope.
  unfold builtin_set. rewrite parse_options_flags by exact Hflags.
  set (f := flags_after initial_flags opts).
  unfold conflicting in Hconf. rewrite He in Hconf.
  rewrite ?orb_true_l, ?andb_true_r, ?andb_true_l in Hconf.
  apply orb_false_elim in Hconf as [Hconf Hxu].
  apply orb_false_elim in Hconf as [Hconf Hscope].
  apply orb_false_elim in Hconf as [Hq Hn].
  assert (Ef : fl_show f = false /\ fl_query f = false /\ fl_list f = false
               /\ fl_erase f = true
               /\ (1 <? Z.b2z (fl_local f) + Z.b2z (fl_global f) + Z.b2z (fl_universal f))
                  = false
               /\ fl_exportv f && fl_unexport f = false
               /\ fl_preserve_failure_exit_status f = false
               /\ fl_universal f = given "U" opts).
  { subst f. flags_simpl. now rewrite He, Hs, Hq, Hn. }
  destruct Ef as (-> & -> & -> & -> & -> & -> & -> & ->). cbn [andb orb].
  rewrite Hbr, (cut_at_without name "["%char Hbr), Hvalid.
  cbn [missing negb set_whole].
  split; [|split; [|reflexivity]].
  - destruct (env_remove st name (scope_of_flags f)) as [rc st'].
    cbn [fst snd app]. now rewrite andb_false_r.
  - intros value values. now cbn.
Qed.

End Names_and_erase.

Lemma names_mode_lists_every_name_once_witness :
  exists names,
    Permutation names ["zeta"; "alpha"]
    /\ run_set [("zeta", "1"); ("alpha", "2")] 5 "set" [Opt_n; Opt_g] ["ignored"]
       = mk_outcome STATUS_CMD_OK [("zeta", "1"); ("alpha", "2")]
           (flat_map (fun key => [Out_append key; Out_append newline]) names)
           [].
Proof.
  pose proof (names_mode_lists_every_name_once (S := table)
                [("zeta", "1"); ("alpha", "2")] 5 "set" [Opt_n; Opt_g]
                ["ignored"]) as H.
  feed H reflexivity. feed H reflexivity. feed H reflexivity. feed H reflexivity.
  exact H.
Defined.

Lemma erase_returns_status_of_env_remove_witness :
  run_set [("foo", "a")] 5 "set" [Opt_e] ["foo"] = mk_outcome 0 [] [] []
  /\ oc_status (run_set [("foo", "a")] 5 "set" [Opt_e] ["bar"]) = 1.
Proof.
  destruct (erase_returns_status_of_env_remove (S := table) [("foo", "a")] 5
              "set" [Opt_e] "foo") as (Hfoo & _);
    [reflexivity | reflexivity | reflexivity | reflexivity | reflexivity
    | reflexivity |].
  destruct (erase_returns_status_of_env_remove (S := table) [("foo", "a")] 5
              "set" [Opt_e] "bar") as (Hbar & _);
    [reflexivity | reflexivity | reflexivity | reflexivity | reflexivity
    | reflexivity |].
  split; [exact Hfoo | exact (f_equal oc_status Hbar)].
Defined.

Lemma show_fails_only_on_slices_witness :
  snd (builtin_set_show [("foo", "a")] "set" ["foo[1]"; "9 lives"])
  = [Err_format FMT_INVALID_VAR_NAME ["foo[1]"];
     Err_format FMT_INVALID_VAR_NAME ["9 lives"]].
Proof.
  destruct (show_fails_only_on_slices (S := table) [("foo", "a")] "set"
              ["foo[1]"; "9 lives"]) as (_ & _ & Herr).
  exact (Herr ltac:(repeat constructor)).
Defined.
